(** * Edge-loop analysis of the edgy add-on (loops.py): a shallow embedding

    The mesh is the host application's BMesh.  Its elements are Python
    objects that refer to one another; here every element is named by its
    position in the mesh's sequence ([BMVert.index], [BMEdge.index]), and
    the mesh record carries, per element, exactly the attributes that
    loops.py reads: [link_edges], [is_boundary], [is_wire], [link_faces],
    [verts].  [wf_mesh] checks that these attributes are the ones the host
    computes for a mesh made of the given edges and faces. *)

From stdpp Require Import base list gmap sets sorting strings.

Open Scope nat_scope.

(** ** The mesh graph adapter *)

Module Mesh.

Record BMVert := mkVert {
  link_edges : list nat;      (* incident edges, in the host's iteration order *)
  is_boundary : bool;
  is_wire : bool;
  v_link_faces : list nat
}.

Record BMEdge := mkEdge {
  verts : nat * nat;          (* edge.verts[0], edge.verts[1] *)
  e_link_faces : list nat
}.

Record BMFace := mkFace {
  f_verts : list nat          (* the face's vertex cycle *)
}.

Record BMesh := mkMesh {
  bm_verts : list BMVert;
  bm_edges : list BMEdge;
  bm_faces : list BMFace
}.

Definition no_vert : BMVert := mkVert [] false false [].
Definition no_edge : BMEdge := mkEdge (0, 0) [].

(** [bm.verts[i]] and [bm.edges[i]] for an index taken from the mesh itself. *)
Definition vert (bm : BMesh) (v : nat) : BMVert := default no_vert (bm_verts bm !! v).
Definition edge (bm : BMesh) (e : nat) : BMEdge := default no_edge (bm_edges bm !! e).

(** [edge.other_vert(vert)]; loops.py only passes an end of the edge *)
Definition other_vert (bm : BMesh) (e v : nat) : nat :=
  let '(a, b) := verts (edge bm e) in if decide (v = a) then b else a.

(** *** Well-formedness: the attributes agree with the edge and face lists *)

Definition same_members (l k : list nat) : bool :=
  bool_decide (NoDup l) && bool_decide (NoDup k) &&
  forallb (λ x, bool_decide (x ∈ k)) l && forallb (λ x, bool_decide (x ∈ l)) k.

Definition edge_has (bm : BMesh) (e v : nat) : bool :=
  bool_decide (v = (verts (edge bm e)).1) || bool_decide (v = (verts (edge bm e)).2).

(** the sides of a face: consecutive vertices of its cycle *)
Definition face_sides (f : BMFace) : list (nat * nat) :=
  match f_verts f with
  | [] => []
  | v0 :: rest => zip (v0 :: rest) (rest ++ [v0])
  end.

Definition edge_on_face (bm : BMesh) (e : nat) (f : BMFace) : bool :=
  let '(a, b) := verts (edge bm e) in
  existsb (λ s, bool_decide (s = (a, b)) || bool_decide (s = (b, a))) (face_sides f).

Definition indices {A} (l : list A) : list nat := seq 0 (length l).

Definition wf_edge (bm : BMesh) (e : nat) : bool :=
  let '(a, b) := verts (edge bm e) in
  bool_decide (a < length (bm_verts bm)) && bool_decide (b < length (bm_verts bm)) &&
  bool_decide (a ≠ b) &&
  forallb (λ e', bool_decide (e' = e) ||
                 negb (edge_has bm e' a && edge_has bm e' b)) (indices (bm_edges bm)) &&
  same_members (e_link_faces (edge bm e))
    (filter (λ f, edge_on_face bm e (default (mkFace []) (bm_faces bm !! f)) = true)
            (indices (bm_faces bm))).

Definition wf_face (bm : BMesh) (f : BMFace) : bool :=
  bool_decide (3 ≤ length (f_verts f)) && bool_decide (NoDup (f_verts f)) &&
  forallb (λ s, existsb (λ e, edge_has bm e s.1 && edge_has bm e s.2)
                        (indices (bm_edges bm))) (face_sides f).

Definition wf_vert (bm : BMesh) (v : nat) : bool :=
  same_members (link_edges (vert bm v))
    (filter (λ e, edge_has bm e v = true) (indices (bm_edges bm))) &&
  same_members (v_link_faces (vert bm v))
    (filter (λ f, v ∈ f_verts (default (mkFace []) (bm_faces bm !! f)))
            (indices (bm_faces bm))) &&
  bool_decide (is_wire (vert bm v) =
    negb (bool_decide (link_edges (vert bm v) = [])) &&
    forallb (λ e, bool_decide (e_link_faces (edge bm e) = [])) (link_edges (vert bm v))) &&
  bool_decide (is_boundary (vert bm v) =
    existsb (λ e, bool_decide (length (e_link_faces (edge bm e)) = 1))
            (link_edges (vert bm v))).

Definition wf_mesh (bm : BMesh) : bool :=
  forallb (wf_edge bm) (indices (bm_edges bm)) &&
  forallb (wf_face bm) (bm_faces bm) &&
  forallb (wf_vert bm) (indices (bm_verts bm)).

End Mesh.

Import Mesh.

(** ** The pure loop detector *)

Module Loops.

(** [is_pole(vert)] *)
Definition is_pole (bm : BMesh) (v : nat) : bool :=
  negb (length (link_edges (vert bm v))
        + Nat.b2n (is_boundary (vert bm v))
        + Nat.b2n (is_wire (vert bm v)) =? 4).

Record PureEdgeLoop := mkLoop {
  vertices : list nat;
  edges : list nat;
  edge_set : gset nat
}.

(** [is_closed]: [vertices[0] == vertices[-1]] *)
Definition is_closed (l : PureEdgeLoop) : bool :=
  match head (vertices l), last (vertices l) with
  | Some a, Some b => bool_decide (a = b)
  | _, _ => false
  end.

(** [reverse()] keeps the edge set *)
Definition reverse (l : PureEdgeLoop) : PureEdgeLoop :=
  mkLoop (rev (vertices l)) (rev (edges l)) (edge_set l).

(** [__eq__]: comparison of the edge sets *)
Definition loop_eqb (l1 l2 : PureEdgeLoop) : bool :=
  bool_decide (edge_set l1 = edge_set l2).

(** [any(face in next_edge.link_faces for face in last_edge.link_faces)] *)
Definition shares_face (bm : BMesh) (next_edge last_edge : nat) : bool :=
  existsb (λ face, bool_decide (face ∈ e_link_faces (edge bm next_edge)))
          (e_link_faces (edge bm last_edge)).

(** The [for next_edge in head.link_edges] scan: the first incident edge of
    [head] that shares no face with [last_edge]; [None] is the [else] branch
    of the [for]. *)
Definition next_edge (bm : BMesh) (last_edge head : nat) : option nat :=
  list_find (λ ne, shares_face bm ne last_edge = false) (link_edges (vert bm head))
  ≫= λ p, Some p.2.

(** One [PureEdgeLoop(tuple(vertices), tuple(edges), frozenset(edges))] *)
Definition close_off (vs es : list nat) : PureEdgeLoop :=
  mkLoop vs es (list_to_set es).

(** The [while True] loop of [find_loop].  [fuel] bounds the number of
    iterations; [None] means the bound was reached with the loop still
    running. *)
Fixpoint walk (fuel : nat) (bm : BMesh) (edge0 : nat) (stop_set : gset nat)
    (last_edge head : nat) (vs es : list nat) : option PureEdgeLoop :=
  match fuel with
  | 0 => None
  | S fuel' =>
    if is_pole bm head || bool_decide (head ∈ stop_set) then Some (close_off vs es)
    else match next_edge bm last_edge head with
         | None => Some (close_off vs es)
         | Some ne =>
           if decide (ne = edge0) then Some (close_off vs es)
           else let head' := other_vert bm ne head in
                walk fuel' bm edge0 stop_set ne head' (vs ++ [head']) (es ++ [ne])
         end
  end.

(** [find_loop(edge, start, stop_set)] *)
Definition find_loop (fuel : nat) (bm : BMesh) (edge0 start : nat)
    (stop_set : gset nat) : option PureEdgeLoop :=
  let head := other_vert bm edge0 start in
  walk fuel bm edge0 stop_set edge0 head [start; head] [edge0].

(** The scan of [find_loop] is reversible on [bm]: at every vertex [h] that is
    not a pole, if arriving over the incident edge [e] selects [e'], then
    arriving over [e'] selects [e].  Manifold meshes are like this. *)
Definition reversibleb (bm : BMesh) : bool :=
  forallb (λ h, is_pole bm h ||
                forallb (λ e, match next_edge bm e h with
                              | Some e' => bool_decide (next_edge bm e' h = Some e)
                              | None => true
                              end) (link_edges (vert bm h)))
          (indices (bm_verts bm)).

(** A walk described from its current edge backwards: [e] was entered at its
    end [h]; before it, from the latest to the first, came the edges in
    [before], each paired with the vertex it was entered at. *)
Fixpoint back_chain (bm : BMesh) (e h : nat) (before : list (nat * nat)) : Prop :=
  match before with
  | [] => True
  | (e', v') :: rest =>
    is_pole bm h = false ∧ next_edge bm e' h = Some e ∧ h = other_vert bm e' v' ∧
    e' ∈ link_edges (vert bm v') ∧ back_chain bm e' v' rest
  end.

(** Python's [for x in xs: body], where the body may fail to return *)
Fixpoint for_each {A S : Type} (body : S → A → option S) (xs : list A) (s : S) : option S :=
  match xs with
  | [] => Some s
  | x :: xs' => body s x ≫= for_each body xs'
  end.

(** The body shared by both passes of [pure_edge_loops]:
    skip a visited edge, otherwise record [find_loop(edge, start)]. *)
Definition visit (fuel : nat) (bm : BMesh) (start : nat)
    (st : list PureEdgeLoop * gset nat) (e : nat) : option (list PureEdgeLoop * gset nat) :=
  if bool_decide (e ∈ st.2) then Some st
  else find_loop fuel bm e start ∅ ≫= λ loop, Some (st.1 ++ [loop], st.2 ∪ edge_set loop).

(** [pure_edge_loops(bm)].  [poles] is a Python set of vertices; the order in
    which the first pass meets its members is the host's, so it is passed in
    as [pole_order], an enumeration of the poles (see [enumerates_poles]). *)
Definition pure_edge_loops (fuel : nat) (bm : BMesh) (pole_order : list nat)
    : option (list PureEdgeLoop) :=
  for_each (λ st pole, for_each (visit fuel bm pole) (link_edges (vert bm pole)) st)
           pole_order ([], ∅)
  ≫= λ st, for_each (λ st e, visit fuel bm (verts (edge bm e)).1 st e)
                     (indices (bm_edges bm)) st
  ≫= λ st, Some st.1.

Definition enumerates_poles (bm : BMesh) (pole_order : list nat) : Prop :=
  pole_order ≡ₚ filter (λ v, is_pole bm v = true) (indices (bm_verts bm)).

(** In how many of the loops [ls] the edge [e] is a member of the edge set *)
Definition loops_holding (e : nat) (ls : list PureEdgeLoop) : nat :=
  length (filter (λ l, e ∈ edge_set l) ls).

(** [xs[-1]] of a sequence that [find_loop] built (never empty) *)
Definition last_of (xs : list nat) : nat := default 0 (last xs).
Definition first_of (xs : list nat) : nat := default 0 (head xs).

(** [pure_edge_loop(bm, edge)] *)
Definition pure_edge_loop (fuel : nat) (bm : BMesh) (e : nat) : option PureEdgeLoop :=
  let tail := (verts (edge bm e)).1 in
  find_loop fuel bm e tail ∅ ≫= λ partial,
  if decide (first_of (vertices partial) = last_of (vertices partial)) then Some partial
  else
    find_loop fuel bm (last_of (edges partial)) (last_of (vertices partial)) ∅ ≫= λ result,
    if decide (last_of (edges result) = e)
    then Some (mkLoop (rev (vertices result)) (rev (edges result))
                      (list_to_set (edges result)))
    else Some result.

End Loops.

Import Loops.

(** ** The loop completion search *)

Module Search.

Record LoopSearchNode := mkNode {
  path_length : nat;          (* the field [length] *)
  end_vertex : nat;
  loops : list PureEdgeLoop   (* [field(compare=False)] *)
}.

(** The ordering that [dataclass(order=True)] generates: tuples
    [(length, end_vertex)] compared lexicographically. *)
Definition node_ltb (a b : LoopSearchNode) : bool :=
  (path_length a <? path_length b) ||
  ((path_length a =? path_length b) && (end_vertex a <? end_vertex b)).

(** [heapq] is used through its contract only: a priority queue stored in a
    list that satisfies [heap_inv], as every one-element list does.
    [heappop] is applied to a non-empty list, given as its first element and
    the rest. *)
Record Heapq := mkHeapq {
  heappush : list LoopSearchNode → LoopSearchNode → list LoopSearchNode;
  heappop : LoopSearchNode → list LoopSearchNode → LoopSearchNode * list LoopSearchNode;
  heap_inv : list LoopSearchNode → Prop
}.

Record HeapqLaws (pq : Heapq) : Prop := mkHeapqLaws {
  heap_inv_one : ∀ x, heap_inv pq [x];
  heappush_inv : ∀ q x, heap_inv pq q → heap_inv pq (heappush pq q x);
  heappush_perm : ∀ q x, heap_inv pq q → heappush pq q x ≡ₚ x :: q;
  heappop_inv : ∀ x q, heap_inv pq (x :: q) → heap_inv pq (heappop pq x q).2;
  heappop_perm : ∀ x q, heap_inv pq (x :: q) →
    x :: q ≡ₚ (heappop pq x q).1 :: (heappop pq x q).2;
  heappop_min : ∀ x q, heap_inv pq (x :: q) →
    Forall (λ y, node_ltb y (heappop pq x q).1 = false) (heappop pq x q).2
}.

Definition MAX_EDGE_LOOPS : nat := 10.

(** [frozenset(edge for l in candidate.loops for edge in l.edge_set)] *)
Definition loops_union (ls : list PureEdgeLoop) : gset nat := ⋃ (edge_set <$> ls).

(** [sum(len(loop.edges) for loop in new_sequence)] *)
Definition total_edges (ls : list PureEdgeLoop) : nat := sum_list (length ∘ edges <$> ls).

(** The body of [for loop_edge in v.link_edges] *)
Definition expand (pq : Heapq) (fuel : nat) (bm : BMesh) (stop_set : gset nat)
    (candidate : LoopSearchNode) (v : nat)
    (queue : list LoopSearchNode) (loop_edge : nat) : option (list LoopSearchNode) :=
  if existsb (λ loop, bool_decide (loop_edge ∈ edge_set loop)) (loops candidate)
  then Some queue
  else find_loop fuel bm loop_edge v stop_set ≫= λ next_loop,
       let new_sequence := loops candidate ++ [next_loop] in
       Some (heappush pq queue
               (mkNode (total_edges new_sequence) (last_of (vertices next_loop)) new_sequence)).

(** The [while queue] loop of [get_edge_loops]; [fuel] bounds its iterations
    and those of every [find_loop] it calls. *)
Fixpoint search (pq : Heapq) (fuel : nat) (bm : BMesh) (first_vertex : nat)
    (queue : list LoopSearchNode) (visited_verts : gset nat)
    (all_loops : list (gset nat)) {struct fuel} : option (list (gset nat)) :=
  match fuel with
  | 0 => None
  | S fuel' =>
    match queue with
    | [] => Some all_loops
    | x :: q =>
      let '(candidate, queue') := heappop pq x q in
      if decide (MAX_EDGE_LOOPS < length all_loops) then Some all_loops
      else if decide (end_vertex candidate = first_vertex)
      then search pq fuel' bm first_vertex queue' visited_verts
                  (all_loops ++ [loops_union (loops candidate)])
      else if bool_decide (end_vertex candidate ∈ visited_verts)
      then search pq fuel' bm first_vertex queue' visited_verts all_loops
      else
        let v := end_vertex candidate in
        for_each (expand pq fuel' bm {[first_vertex]} candidate v)
                 (link_edges (vert bm v)) queue'
        ≫= λ queue'', search pq fuel' bm first_vertex queue''
                             ({[v]} ∪ visited_verts) all_loops
    end
  end.

(** [get_edge_loops(bm, edge)] *)
Definition get_edge_loops (pq : Heapq) (fuel : nat) (bm : BMesh) (e : nat)
    : option (list (gset nat)) :=
  pure_edge_loop fuel bm e ≫= λ pure_loop,
  let all_loops := [edge_set pure_loop] in
  if is_closed pure_loop then Some all_loops
  else
    search pq fuel bm (first_of (vertices pure_loop))
      [mkNode (length (edges pure_loop)) (last_of (vertices pure_loop)) [pure_loop]]
      ∅ all_loops.

(** *** What holds of every node the search ever queues *)

(** A loop as its constructor calls build it: the set of its edges *)
Definition loop_ok (l : PureEdgeLoop) : Prop := edge_set l = list_to_set (edges l).

(** A queued node, relative to the first loop's edge set [first_set] and its
    first vertex: the recorded length is the sum of the segment lengths, the
    chain contains the first loop, and a chain that ends at the first vertex
    contains more than the first loop. *)
Definition node_ok (first_set : gset nat) (first_vertex : nat) (nd : LoopSearchNode) : Prop :=
  path_length nd = total_edges (loops nd) ∧
  first_set ⊆ loops_union (loops nd) ∧
  (end_vertex nd = first_vertex → first_set ≠ loops_union (loops nd)) ∧
  Forall loop_ok (loops nd).

(** The vertex where a chain of loops ends: the last vertex of its last loop *)
Definition chain_end_vertex (c : list PureEdgeLoop) : nat :=
  match last c with Some l => last_of (vertices l) | None => 0 end.

(** The chains of loops that the search builds from the first loop [pure]:
    [pure] alone, or a chain that has not come back to the first vertex,
    followed by the loop that [find_loop] returns from the vertex where the
    chain ends, over an edge listed there that is in no loop of the chain,
    with the first vertex as its stop set. *)
Inductive search_chain (fuel : nat) (bm : BMesh) (pure : PureEdgeLoop)
    : list PureEdgeLoop → Prop :=
| chain_first : search_chain fuel bm pure [pure]
| chain_next c loop_edge next_loop :
    search_chain fuel bm pure c →
    chain_end_vertex c ≠ first_of (vertices pure) →
    loop_edge ∈ link_edges (vert bm (chain_end_vertex c)) →
    loop_edge ∉ loops_union c →
    find_loop fuel bm loop_edge (chain_end_vertex c) {[first_of (vertices pure)]}
      = Some next_loop →
    search_chain fuel bm pure (c ++ [next_loop]).

(** A queued node holds such a chain and the vertex where it ends. *)
Definition chain_node (fuel : nat) (bm : BMesh) (pure : PureEdgeLoop)
    (nd : LoopSearchNode) : Prop :=
  search_chain fuel bm pure (loops nd) ∧ end_vertex nd = chain_end_vertex (loops nd).

(** A priority queue that meets the contract: insertion at the back, removal
    of the earliest least element. *)
Fixpoint pop_min (x : LoopSearchNode) (q : list LoopSearchNode)
    : LoopSearchNode * list LoopSearchNode :=
  match q with
  | [] => (x, [])
  | y :: q' =>
    let '(m, r) := pop_min y q' in
    if node_ltb m x then (m, x :: r) else (x, y :: q')
  end.

Definition list_pq : Heapq := mkHeapq (λ q x, q ++ [x]) pop_min (λ _, True).

End Search.

Import Search.

(** ** The shortest path finder *)

Module Path.

(** [vert_to_verts[a].append(b)] on a [defaultdict(list)] *)
Definition append_to (m : gmap nat (list nat)) (a b : nat) : gmap nat (list nat) :=
  <[a := default [] (m !! a) ++ [b]]> m.

(** The adjacency table built from the edges that are not excluded *)
Definition vert_to_verts (bm : BMesh) (exclude_indices : gset nat) : gmap nat (list nat) :=
  foldl (λ m e,
           if bool_decide (e ∈ exclude_indices) then m
           else let '(a, b) := verts (edge bm e) in
                append_to (append_to m a (other_vert bm e a)) b (other_vert bm e b))
        ∅ (indices (bm_edges bm)).

Definition neighbours (vtv : gmap nat (list nat)) (v : nat) : list nat :=
  default [] (vtv !! v).

(** [any(face in bm.verts[vert].link_faces for face in bm.verts[prev].link_faces)] *)
Definition share_face (bm : BMesh) (v prev : nat) : bool :=
  existsb (λ face, bool_decide (face ∈ v_link_faces (vert bm v)))
          (v_link_faces (vert bm prev)).

(** The condition of the set comprehension [non_sharing] *)
Definition prefers (bm : BMesh) (path : list nat) (v : nat) : bool :=
  match last path with
  | None => false                       (* [path] is empty *)
  | Some prev => negb (share_face bm v prev)
  end.

(** The [while queue] loop.  [non_sharing] is a Python set; [set_iter] gives
    the order in which a set built from a list is iterated.  The outer
    [None] means that [fuel] iterations did not finish the loop. *)
Fixpoint bfs (set_iter : list nat → list nat) (fuel : nat) (bm : BMesh)
    (vtv : gmap nat (list nat)) (end_index : nat)
    (queue : list (nat * list nat)) (searched_verts : gset nat)
    : option (option (list nat)) :=
  match fuel with
  | 0 => None
  | S fuel' =>
    match queue with
    | [] => Some None
    | (current_vert, path) :: queue' =>
      if bool_decide (current_vert ∈ searched_verts)
      then bfs set_iter fuel' bm vtv end_index queue' searched_verts
      else if decide (current_vert = end_index) then Some (Some (path ++ [current_vert]))
      else
        let non_sharing :=
          set_iter (filter (λ v, prefers bm path v = true) (neighbours vtv current_vert)) in
        let rest :=
          filter (λ v, v ∉ non_sharing) (neighbours vtv current_vert) in
        bfs set_iter fuel' bm vtv end_index
            (queue' ++ ((λ v, (v, path ++ [current_vert])) <$> non_sharing)
                    ++ ((λ v, (v, path ++ [current_vert])) <$> rest))
            ({[current_vert]} ∪ searched_verts)
    end
  end.

(** [find_shortest_path(bm, start, end, exclude_indices)] *)
Definition find_shortest_path (set_iter : list nat → list nat) (fuel : nat) (bm : BMesh)
    (start end_index : nat) (exclude_indices : gset nat) : option (option (list nat)) :=
  bfs set_iter fuel bm (vert_to_verts bm exclude_indices) end_index [(start, [])] ∅.

(** What is required of the iteration order of a set: each member once *)
Definition set_order (set_iter : list nat → list nat) : Prop :=
  ∀ l, set_iter l ≡ₚ remove_dups l.

(** Enough iterations for any search on [bm] *)
Definition bfs_budget (bm : BMesh) : nat := 2 * length (bm_edges bm) + 2.

(** *** The mesh graph the search is measured against *)

(** [a] and [b] are joined by an edge that is not excluded *)
Definition joined (bm : BMesh) (exclude_indices : gset nat) (a b : nat) : Prop :=
  ∃ e, e < length (bm_edges bm) ∧ (e ∉ exclude_indices) ∧
       (verts (edge bm e) = (a, b) ∨ verts (edge bm e) = (b, a)).

(** A vertex sequence that follows non-excluded edges *)
Fixpoint follows_edges (bm : BMesh) (exclude_indices : gset nat) (p : list nat) : Prop :=
  match p with
  | a :: ((b :: _) as p') => joined bm exclude_indices a b ∧ follows_edges bm exclude_indices p'
  | _ => True
  end.

Definition path_between (bm : BMesh) (exclude_indices : gset nat)
    (a b : nat) (p : list nat) : Prop :=
  head p = Some a ∧ last p = Some b ∧ follows_edges bm exclude_indices p.

(** [reach bm excl start k w]: [w] is [k] non-excluded edges away from
    [start] along some route *)
Inductive reach (bm : BMesh) (exclude_indices : gset nat) (start : nat)
    : nat → nat → Prop :=
| reach_O : reach bm exclude_indices start 0 start
| reach_S k u w :
    reach bm exclude_indices start k u → joined bm exclude_indices u w →
    reach bm exclude_indices start (S k) w.

(** *** The state of the search between two iterations

    [d] is the number of edges on the paths of the entries at the front of
    the queue. *)
Record bfs_inv (bm : BMesh) (exclude_indices : gset nat) (start end_index : nat)
    (d : nat) (queue : list (nat * list nat)) (searched_verts : gset nat) : Prop :=
mk_bfs_inv {
  (* every entry's path leads from [start] to the entry's vertex *)
  inv_sound : ∀ v path, (v, path) ∈ queue →
    head (path ++ [v]) = Some start ∧ follows_edges bm exclude_indices (path ++ [v]);
  (* entries at distance [d] come first, then entries at distance [d + 1] *)
  inv_levels : ∃ q1 q2, queue = q1 ++ q2 ∧
    Forall (λ x, length x.2 = d) q1 ∧ Forall (λ x, length x.2 = S d) q2;
  inv_start : start ∈ searched_verts ∨ start ∈ queue.*1;
  (* everything nearer than [d] has been searched *)
  inv_below : ∀ k w, reach bm exclude_indices start k w → k < d → w ∈ searched_verts;
  (* everything at distance [d] has been searched or waits at the front *)
  inv_level : ∀ w, reach bm exclude_indices start d w →
    w ∈ searched_verts ∨ ∃ path, (w, path) ∈ queue ∧ length path = d;
  (* the neighbours of a searched vertex have been searched or wait *)
  inv_closed : ∀ u w, u ∈ searched_verts → joined bm exclude_indices u w →
    w ∈ searched_verts ∨ w ∈ queue.*1;
  inv_end : end_index ∉ searched_verts
}.

(** The work left: the queue entries, and the table entries of the vertices
    that have not been searched *)
Definition pending (vtv : gmap nat (list nat)) (searched_verts : gset nat) : nat :=
  sum_list_with (λ kl, if decide (kl.1 ∈ searched_verts) then 0 else length kl.2)
                (map_to_list vtv).

Definition work_left (vtv : gmap nat (list nat)) (queue : list (nat * list nat))
    (searched_verts : gset nat) : nat :=
  length queue + pending vtv searched_verts.

End Path.

(** ** The selection state snapshot *)

Module Selection.

Inductive ElemKind := VERT | EDGE | FACE.

(** The value of [type(bm.select_history.active)] *)
Inductive PyType := BMVertT | BMEdgeT | BMFaceT | NoneTypeT | OtherT.

Global Instance ElemKind_eq_dec : EqDecision ElemKind.
Proof. solve_decision. Defined.

Definition type_of (k : ElemKind) : PyType :=
  match k with VERT => BMVertT | EDGE => BMEdgeT | FACE => BMFaceT end.

(** What capture and restore read and write: the tool settings' mode flags,
    one select flag per vertex, edge and face (by index), and the selection
    history, whose last entry is the active element.  The host finds the
    element at a position of [bm.verts], [bm.edges] or [bm.faces] through an
    index table per kind; [elem_table_dirty] lists the kinds whose table is
    outdated (it is brought up to date by [ensure_lookup_table()], which
    loops.py does not call). *)
Record EditState := mkEdit {
  mesh_select_mode : bool * bool * bool;
  vert_select : list bool;
  edge_select : list bool;
  face_select : list bool;
  select_history : list (ElemKind * nat);
  elem_table_dirty : list ElemKind
}.

Definition flags (k : ElemKind) (st : EditState) : list bool :=
  match k with VERT => vert_select st | EDGE => edge_select st | FACE => face_select st end.

Definition mode0 (m : bool * bool * bool) : bool := m.1.1.
Definition mode1 (m : bool * bool * bool) : bool := m.1.2.
Definition mode2 (m : bool * bool * bool) : bool := m.2.

Record SavedSelectionState := mkSaved {
  mode : bool * bool * bool;
  selected_verts : gset nat;
  selected_edges : gset nat;
  selected_faces : gset nat;
  active_type : PyType;
  active : Z
}.

Inductive exception := IndexError.

Inductive result (A : Type) :=
| Ok (a : A)
| Raise (e : exception).
Arguments Ok {A} a.
Arguments Raise {A} e.

(** [frozenset(x.index for x in seq if x.select)] *)
Definition selected (fl : list bool) : gset nat :=
  list_to_set (filter (λ i, fl !! i = Some true) (indices fl)).

(** [bm.select_history.active] *)
Definition history_active (st : EditState) : option (ElemKind * nat) :=
  last (select_history st).

(** [SavedSelectionState.from_context(context)] *)
Definition from_context (st : EditState) : SavedSelectionState :=
  let active_type :=
    match history_active st with Some (k, _) => type_of k | None => NoneTypeT end in
  let active :=
    match history_active st with Some (_, i) => Z.of_nat i | None => (-1)%Z end in
  mkSaved (mesh_select_mode st)
          (selected (vert_select st)) (selected (edge_select st)) (selected (face_select st))
          active_type active.

(** The host's part: the setter behind [elem.select = value], and
    [bm.select_flush_mode()]. *)
Record SelectOps := mkOps {
  elem_select_set : ElemKind → nat → bool → EditState → EditState;
  select_flush_mode : EditState → EditState
}.

(** The kind whose flags [restore] writes: its [if]/[elif]/[else] on the mode *)
Definition mode_kind (m : bool * bool * bool) : ElemKind :=
  if mode0 m then VERT else if mode1 m then EDGE else FACE.

(** What the snapshot relies on from the host.  A setter changes no flag of
    its kind other than the one it is asked to write, and writing the value a
    flag already has leaves it alone (a write may be refused, as for hidden
    elements; flags of the other kinds may change).  The flush derives the
    other kinds from the kind of the mode.  Neither adds elements, changes the
    mode, or reorders the history (entries may drop out of it). *)
Record SelectLaws (ops : SelectOps) : Prop := mkSelectLaws {
  set_same : ∀ k i b st,
    flags k st !! i = Some b → flags k (elem_select_set ops k i b st) !! i = Some b;
  set_other : ∀ k i j b st,
    i ≠ j → flags k (elem_select_set ops k i b st) !! j = flags k st !! j;
  set_length : ∀ k k' i b st,
    length (flags k' (elem_select_set ops k i b st)) = length (flags k' st);
  set_mode : ∀ k i b st,
    mesh_select_mode (elem_select_set ops k i b st) = mesh_select_mode st;
  set_history : ∀ k i b st,
    select_history (elem_select_set ops k i b st) `sublist_of` select_history st;
  flush_flags : ∀ st,
    flags (mode_kind (mesh_select_mode st)) (select_flush_mode ops st)
    = flags (mode_kind (mesh_select_mode st)) st;
  flush_length : ∀ k st,
    length (flags k (select_flush_mode ops st)) = length (flags k st);
  flush_mode : ∀ st,
    mesh_select_mode (select_flush_mode ops st) = mesh_select_mode st;
  flush_history : ∀ st,
    select_history (select_flush_mode ops st) `sublist_of` select_history st
}.

(** What the host does not do: setting a select flag and flushing the
    selection leave the index tables as they are, outdated or not. *)
Record TableLaws (ops : SelectOps) : Prop := mkTableLaws {
  set_tables : ∀ k i b st,
    elem_table_dirty (elem_select_set ops k i b st) = elem_table_dirty st;
  flush_tables : ∀ st,
    elem_table_dirty (select_flush_mode ops st) = elem_table_dirty st
}.

Definition set_mode_flags (m : bool * bool * bool) (st : EditState) : EditState :=
  mkEdit m (vert_select st) (edge_select st) (face_select st) (select_history st)
         (elem_table_dirty st).

(** [bm.select_history.add(elem)]: no action if it is already there *)
Definition history_add (x : ElemKind * nat) (st : EditState) : EditState :=
  mkEdit (mesh_select_mode st) (vert_select st) (edge_select st) (face_select st)
         (if bool_decide (x ∈ select_history st) then select_history st
          else select_history st ++ [x])
         (elem_table_dirty st).

(** [for x in seq: x.select = x.index in chosen] *)
Definition write_flags (ops : SelectOps) (k : ElemKind) (chosen : gset nat)
    (st : EditState) : EditState :=
  foldl (λ st i, elem_select_set ops k i (bool_decide (i ∈ chosen)) st)
        st (indices (flags k st)).

(** [seq[i]] for a Python integer [i] on a sequence of [len] elements:
    the position read, or [None] where Python raises IndexError *)
Definition py_index (len : nat) (i : Z) : option nat :=
  if decide (0 ≤ i < Z.of_nat len)%Z then Some (Z.to_nat i)
  else if decide (- Z.of_nat len ≤ i < 0)%Z then Some (Z.to_nat (Z.of_nat len + i))
  else None.

(** [type_to_items.get(self.active_type, [])]: the kind and length of the
    sequence that is indexed next *)
Definition type_to_items (st : EditState) (t : PyType) : option ElemKind * nat :=
  match t with
  | BMVertT => (Some VERT, length (vert_select st))
  | BMEdgeT => (Some EDGE, length (edge_select st))
  | BMFaceT => (Some FACE, length (face_select st))
  | _ => (None, 0)
  end.

(** [seq[i]] on the element sequence of kind [k], of [len] elements: the
    host raises IndexError when the kind's index table is outdated, and for a
    position out of range like any sequence *)
Definition elem_index (st : EditState) (k : ElemKind) (len : nat) (i : Z) : option nat :=
  if bool_decide (k ∈ elem_table_dirty st) then None else py_index len i.

(** [SavedSelectionState.restore(context)] *)
Definition restore (ops : SelectOps) (s : SavedSelectionState) (st : EditState)
    : result EditState :=
  let st := set_mode_flags (mode s) st in
  let st :=
    if mode0 (mode s) then write_flags ops VERT (selected_verts s) st
    else if mode1 (mode s) then write_flags ops EDGE (selected_edges s) st
    else write_flags ops FACE (selected_faces s) st in
  let st := select_flush_mode ops st in
  if decide (active s ≠ (-1)%Z) then
    match type_to_items st (active_type s) with
    | (Some k, len) =>
      match elem_index st k len (active s) with
      | Some i => Ok (history_add (k, i) st)
      | None => Raise IndexError
      end
    | (None, _) => Raise IndexError     (* indexing the empty default list *)
    end
  else Ok st.

(** The state on which [restore] looks up the active element: the mode is
    set, the flags of the mode's kind are written, the selection is flushed. *)
Definition prepared (ops : SelectOps) (s : SavedSelectionState) (st : EditState)
    : EditState :=
  select_flush_mode ops
    (write_flags ops (mode_kind (mode s))
       (match mode_kind (mode s) with
        | VERT => selected_verts s | EDGE => selected_edges s | FACE => selected_faces s
        end)
       (set_mode_flags (mode s) st)).

(** A host that meets [SelectLaws]: flags are written as asked, the flush
    drops de-selected elements from the history. *)
Definition plain_set (k : ElemKind) (i : nat) (b : bool) (st : EditState) : EditState :=
  match k with
  | VERT => mkEdit (mesh_select_mode st) (<[i := b]> (vert_select st)) (edge_select st)
                   (face_select st) (select_history st) (elem_table_dirty st)
  | EDGE => mkEdit (mesh_select_mode st) (vert_select st) (<[i := b]> (edge_select st))
                   (face_select st) (select_history st) (elem_table_dirty st)
  | FACE => mkEdit (mesh_select_mode st) (vert_select st) (edge_select st)
                   (<[i := b]> (face_select st)) (select_history st) (elem_table_dirty st)
  end.

Definition plain_flush (st : EditState) : EditState :=
  mkEdit (mesh_select_mode st) (vert_select st) (edge_select st) (face_select st)
         (filter (λ x, flags x.1 st !! x.2 = Some true) (select_history st))
         (elem_table_dirty st).

Definition plain_ops : SelectOps := mkOps plain_set plain_flush.

End Selection.

(** ** Concrete meshes *)

Module Inputs.

(** A flat 3 by 3 grid of vertices (four quads).  Vertex [3*r + c] is in row
    [r], column [c]; edges 0-5 are the rows, 6-11 the columns; edge 8 runs
    from the centre up, edge 9 from the bottom up to the centre. *)
Definition grid3x3 : BMesh := mkMesh
  [
    mkVert [0; 6] true false [0];
    mkVert [0; 1; 8] true false [0; 1];
    mkVert [1; 10] true false [1];
    mkVert [2; 6; 7] true false [0; 2];
    mkVert [2; 3; 8; 9] false false [0; 1; 2; 3];
    mkVert [3; 10; 11] true false [1; 3];
    mkVert [4; 7] true false [2];
    mkVert [4; 5; 9] true false [2; 3];
    mkVert [5; 11] true false [3] ]
  [
    mkEdge (0, 1) [0];
    mkEdge (1, 2) [1];
    mkEdge (3, 4) [0; 2];
    mkEdge (4, 5) [1; 3];
    mkEdge (6, 7) [2];
    mkEdge (7, 8) [3];
    mkEdge (0, 3) [0];
    mkEdge (3, 6) [2];
    mkEdge (4, 1) [0; 1];
    mkEdge (7, 4) [2; 3];
    mkEdge (2, 5) [1];
    mkEdge (5, 8) [3] ]
  [mkFace [0; 1; 4; 3]; mkFace [1; 2; 5; 4]; mkFace [3; 4; 7; 6]; mkFace [4; 5; 8; 7]].

(** Three wire edges meeting at vertex 1. *)
Definition wire_star : BMesh := mkMesh
  [
    mkVert [0] false true [];
    mkVert [0; 1; 2] false true [];
    mkVert [1] false true [];
    mkVert [2] false true [] ]
  [
    mkEdge (0, 1) [];
    mkEdge (1, 2) [];
    mkEdge (1, 3) [] ]
  [].

(** Five wire edges in the shape of an H: the bar is edge 0, between vertices
    1 and 2. *)
Definition wire_H : BMesh := mkMesh
  [
    mkVert [1] false true [];
    mkVert [0; 1; 2] false true [];
    mkVert [0; 3; 4] false true [];
    mkVert [2] false true [];
    mkVert [3] false true [];
    mkVert [4] false true [] ]
  [
    mkEdge (1, 2) [];
    mkEdge (0, 1) [];
    mkEdge (1, 3) [];
    mkEdge (2, 4) [];
    mkEdge (2, 5) [] ]
  [].

(** One quad (1,2,3,4), a wire edge 5 across it from 2 to 4, and a wire edge 0
    from corner 1 out to vertex 0. *)
Definition quad_diag : BMesh := mkMesh
  [
    mkVert [0] false true [];
    mkVert [0; 1; 2] true false [0];
    mkVert [1; 3; 5] true false [0];
    mkVert [3; 4] true false [0];
    mkVert [2; 4; 5] true false [0] ]
  [
    mkEdge (0, 1) [];
    mkEdge (1, 2) [0];
    mkEdge (4, 1) [0];
    mkEdge (2, 3) [0];
    mkEdge (3, 4) [0];
    mkEdge (2, 4) [] ]
  [mkFace [1; 2; 3; 4]].

(** One quad (0,1,2,3) and a wire edge 4 from corner 1 out to vertex 4; at
    corner 1 the host lists the edges in the order 1, 0, 4. *)
Definition quad_tail : BMesh := mkMesh
  [
    mkVert [0; 3] true false [0];
    mkVert [1; 0; 4] true false [0];
    mkVert [1; 2] true false [0];
    mkVert [2; 3] true false [0];
    mkVert [4] false true [] ]
  [
    mkEdge (0, 1) [0];
    mkEdge (1, 2) [0];
    mkEdge (2, 3) [0];
    mkEdge (3, 0) [0];
    mkEdge (1, 4) [] ]
  [mkFace [0; 1; 2; 3]].

(** Eight wire edges on seven vertices. *)
Definition wire_net : BMesh := mkMesh
  [
    mkVert [1; 3; 6] false true [];
    mkVert [0; 7] false true [];
    mkVert [2; 3] false true [];
    mkVert [2; 4; 6] false true [];
    mkVert [4; 7] false true [];
    mkVert [0; 1; 5] false true [];
    mkVert [5] false true [] ]
  [
    mkEdge (1, 5) [];
    mkEdge (5, 0) [];
    mkEdge (3, 2) [];
    mkEdge (0, 2) [];
    mkEdge (4, 3) [];
    mkEdge (5, 6) [];
    mkEdge (0, 3) [];
    mkEdge (1, 4) [] ]
  [].

Import Selection.

(** Edit states on a mesh of three vertices, two edges and one face: one per
    single selection mode, each with an active element of the mode's kind, and
    one without an active element.  Their index tables are up to date. *)
Definition vertex_mode_state : EditState :=
  mkEdit (true, false, false) [true; false; true] [false; false] [false]
         [(VERT, 0); (VERT, 2)] [].

Definition edge_mode_state : EditState :=
  mkEdit (false, true, false) [true; true; false] [true; false] [false] [(EDGE, 0)] [].

Definition face_mode_state : EditState :=
  mkEdit (false, false, true) [true; true; true] [true; true] [true] [(FACE, 0)] [].

Definition no_active_state : EditState :=
  mkEdit (true, false, false) [false; true; false] [false; false] [false] [] [].

(** The vertex-mode state with the index tables outdated, as they are on a
    mesh whose tables nobody has brought up to date; and the same with no
    active element. *)
Definition outdated_table_state : EditState :=
  mkEdit (true, false, false) [true; false; true] [false; false] [false]
         [(VERT, 0); (VERT, 2)] [VERT; EDGE; FACE].

Definition outdated_no_active_state : EditState :=
  mkEdit (true, false, false) [false; true; false] [false; false] [false] []
         [VERT; EDGE; FACE].

(** A snapshot whose active vertex 5 does not exist among three vertices *)
Definition stale_snapshot : SavedSelectionState :=
  mkSaved (true, false, false) {[1]} ∅ ∅ BMVertT 5.

(** An edit state on [grid3x3] in edge mode: the chain of edges 0, 1, 10
    along the top and the right side, and edge 4 at the bottom left, are
    selected, with their vertices. *)
Definition two_chains_state : EditState :=
  mkEdit (false, true, false)
         [true; true; true; false; false; true; true; true; false]
         [true; true; false; false; true; false; false; false; false; false; true; false]
         [false; false; false; false] [] [].

(** The same with nothing selected *)
Definition nothing_selected_state : EditState :=
  mkEdit (false, true, false)
         [false; false; false; false; false; false; false; false; false]
         [false; false; false; false; false; false; false; false; false; false; false; false]
         [false; false; false; false] [] [].

End Inputs.

Import Inputs.

(** ** The selected edges and their islands *)

Module Islands.

Import Selection.

Record EdgeSelectionInfo := mkInfo {
  edge_islands : list (list nat);
  endpoints : list nat;
  branching : list nat;
  all_selected_verts : list nat
}.

(** A [defaultdict(list)], with its keys in insertion order *)
Definition dict : Type := list (nat * list nat).

(** [d[k].append(x)]: a missing key is added behind the others *)
Fixpoint dict_append (d : dict) (k x : nat) : dict :=
  match d with
  | [] => [(k, [x])]
  | (k', xs) :: d' =>
    if decide (k' = k) then (k', xs ++ [x]) :: d' else (k', xs) :: dict_append d' k x
  end.

(** [d[k]], read; [from_bmesh] reads only keys that are there *)
Fixpoint dict_get (d : dict) (k : nat) : list nat :=
  match d with
  | [] => []
  | (k', xs) :: d' => if decide (k' = k) then xs else dict_get d' k
  end.

(** [tuple(vert.index for vert in bm.verts if vert.select)] *)
Definition selected_vert_list (bm : BMesh) (st : EditState) : list nat :=
  filter (λ v, vert_select st !! v = Some true) (indices (bm_verts bm)).

(** [[edge for edge in bm.edges if edge.select]] *)
Definition selected_edge_list (bm : BMesh) (st : EditState) : list nat :=
  filter (λ e, edge_select st !! e = Some true) (indices (bm_edges bm)).

(** The loop that fills [selected_verts_to_edges] *)
Definition verts_to_edges (bm : BMesh) (sel : list nat) : dict :=
  foldl (λ d e, let '(a, b) := verts (edge bm e) in
                dict_append (dict_append d a e) b e) [] sel.

(** The [while edges_to_search] loop.  [edges_to_search] is a Python set and
    [set_pop] stands for its [pop()]: which member it removes is the host's
    choice; it is given the edges searched so far, which differ at each call,
    and the set.  [fuel] bounds the iterations. *)
Fixpoint flood (set_pop : gset nat → gset nat → nat) (fuel : nat) (bm : BMesh) (d : dict)
    (edges_to_search : gset nat) (island : list nat) (searched_edges : gset nat)
    : option (list nat * gset nat) :=
  match fuel with
  | 0 => None
  | S fuel' =>
    if decide (edges_to_search = ∅) then Some (island, searched_edges)
    else
      let current_edge := set_pop searched_edges edges_to_search in
      let edges_to_search := edges_to_search ∖ {[current_edge]} in
      let island := island ++ [current_edge] in
      let searched_edges := {[current_edge]} ∪ searched_edges in
      let '(a, b) := verts (edge bm current_edge) in
      let edges_to_search :=
        edges_to_search ∪ list_to_set (filter (λ e, e ∉ searched_edges) (dict_get d a)) in
      let edges_to_search :=
        edges_to_search ∪ list_to_set (filter (λ e, e ∉ searched_edges) (dict_get d b)) in
      flood set_pop fuel' bm d edges_to_search island searched_edges
  end.

(** The body of [for edge in selected_edges]; the state is [edge_islands]
    and [searched_edges]. *)
Definition island_from (set_pop : gset nat → gset nat → nat) (fuel : nat) (bm : BMesh)
    (d : dict) (st : list (list nat) * gset nat) (e : nat)
    : option (list (list nat) * gset nat) :=
  if bool_decide (e ∈ st.2) then Some st
  else flood set_pop fuel bm d {[e]} [] st.2 ≫= λ r, Some (st.1 ++ [r.1], r.2).

(** [EdgeSelectionInfo.from_bmesh(bm)] *)
Definition from_bmesh (set_pop : gset nat → gset nat → nat) (fuel : nat) (bm : BMesh)
    (st : EditState) : option EdgeSelectionInfo :=
  let all_verts := selected_vert_list bm st in
  let selected_edges := selected_edge_list bm st in
  match selected_edges with
  | [] => Some (mkInfo [] [] [] all_verts)
  | _ =>
    let selected_verts_to_edges := verts_to_edges bm selected_edges in
    let endpoints := (filter (λ p, length p.2 = 1) selected_verts_to_edges).*1 in
    let branches := (filter (λ p, 2 < length p.2) selected_verts_to_edges).*1 in
    for_each (island_from set_pop fuel bm selected_verts_to_edges) selected_edges ([], ∅)
    ≫= λ r, Some (mkInfo r.1 endpoints branches all_verts)
  end.

(** What is required of [set.pop()]: it removes a member *)
Definition pop_law (set_pop : gset nat → gset nat → nat) : Prop :=
  ∀ searched s, s ≠ ∅ → set_pop searched s ∈ s.

(** A [pop()] that meets it: the least member *)
Definition pop_least (searched s : gset nat) : nat := default 0 (head (elements s)).

(** Two selected edges with a common end *)
Definition adjacent (bm : BMesh) (sel : list nat) (e1 e2 : nat) : Prop :=
  e1 ∈ sel ∧ e2 ∈ sel ∧ ∃ v, edge_has bm e1 v = true ∧ edge_has bm e2 v = true.

(** Selected edges joined by a chain of selected edges *)
Definition connected (bm : BMesh) (sel : list nat) : relation nat := rtc (adjacent bm sel).

(** The number of selected edges at a vertex *)
Definition selected_degree (bm : BMesh) (sel : list nat) (v : nat) : nat :=
  length (filter (λ e, edge_has bm e v = true) sel).

(** The state of the [while] loop between two iterations of a search that
    started from [seed] when [searched0] had been searched *)
Record flood_inv (bm : BMesh) (sel : list nat) (seed : nat) (searched0 : gset nat)
    (edges_to_search : gset nat) (island : list nat) (searched_edges : gset nat) : Prop :=
mk_flood_inv {
  fi_searched : searched_edges = searched0 ∪ list_to_set island;
  fi_nodup : NoDup island;
  fi_fresh : ∀ e, e ∈ island → e ∉ searched0;
  fi_todo : ∀ e, e ∈ edges_to_search →
    e ∈ sel ∧ (e ∉ searched_edges) ∧ connected bm sel seed e;
  fi_island : ∀ e, e ∈ island → e ∈ sel ∧ connected bm sel seed e;
  fi_closed : ∀ e e', e ∈ island → adjacent bm sel e e' →
    e' ∈ searched_edges ∨ e' ∈ edges_to_search;
  fi_seed : seed ∈ island ∨ seed ∈ edges_to_search
}.

(** The state of [for edge in selected_edges] between two steps *)
Record islands_inv (bm : BMesh) (sel : list nat)
    (st : list (list nat) * gset nat) : Prop :=
mk_islands_inv {
  ii_searched : st.2 = list_to_set (concat st.1);
  ii_nodup : NoDup (concat st.1);
  ii_sel : ∀ e, e ∈ st.2 → e ∈ sel;
  ii_closed : ∀ e e', e ∈ st.2 → adjacent bm sel e e' → e' ∈ st.2;
  ii_islands : Forall (λ isl, isl ≠ [] ∧
                  (∀ e1 e2, e1 ∈ isl → e2 ∈ isl → connected bm sel e1 e2) ∧
                  (∀ e e', e ∈ isl → adjacent bm sel e e' → e' ∈ isl)) st.1
}.

(** The first tests of [CloseLoop.execute], on the result of [from_bmesh]:
    the warning it reports when it cancels there, [None] when it goes on. *)
Definition execute_guard (info : EdgeSelectionInfo) : option string :=
  if bool_decide (endpoints info = []) || negb (bool_decide (branching info = []))
  then Some "Cannot close loop: not an open loop"
  else if bool_decide (edge_islands info = []) then Some "No edges selected"
  else None.

End Islands.

(** ** util.py: enumerations and operator labels

    Strings are sequences of ASCII characters, as all identifiers passed to
    these functions in the add-on are. *)

Module Util.

Import Stdlib.Strings.Ascii.

Definition is_upper (a : ascii) : bool :=
  (65 <=? nat_of_ascii a) && (nat_of_ascii a <=? 90).
Definition is_lower (a : ascii) : bool :=
  (97 <=? nat_of_ascii a) && (nat_of_ascii a <=? 122).
Definition to_upper (a : ascii) : ascii :=
  if is_lower a then ascii_of_nat (nat_of_ascii a - 32) else a.
Definition to_lower (a : ascii) : ascii :=
  if is_upper a then ascii_of_nat (nat_of_ascii a + 32) else a.

Definition underscore : ascii := "_".
Definition space : ascii := " ".
Definition dot : ascii := ".".

(** [s.split(c)]: the pieces between the occurrences of [c], empty ones too *)
Fixpoint split_on (c : ascii) (s : string) : list string :=
  match s with
  | EmptyString => [EmptyString]
  | String a r =>
    if Ascii.eqb a c then EmptyString :: split_on c r
    else match split_on c r with
         | w :: ws => String a w :: ws
         | [] => [String a EmptyString]
         end
  end.

(** [s.lower()] *)
Fixpoint lower (s : string) : string :=
  match s with
  | EmptyString => EmptyString
  | String a r => String (to_lower a) (lower r)
  end.

(** [s.capitalize()] *)
Definition capitalize (s : string) : string :=
  match s with
  | EmptyString => EmptyString
  | String a r => String (to_upper a) (lower r)
  end.

(** [sep.join(ws)] *)
Fixpoint join (sep : string) (ws : list string) : string :=
  match ws with
  | [] => EmptyString
  | w :: ws' => match ws' with [] => w | _ => w +:+ sep +:+ join sep ws' end
  end.

(** [" ".join(s.capitalize() for s in v.split("_"))] *)
Definition title (v : string) : string :=
  join (String space EmptyString) (capitalize <$> split_on underscore v).

(** The inner function [index] of [make_enum] *)
Definition index (is_flag : bool) (i : nat) : nat := if is_flag then 2 ^ i else i.

(** [make_enum] called with the positional [values], [is_flag] and the
    keyword [pairs]; keyword arguments come in the order they were written *)
Definition make_enum (values : list string) (is_flag : bool) (pairs : list (string * string))
    : list (string * string * string * nat) :=
  imap (λ i v, (v, title v, EmptyString, index is_flag i)) values ++
  imap (λ i kv, (kv.1, kv.2, EmptyString, index is_flag (i + length values))) pairs.

(** [s.rindex(c)]; [None] where Python raises ValueError *)
Fixpoint rindex (c : ascii) (s : string) : option nat :=
  match s with
  | EmptyString => None
  | String a r =>
    match rindex c r with
    | Some i => Some (S i)
    | None => if Ascii.eqb a c then Some 0 else None
    end
  end.

(** [s[n:]] *)
Fixpoint slice_from (n : nat) (s : string) : string :=
  match n, s with
  | 0, _ => s
  | S n', String _ r => slice_from n' r
  | S _, EmptyString => EmptyString
  end.

(** The label that [BlenderOperator(id, options, label, description)] gives
    the class: [label] if it is given and not empty, otherwise built from
    the part of [id] after its last dot; [None] where [rindex] raises
    ValueError. *)
Definition operator_label (id : string) (label : option string) : option string :=
  match label with
  | Some (String a r) => Some (String a r)
  | _ => rindex dot id ≫= λ i, Some (title (slice_from (i + 1) id))
  end.

(** The one-pass reading of a display name: an underscore becomes a space,
    a letter at the start or after an underscore is upper case, every other
    letter lower case *)
Fixpoint title_from (at_start : bool) (v : string) : string :=
  match v with
  | EmptyString => EmptyString
  | String a r =>
    if Ascii.eqb a underscore then String space (title_from true r)
    else String (if at_start then to_upper a else to_lower a) (title_from false r)
  end.

(** [c in s] for a character *)
Fixpoint has_char (c : ascii) (s : string) : bool :=
  match s with
  | EmptyString => false
  | String a r => Ascii.eqb a c || has_char c r
  end.

End Util.

(** ** util.py and __init__.py: the add-on's key bindings

    The host's key configuration is a collection of keymaps, each named by
    its name, space type and region type and holding a list of items.  An
    item is a Python object; [item_id] stands for its identity.  The
    module-level dictionaries [keymaps] and [addon_keymaps] hold references
    to the host's objects: a keymap by its name triple, an item by its
    identity. *)

Module Keymaps.

Import Util.
Import Stdlib.Strings.Ascii.

Definition KeyMapRef : Type := string * string * string.

Inductive PropValue := PStr (s : string) | PBool (b : bool).

Record KeyMapItem := mkItem {
  item_id : nat;
  item_op : string;
  item_key : string;
  item_action : string;
  item_shift : bool;
  item_ctrl : bool;
  item_alt : bool;
  item_key_modifier : option string;
  item_repeat : bool;
  item_properties : list (string * PropValue)
}.

(** An item without its identity *)
Definition describe (it : KeyMapItem)
    : string * string * string * (bool * bool * bool) * option string * bool
      * list (string * PropValue) :=
  (item_op it, item_key it, item_action it,
   (item_shift it, item_ctrl it, item_alt it),
   item_key_modifier it, item_repeat it, item_properties it).

Record State := mkState {
  host : gmap KeyMapRef (list KeyMapItem);      (* keyconfigs.addon.keymaps *)
  next_id : nat;                                (* the identity of the next new object *)
  keymaps : gmap string KeyMapRef;              (* [keymaps] *)
  addon_keymaps : list (string * list nat)      (* [addon_keymaps], in insertion order *)
}.

(** [km.keymap_items], as a list *)
Definition items (st : State) (km : KeyMapRef) : list KeyMapItem :=
  default [] (host st !! km).

(** [d[k].append(x)] on a [defaultdict(list)] *)
Fixpoint record_item (d : list (string * list nat)) (k : string) (x : nat)
    : list (string * list nat) :=
  match d with
  | [] => [(k, [x])]
  | (k', xs) :: d' =>
    if decide (k' = k) then (k', xs ++ [x]) :: d' else (k', xs) :: record_item d' k x
  end.

Fixpoint recorded (d : list (string * list nat)) (k : string) : list nat :=
  match d with
  | [] => []
  | (k', xs) :: d' => if decide (k' = k) then xs else recorded d' k
  end.

(** [keymap_def(name, space_type, region_type)]: the host's [keymaps.new]
    returns the keymap of that name, space and region, creating it, without
    items, if it is not there. *)
Definition keymap_def (name space_type region_type : string) (st : State) : State :=
  let km := (name, space_type, region_type) in
  mkState (match host st !! km with Some _ => host st | None => <[km := []]> (host st) end)
          (next_id st) (<[name := km]> (keymaps st)) (addon_keymaps st).

(** One turn of [for keymap in maps] in [binding_def]; [None] is the
    KeyError of [keymaps[keymap]].  The host's [keymap_items.new] appends a
    new item. *)
Definition bind_one (op key op_action mods : string) (modifier : option string)
    (repeat : bool) (properties : list (string * PropValue))
    (st : State) (keymap : string) : option State :=
  km ← keymaps st !! keymap;
  let kmi := mkItem (next_id st) op key op_action
                    (has_char "S"%char mods) (has_char "C"%char mods) (has_char "A"%char mods)
                    (match modifier with
                     | Some (String a r) => Some (String a r)
                     | _ => None
                     end)
                    repeat properties in
  Some (mkState (<[km := items st km ++ [kmi]]> (host st)) (S (next_id st))
                (keymaps st) (record_item (addon_keymaps st) keymap (item_id kmi))).

(** [binding_def(maps, op, key, op_action, mods, modifier, repeat, **properties)],
    with [maps] the names to bind in (a single string stands for itself
    alone).  It returns the state it leaves and whether it returned: an
    exception leaves the bindings made before it. *)
Fixpoint binding_def (maps : list string) (op key op_action mods : string)
    (modifier : option string) (repeat : bool) (properties : list (string * PropValue))
    (st : State) : State * bool :=
  match maps with
  | [] => (st, true)
  | keymap :: rest =>
    match bind_one op key op_action mods modifier repeat properties st keymap with
    | Some st' => binding_def rest op key op_action mods modifier repeat properties st'
    | None => (st, false)
    end
  end.

(** [for kmi in items: keymap.keymap_items.remove(kmi)]; the host raises
    for an item that is not in the keymap. *)
Fixpoint remove_items (ids : list nat) (its : list KeyMapItem) : list KeyMapItem * bool :=
  match ids with
  | [] => (its, true)
  | id :: rest =>
    if bool_decide (id ∈ item_id <$> its)
    then remove_items rest (filter (λ it, item_id it ≠ id) its)
    else (its, false)
  end.

(** [for km, items in addon_keymaps.items()] *)
Fixpoint clear_each (entries : list (string * list nat)) (st : State) : State * bool :=
  match entries with
  | [] => (st, true)
  | (name, ids) :: rest =>
    match keymaps st !! name with
    | None => (st, false)
    | Some km =>
      let '(its, ok) := remove_items ids (items st km) in
      let st' := mkState (<[km := its]> (host st)) (next_id st) (keymaps st)
                         (addon_keymaps st) in
      if ok then clear_each rest st' else (st', false)
    end
  end.

(** [bindings_clear()] *)
Definition bindings_clear (st : State) : State * bool :=
  let '(st', ok) := clear_each (addon_keymaps st) st in
  if ok then (mkState (host st') (next_id st') (keymaps st') [], true) else (st', false).

(** The add-on preferences read by [register_bindings] *)
Record Preferences := mkPrefs { override_resize : bool; override_select : bool }.

(** Python's sequencing of calls that may raise *)
Definition and_then (r : State * bool) (f : State → State * bool) : State * bool :=
  if r.2 then f r.1 else r.

(** [register_bindings(context)] of __init__.py *)
Definition register_bindings (prefs : Preferences) (st : State) : State * bool :=
  let st := keymap_def "Mesh" "EMPTY" "WINDOW" st in
  and_then
    (if override_resize prefs then
       and_then
         (binding_def ["Mesh"] "mesh.edgy_resize_selection" "NUMPAD_PLUS" "PRESS" "C"
                      None true [("direction", PStr "GROW")] st)
         (binding_def ["Mesh"] "mesh.edgy_resize_selection" "NUMPAD_MINUS" "PRESS" "C"
                      None true [("direction", PStr "SHRINK")])
     else (st, true))
    (λ st,
       if override_select prefs then
         and_then
           (binding_def ["Mesh"] "mesh.edgy_select_loop" "LEFTMOUSE" "CLICK" "A"
                        None false [("extend", PBool false)] st)
           (binding_def ["Mesh"] "mesh.edgy_select_loop" "LEFTMOUSE" "CLICK" "AS"
                        None false [("extend", PBool true)])
       else (st, true)).

(** [update_bindings(_, context)] of __init__.py *)
Definition update_bindings (prefs : Preferences) (st : State) : State * bool :=
  and_then (bindings_clear st) (register_bindings prefs).

(** The calls that make and name bindings *)
Inductive call :=
| KeymapDef (name space_type region_type : string)
| BindingDef (maps : list string) (op key op_action mods : string)
             (modifier : option string) (repeat : bool)
             (properties : list (string * PropValue)).

Definition run_call (c : call) (st : State) : State * bool :=
  match c with
  | KeymapDef name space_type region_type => (keymap_def name space_type region_type st, true)
  | BindingDef maps op key op_action mods modifier repeat properties =>
    binding_def maps op key op_action mods modifier repeat properties st
  end.

Fixpoint run (calls : list call) (st : State) : State * bool :=
  match calls with
  | [] => (st, true)
  | c :: rest => and_then (run_call c st) (run rest)
  end.

(** The preferences changed some times over: [update_bindings] after
    [update_bindings] *)
Fixpoint updates (changes : list Preferences) (st : State) : State * bool :=
  match changes with
  | [] => (st, true)
  | prefs :: rest => and_then (update_bindings prefs st) (updates rest)
  end.

(** The keymaps that a list of calls defines *)
Definition defs_of (calls : list call) : list KeyMapRef :=
  omap (λ c, match c with
             | KeymapDef name space_type region_type => Some (name, space_type, region_type)
             | BindingDef _ _ _ _ _ _ _ _ => None
             end) calls.

(** Every name is defined with one space type and region type. *)
Definition one_keymap_per_name (calls : list call) : Prop :=
  ∀ km1 km2 : KeyMapRef,
    km1 ∈ defs_of calls → km2 ∈ defs_of calls → km1.1.1 = km2.1.1 → km1 = km2.

(** The module as loaded, on a host whose items are older than any the
    add-on makes *)
Definition fresh (st : State) : Prop :=
  keymaps st = ∅ ∧ addon_keymaps st = [] ∧
  ∀ km it, it ∈ items st km → item_id it < next_id st.

(** The state of the bindings, against the host as it was ([base], with
    identities below [n0]): what the add-on has added is what it recorded. *)
Record bindings_inv (n0 : nat) (base : gmap KeyMapRef (list KeyMapItem))
    (defs : list KeyMapRef) (st : State) : Prop := mk_bindings_inv {
  bi_names : ∀ name km, keymaps st !! name = Some km → km.1.1 = name ∧ km ∈ defs;
  bi_base : ∀ km, filter (λ it, item_id it < n0) (items st km) = default [] (base !! km);
  bi_fresh : ∀ km it, it ∈ items st km → item_id it < next_id st;
  bi_n0 : n0 ≤ next_id st;
  bi_keys : NoDup (addon_keymaps st).*1;
  bi_recorded : ∀ name ids, (name, ids) ∈ addon_keymaps st →
    NoDup ids ∧ ∃ km, keymaps st !! name = Some km ∧
      ∀ id, id ∈ ids → n0 ≤ id ∧ id ∈ item_id <$> items st km;
  bi_created : ∀ km it, it ∈ items st km → n0 ≤ item_id it →
    keymaps st !! km.1.1 = Some km ∧ item_id it ∈ recorded (addon_keymaps st) km.1.1
}.

(** The bindings that [register_bindings] makes for the preferences *)
Definition expected (prefs : Preferences)
    : list (string * string * string * (bool * bool * bool) * option string * bool
            * list (string * PropValue)) :=
  (if override_resize prefs then
     [("mesh.edgy_resize_selection", "NUMPAD_PLUS", "PRESS", (false, true, false),
       None, true, [("direction", PStr "GROW")]);
      ("mesh.edgy_resize_selection", "NUMPAD_MINUS", "PRESS", (false, true, false),
       None, true, [("direction", PStr "SHRINK")])]
   else []) ++
  (if override_select prefs then
     [("mesh.edgy_select_loop", "LEFTMOUSE", "CLICK", (false, false, true),
       None, false, [("extend", PBool false)]);
      ("mesh.edgy_select_loop", "LEFTMOUSE", "CLICK", (true, false, true),
       None, false, [("extend", PBool true)])]
   else []).

(** The keymap that [register_bindings] binds in *)
Definition mesh_keymap : KeyMapRef := ("Mesh", "EMPTY", "WINDOW").

(** A host with one item of its own in the Mesh keymap, and the module as
    loaded *)
Definition loaded_state : State :=
  mkState {[ mesh_keymap := [mkItem 0 "mesh.select_all" "A" "PRESS" false false false
                                    None false [("action", PStr "TOGGLE")]] ]}
          1 ∅ [].

Definition sample_calls : list call :=
  [KeymapDef "Mesh" "EMPTY" "WINDOW";
   BindingDef ["Mesh"] "mesh.edgy_select_loop" "LEFTMOUSE" "CLICK" "AS" None false
              [("extend", PBool true)];
   KeymapDef "Window" "EMPTY" "WINDOW";
   BindingDef ["Mesh"; "Window"] "mesh.edgy_close_loop" "C" "PRESS" "" (Some "L") false []].

End Keymaps.

(** ** Further definitions: the shape of a walk, its states *)

Module Walks.

(** [e] has the ends [a] and [b] *)
Definition joins (bm : BMesh) (e a b : nat) : Prop :=
  verts (edge bm e) = (a, b) ∨ verts (edge bm e) = (b, a).

(** The iterations of [find_loop]'s loop that append: standing at [head]
    after [last_edge], the walk appends the edges [es] and the vertices [vs]. *)
Fixpoint steps (bm : BMesh) (edge0 : nat) (stop_set : gset nat)
    (last_edge head : nat) (es vs : list nat) : Prop :=
  match es, vs with
  | [], [] => True
  | ne :: es', head' :: vs' =>
    is_pole bm head = false ∧ (head ∉ stop_set) ∧
    next_edge bm last_edge head = Some ne ∧ ne ≠ edge0 ∧
    head' = other_vert bm ne head ∧ steps bm edge0 stop_set ne head' es' vs'
  | _, _ => False
  end.

(** Enough iterations for any walk on a mesh with a reversible scan *)
Definition walk_budget (bm : BMesh) : nat := length (bm_edges bm).

(** The walk behind a call of [find_loop(edge0, start, ...)], described by
    its history: the latest edge and the end it was entered at first, the
    starting edge last.  No edge is in it twice. *)
Definition history_ok (bm : BMesh) (edge0 start : nat) (hist : list (nat * nat)) : Prop :=
  match hist with
  | [] => False
  | (e, h) :: before =>
    back_chain bm e h before ∧ e ∈ link_edges (vert bm h) ∧
    NoDup (hist.*1) ∧ last hist = Some (edge0, start)
  end.

(** The exits of [find_loop]'s loop, for a walk standing at [head] after
    [last_edge] *)
Definition stops_at (bm : BMesh) (edge0 : nat) (stop_set : gset nat)
    (last_edge head : nat) : Prop :=
  is_pole bm head = true ∨ head ∈ stop_set ∨
  next_edge bm last_edge head = None ∨ next_edge bm last_edge head = Some edge0.

(** An end of a chain, for a walk standing at [v] after [e]: [find_loop]
    goes no further from there. *)
Definition chain_end (bm : BMesh) (e v : nat) : Prop :=
  is_pole bm v = true ∨ next_edge bm e v = None.

(** The state of [pure_edge_loops] between two steps of its passes: the
    visited edges are the edges of the loops found, each loop brought an edge
    of its own, and all of them are edges of the mesh. *)
Definition tally_ok (bm : BMesh) (st : list PureEdgeLoop * gset nat) : Prop :=
  st.2 = loops_union st.1 ∧ length st.1 ≤ size st.2 ∧
  (∀ x, x ∈ st.2 → x < length (bm_edges bm)) ∧
  Forall (λ l, NoDup (edges l)) st.1.

(** What the [while queue] loop of [get_edge_loops] still has to do: the
    queued nodes, and the incident edges of the vertices not yet expanded. *)
Definition unexpanded (bm : BMesh) (visited_verts : gset nat) : nat :=
  sum_list_with (λ v, if bool_decide (v ∈ visited_verts) then 0
                      else length (link_edges (vert bm v)))
                (indices (bm_verts bm)).

Definition search_left (bm : BMesh) (queue : list LoopSearchNode)
    (visited_verts : gset nat) : nat :=
  length queue + unexpanded bm visited_verts.

(** Enough iterations for [get_edge_loops] on a mesh with a reversible scan *)
Definition search_budget (bm : BMesh) : nat :=
  walk_budget bm + unexpanded bm ∅ + 2.

(** A sequence of loops in which each loop starts at the vertex where the
    one before it ends *)
Fixpoint chained (ls : list PureEdgeLoop) : Prop :=
  match ls with
  | l1 :: ((l2 :: _) as rest) =>
    last_of (vertices l1) = first_of (vertices l2) ∧ chained rest
  | _ => True
  end.

End Walks.

Import Walks.

(** * Properties *)

(** ** The concrete meshes are well-formed *)

Lemma inputs_wf :
  wf_mesh grid3x3 = true ∧ wf_mesh wire_star = true ∧ wf_mesh wire_H = true ∧
  wf_mesh quad_diag = true ∧ wf_mesh quad_tail = true ∧ wf_mesh wire_net = true.
Proof. repeat split; vm_compute; reflexivity. Qed.

(** ** find_loop *)

Module LoopFacts.

Lemma walk_unfold fuel bm e0 stop last_edge head vs es :
  walk (S fuel) bm e0 stop last_edge head vs es =
    if is_pole bm head || bool_decide (head ∈ stop) then Some (close_off vs es)
    else match next_edge bm last_edge head with
         | None => Some (close_off vs es)
         | Some ne =>
           if decide (ne = e0) then Some (close_off vs es)
           else walk fuel bm e0 stop ne (other_vert bm ne head)
                     (vs ++ [other_vert bm ne head]) (es ++ [ne])
         end.
Proof. reflexivity. Qed.

(** The walk only ever extends the two sequences it was given. *)
Lemma walk_extends fuel bm e0 stop : ∀ last_edge head vs es l,
  walk fuel bm e0 stop last_edge head vs es = Some l →
  ∃ vs' es', vertices l = vs ++ vs' ∧ edges l = es ++ es' ∧
             length vs' = length es' ∧ edge_set l = list_to_set (es ++ es').
Proof.
  induction fuel as [|fuel IH]; intros last_edge head vs es l; [done|].
  rewrite walk_unfold.
  assert (Hstop : Some (close_off vs es) = Some l →
    ∃ vs' es', vertices l = vs ++ vs' ∧ edges l = es ++ es' ∧
               length vs' = length es' ∧ edge_set l = list_to_set (es ++ es')).
  { intros [= <-]. exists [], []. by rewrite !app_nil_r. }
  destruct (is_pole bm head || bool_decide (head ∈ stop)); [done|].
  destruct (next_edge bm last_edge head) as [ne|]; [|done].
  destruct (decide (ne = e0)); [done|].
  intros Hw. apply IH in Hw as (vs' & es' & Hv & He & Hlen & Hset).
  exists (other_vert bm ne head :: vs'), (ne :: es').
  rewrite Hv, He, Hset, <- !app_assoc. simpl. by rewrite Hlen.
Qed.

(** What every result of [find_loop] looks like: it starts at [start] with
    the given edge, has one vertex more than it has edges, and its edge set
    is the set of its edges. *)
Lemma find_loop_shape fuel bm e0 start stop l :
  find_loop fuel bm e0 start stop = Some l →
  ∃ vs' es', vertices l = start :: other_vert bm e0 start :: vs' ∧
             edges l = e0 :: es' ∧ length vs' = length es' ∧
             edge_set l = list_to_set (edges l).
Proof.
  intros Hw. apply walk_extends in Hw as (vs' & es' & Hv & He & Hlen & Hset).
  exists vs', es'. by rewrite Hset, He.
Qed.

Lemma find_loop_has_edge fuel bm e0 start stop l :
  find_loop fuel bm e0 start stop = Some l → e0 ∈ edge_set l.
Proof.
  intros Hw. apply find_loop_shape in Hw as (vs' & es' & _ & He & _ & Hset).
  rewrite Hset, He. apply elem_of_list_to_set. left.
Qed.

Lemma find_loop_first_vertex fuel bm e0 start stop l :
  find_loop fuel bm e0 start stop = Some l → first_of (vertices l) = start.
Proof.
  intros Hw. apply find_loop_shape in Hw as (vs' & es' & Hv & _). by rewrite Hv.
Qed.

(** A walk that returns within some number of iterations returns the same
    loop within any larger number. *)
Lemma walk_fuel_mono bm e0 stop : ∀ fuel fuel' last_edge head vs es l,
  walk fuel bm e0 stop last_edge head vs es = Some l → fuel ≤ fuel' →
  walk fuel' bm e0 stop last_edge head vs es = Some l.
Proof.
  induction fuel as [|fuel IH]; intros fuel' last_edge head vs es l Hw Hle; [done|].
  destruct fuel' as [|fuel']; [lia|]. rewrite walk_unfold in *.
  destruct (is_pole bm head || bool_decide (head ∈ stop)); [done|].
  destruct (next_edge bm last_edge head) as [ne|]; [|done].
  destruct (decide (ne = e0)); [done|]. apply (IH fuel'); [done|lia].
Qed.

Lemma find_loop_fuel_mono fuel fuel' bm e0 start stop l :
  find_loop fuel bm e0 start stop = Some l → fuel ≤ fuel' →
  find_loop fuel' bm e0 start stop = Some l.
Proof. apply walk_fuel_mono. Qed.

End LoopFacts.

(** C7.  On [wire_star], [find_loop(edge 0, vertex 0)] reaches vertex 1, which
    is not a pole; the scan of its incident edges selects edge 0, the starting
    edge, as next edge; the walk stops there and returns the vertices
    [(0, 1)]: the first vertex is not repeated at the end and [is_closed] is
    false. *)
Theorem find_loop_returns_open_on_start_edge :
  wf_mesh wire_star = true ∧
  is_pole wire_star 1 = false ∧
  next_edge wire_star 0 1 = Some 0 ∧
  ∃ l, find_loop 1 wire_star 0 0 ∅ = Some l ∧
       vertices l = [0; 1] ∧ edges l = [0] ∧ is_closed l = false.
Proof.
  split; [by vm_compute|]. split; [by vm_compute|]. split; [by vm_compute|].
  eexists. split; [by vm_compute|]. by vm_compute.
Qed.

(** C10.  On [wire_H], [find_loop(edge 1, vertex 0)] never returns: from
    vertex 1 the walk takes the bar (edge 0) to vertex 2, whose first incident
    edge is the bar again, and from then on it goes back and forth along the
    bar, which is not the starting edge.  No number of iterations suffices. *)
Theorem find_loop_never_returns :
  wf_mesh wire_H = true ∧ ∀ fuel, find_loop fuel wire_H 1 0 ∅ = None.
Proof.
  split; [by vm_compute|].
  assert (Hbar : ∀ fuel vs es,
    walk fuel wire_H 1 ∅ 0 1 vs es = None ∧ walk fuel wire_H 1 ∅ 0 2 vs es = None).
  { induction fuel as [|fuel IH]; intros vs es; [done|].
    split; rewrite LoopFacts.walk_unfold.
    - change (walk fuel wire_H 1 ∅ 0 2 (vs ++ [2]) (es ++ [0]) = None). apply IH.
    - change (walk fuel wire_H 1 ∅ 0 1 (vs ++ [1]) (es ++ [0]) = None). apply IH. }
  intros [|fuel]; [done|].
  unfold find_loop. rewrite LoopFacts.walk_unfold.
  change (walk fuel wire_H 1 ∅ 0 2 ([0; 1] ++ [2]) ([1] ++ [0]) = None). apply Hbar.
Qed.

(** ** pure_edge_loops *)

(** C1.  On the 3 by 3 grid the poles are the four corners.  Whatever the
    order in which the first pass meets them, [pure_edge_loops] returns seven
    loops and edge 8 (centre to top) is in the edge set of two of them: the
    second pass walks edge 8 from the centre, stops at the top boundary with
    the one-edge loop [{8}], and later walks edge 9 from the bottom through the
    centre and over edge 8 again. *)
Theorem pure_edge_loops_repeat_an_edge pole_order :
  enumerates_poles grid3x3 pole_order →
  wf_mesh grid3x3 = true ∧
  loops_holding 8 <$> pure_edge_loops 12 grid3x3 pole_order = Some 2.
Proof.
  intros Horder. split; [by vm_compute|].
  assert (Hpoles : filter (λ v, is_pole grid3x3 v = true) (indices (bm_verts grid3x3))
                   = [0; 2; 6; 8]) by (by vm_compute).
  unfold enumerates_poles in Horder. rewrite Hpoles in Horder.
  symmetry in Horder. apply permutations_Permutation in Horder.
  assert (Hall : Forall (λ order,
                    loops_holding 8 <$> pure_edge_loops 12 grid3x3 order = Some 2)
                        (permutations [0; 2; 6; 8])).
  { apply (bool_decide_unpack _). by vm_compute. }
  rewrite Forall_forall in Hall. by apply Hall.
Qed.

Lemma pure_edge_loops_repeat_an_edge_witness :
  wf_mesh grid3x3 = true ∧
  loops_holding 8 <$> pure_edge_loops 12 grid3x3 [0; 2; 6; 8] = Some 2.
Proof.
  apply (pure_edge_loops_repeat_an_edge [0; 2; 6; 8]).
  vm_compute. reflexivity.
Defined.

(** ** PureEdgeLoop equality and walks from opposite ends *)

(** C8, counterexample.  On [quad_tail] the walk from the pole 0 over edge 0
    reaches corner 1, which is not a pole; coming from edge 0, the scan there
    passes over the quad's edges and selects the wire edge 4, and the walk
    ends at the pole 4: an open chain with edges [(0, 4)].  The walk from its
    other end, vertex 4 over edge 4, reaches corner 1 over an edge without
    faces, so the scan selects the first edge listed there, edge 1, and the
    walk ends at the pole 2 with edges [(4, 1)].  Both walks end at a pole,
    neither stops on its starting edge, and their edge sets differ, so the
    loops are not equal. *)
Lemma opposite_end_walks_differ_between_poles :
  wf_mesh quad_tail = true ∧
  is_pole quad_tail 0 = true ∧ is_pole quad_tail 4 = true ∧ is_pole quad_tail 2 = true ∧
  is_pole quad_tail 1 = false ∧
  next_edge quad_tail 0 1 = Some 4 ∧ next_edge quad_tail 4 1 = Some 1 ∧
  ∃ l l', find_loop 3 quad_tail 0 0 ∅ = Some l ∧
          vertices l = [0; 1; 4] ∧ edges l = [0; 4] ∧ is_closed l = false ∧
          find_loop 3 quad_tail (last_of (edges l)) (last_of (vertices l)) ∅ = Some l' ∧
          vertices l' = [4; 1; 2] ∧ edges l' = [4; 1] ∧
          edge_set l ≠ edge_set l' ∧ loop_eqb l l' = false.
Proof.
  do 7 (split; [by vm_compute|]).
  eexists _, _. split; [by vm_compute|].
  split; [done|]. split; [done|]. split; [by vm_compute|].
  split; [by vm_compute|]. split; [done|]. split; [done|].
  split; [|by vm_compute].
  apply (bool_decide_unpack _). by vm_compute.
Qed.

(** ** get_edge_loops *)



Module SearchFacts.

Lemma rev_reverse {A} (l : list A) : rev l = list.reverse l.
Proof. unfold list.reverse. by rewrite rev_alt. Qed.

Lemma list_to_set_rev (l : list nat) : list_to_set (rev l) =@{gset nat} list_to_set l.
Proof.
  apply set_eq. intros x. rewrite !elem_of_list_to_set, rev_reverse. apply elem_of_reverse.
Qed.

Lemma sum_list_snoc (l : list nat) (n : nat) : sum_list (l ++ [n]) = sum_list l + n.
Proof. induction l as [|x l IH]; simpl; lia. Qed.

Lemma find_loop_ok fuel bm e0 start stop l :
  find_loop fuel bm e0 start stop = Some l → loop_ok l.
Proof.
  intros Hw. apply LoopFacts.find_loop_shape in Hw as (vs' & es' & _ & _ & _ & Hset). done.
Qed.

(** [pure_edge_loop] returns a loop with at least two vertices whose edge set
    is the set of its edges. *)
Lemma pure_edge_loop_shape fuel bm e l :
  pure_edge_loop fuel bm e = Some l →
  loop_ok l ∧ ∃ a b, head (vertices l) = Some a ∧ last (vertices l) = Some b.
Proof.
  unfold pure_edge_loop. intros H.
  destruct (find_loop fuel bm e _ ∅) as [partial|] eqn:Hp; [simpl in H|done].
  assert (Hshape : ∀ e0 s l0, find_loop fuel bm e0 s ∅ = Some l0 →
            ∃ a b, head (vertices l0) = Some a ∧ last (vertices l0) = Some b
                   ∧ head (rev (vertices l0)) = Some b).
  { intros e0 s l0 Hl. apply LoopFacts.find_loop_shape in Hl as (vs' & es' & Hv & _).
    rewrite Hv. exists s.
    destruct (last (s :: other_vert bm e0 s :: vs')) as [b|] eqn:Hb.
    - exists b. split; [done|]. split; [done|].
      by rewrite rev_reverse, head_reverse.
    - apply last_None in Hb. done. }
  destruct (decide (first_of (vertices partial) = last_of (vertices partial))).
  - injection H as <-. split; [by eapply find_loop_ok|].
    destruct (Hshape _ _ _ Hp) as (a & b & ? & ? & _). eauto.
  - destruct (find_loop fuel bm (last_of (edges partial)) _ ∅) as [result|] eqn:Hr;
      [simpl in H|done].
    destruct (Hshape _ _ _ Hr) as (a & b & Ha & Hb & Hrev).
    destruct (decide (last_of (edges result) = e)); injection H as <-.
    + split; [unfold loop_ok; simpl; by rewrite list_to_set_rev|].
      simpl. exists b, a. split; [done|].
      by rewrite rev_reverse, last_reverse.
    + split; [by eapply find_loop_ok|]. eauto.
Qed.

Lemma loops_union_app ls l : loops_union (ls ++ [l]) = loops_union ls ∪ edge_set l.
Proof.
  unfold loops_union. rewrite fmap_app, union_list_app_L. simpl.
  by rewrite (right_id_L ∅ (∪)).
Qed.

Lemma total_edges_app ls l : total_edges (ls ++ [l]) = total_edges ls + length (edges l).
Proof. unfold total_edges. rewrite fmap_app. simpl. apply sum_list_snoc. Qed.

Lemma not_in_loops_union (x : nat) (ls : list PureEdgeLoop) :
  existsb (λ loop, bool_decide (x ∈ edge_set loop)) ls = false → x ∉ loops_union ls.
Proof.
  unfold loops_union. induction ls as [|l ls IH]; simpl.
  { intros _. apply not_elem_of_empty. }
  intros [Hl Hls]%orb_false_elim. apply bool_decide_eq_false in Hl.
  apply IH in Hls. rewrite elem_of_union. tauto.
Qed.

Lemma size_list_to_set_le (l : list nat) : size (list_to_set l : gset nat) ≤ length l.
Proof.
  induction l as [|x l IH]; [done|]. cbn [list_to_set length].
  rewrite size_union_alt, size_singleton.
  assert (size (list_to_set l ∖ {[x]} : gset nat) ≤ size (list_to_set l : gset nat))
    by apply subseteq_size, subseteq_difference_l, reflexivity.
  lia.
Qed.


Section WithQueue.
Context (pq : Heapq) (laws : HeapqLaws pq).
Context (bm : BMesh) (bound : nat) (pure : PureEdgeLoop).

Let first_set : gset nat := edge_set pure.
Let first_vertex : nat := first_of (vertices pure).

Let good (b : nat) (queue : list LoopSearchNode) : Prop :=
  heap_inv pq queue ∧
  Forall (λ nd, node_ok first_set first_vertex nd ∧ b ≤ path_length nd ∧
                chain_node bound bm pure nd) queue.

(** One pass of the inner [for] keeps the queue good. *)
Lemma expand_all_good fuel candidate : ∀ link queue queue'',
  fuel ≤ bound →
  node_ok first_set first_vertex candidate →
  chain_node bound bm pure candidate →
  end_vertex candidate ≠ first_vertex →
  (∀ le, le ∈ link → le ∈ link_edges (vert bm (end_vertex candidate))) →
  good (path_length candidate) queue →
  for_each (expand pq fuel bm {[first_vertex]} candidate (end_vertex candidate)) link queue
    = Some queue'' →
  good (path_length candidate) queue''.
Proof.
  intros link queue queue'' Hfuel (Hlen & Hsub & _ & Hoks) (Hchain & Hend) Hopen.
  revert queue. induction link as [|le link IH]; intros queue Hlink Hq H; simpl in H.
  { by injection H as <-. }
  destruct (expand pq fuel bm {[first_vertex]} candidate (end_vertex candidate) queue le)
    as [q1|] eqn:Hx; [simpl in H|done].
  apply (IH q1); [intros le' Hle'; apply Hlink; by right| |done]. clear IH H.
  unfold expand in Hx.
  destruct (existsb _ (loops candidate)) eqn:Hused; [by injection Hx as <-|].
  destruct (find_loop fuel bm le (end_vertex candidate) {[first_vertex]})
    as [next_loop|] eqn:Hloop; [simpl in Hx|done].
  injection Hx as <-. destruct Hq as [Hinv Hall]. split.
  - by apply (heappush_inv pq laws).
  - rewrite (heappush_perm pq laws) by done. constructor; [|done].
    apply not_in_loops_union in Hused.
    pose proof (LoopFacts.find_loop_has_edge _ _ _ _ _ _ Hloop) as Hin.
    unfold node_ok; simpl. rewrite loops_union_app, total_edges_app.
    repeat split.
    + set_solver.
    + intros _ Heq. apply Hused, Hsub. rewrite Heq. apply elem_of_union. by right.
    + apply Forall_app. split; [done|]. constructor; [|done]. by eapply find_loop_ok.
    + lia.
    + simpl. rewrite Hend in *.
      apply (chain_next bound bm pure _ le); [done|done|apply Hlink; by left|done|].
      by apply (LoopFacts.find_loop_fuel_mono fuel).
    + simpl. unfold chain_end_vertex. by rewrite last_snoc.
Qed.

(** The search appends to [all_loops] the unions of a sequence of chains,
    each a good node ending at the first vertex, in order of their length. *)
Lemma search_appends fuel : ∀ b queue visited all_loops res,
  fuel ≤ bound →
  good b queue →
  search pq fuel bm first_vertex queue visited all_loops = Some res →
  ∃ nodes, res = all_loops ++ (loops_union ∘ loops <$> nodes) ∧
           Forall (λ nd, node_ok first_set first_vertex nd ∧ b ≤ path_length nd
                         ∧ end_vertex nd = first_vertex
                         ∧ chain_node bound bm pure nd) nodes ∧
           StronglySorted (λ n1 n2, path_length n1 ≤ path_length n2) nodes.
Proof.
  induction fuel as [|fuel IH]; intros b queue visited all_loops res Hfuel Hq H; [done|].
  simpl in H. destruct queue as [|x q].
  { injection H as <-. exists []. rewrite app_nil_r. repeat constructor. }
  destruct Hq as [Hinv Hall].
  pose proof (heappop_inv pq laws x q Hinv) as Hinv'.
  pose proof (heappop_perm pq laws x q Hinv) as Hperm.
  pose proof (heappop_min pq laws x q Hinv) as Hmin.
  destruct (heappop pq x q) as [candidate queue'] eqn:Hpop. simpl in *.
  rewrite Hperm in Hall. apply Forall_cons in Hall as [(Hc & Hcb & Hcc) Hall].
  assert (Hq' : good (path_length candidate) queue').
  { split; [done|]. apply Forall_forall. intros y Hy.
    rewrite Forall_forall in Hall, Hmin.
    destruct (Hall y Hy) as (? & _ & ?). split; [done|]. split; [|done].
    specialize (Hmin y Hy). unfold node_ltb in Hmin.
    apply orb_false_elim in Hmin as [Hlt _]. apply Nat.ltb_ge in Hlt. done. }
  assert (Hweaken : ∀ nodes,
    Forall (λ nd, node_ok first_set first_vertex nd ∧ path_length candidate ≤ path_length nd
                  ∧ end_vertex nd = first_vertex ∧ chain_node bound bm pure nd) nodes →
    Forall (λ nd, node_ok first_set first_vertex nd ∧ b ≤ path_length nd
                  ∧ end_vertex nd = first_vertex ∧ chain_node bound bm pure nd) nodes).
  { intros nodes Hn. eapply Forall_impl; [exact Hn|].
    intros nd (? & ? & ? & ?). split; [done|]. split; [lia|done]. }
  assert (Hfuel' : fuel ≤ bound) by lia.
  destruct (decide (MAX_EDGE_LOOPS < length all_loops)).
  { injection H as <-. exists []. rewrite app_nil_r. repeat constructor. }
  destruct (decide (end_vertex candidate = first_vertex)) as [Hclosed|Hopen].
  { apply (IH (path_length candidate)) in H as (nodes & -> & Hnodes & Hsorted); [|done..].
    exists (candidate :: nodes). split; [by rewrite <- app_assoc|]. split.
    - constructor; [done|]. by apply Hweaken.
    - constructor; [done|]. eapply Forall_impl; [exact Hnodes|]. by intros nd (_ & ? & _). }
  destruct (bool_decide (end_vertex candidate ∈ visited)).
  { apply (IH (path_length candidate)) in H as (nodes & -> & Hnodes & Hsorted); [|done..].
    exists nodes. split; [done|]. split; [by apply Hweaken|done]. }
  destruct (for_each _ (link_edges (vert bm (end_vertex candidate))) queue')
    as [queue''|] eqn:Hfor; [simpl in H|done].
  apply expand_all_good in Hfor; [|done..].
  apply (IH (path_length candidate)) in H as (nodes & -> & Hnodes & Hsorted); [|done..].
  exists nodes. split; [done|]. split; [by apply Hweaken|done].
Qed.

End WithQueue.

End SearchFacts.

Module QueueFacts.

Lemma node_ltb_spec a b :
  node_ltb a b = true ↔
  path_length a < path_length b ∨ (path_length a = path_length b ∧ end_vertex a < end_vertex b).
Proof.
  unfold node_ltb. rewrite orb_true_iff, andb_true_iff, !Nat.ltb_lt, Nat.eqb_eq. tauto.
Qed.

Lemma node_ltb_false a b :
  node_ltb a b = false ↔
  path_length b < path_length a ∨ (path_length a = path_length b ∧ end_vertex b ≤ end_vertex a).
Proof.
  rewrite <- not_true_iff_false, node_ltb_spec. lia.
Qed.

Lemma pop_min_spec : ∀ q x,
  x :: q ≡ₚ (pop_min x q).1 :: (pop_min x q).2 ∧
  Forall (λ y, node_ltb y (pop_min x q).1 = false) (x :: q).
Proof.
  induction q as [|y q IH]; intros x; simpl.
  { split; [done|]. constructor; [|done]. apply node_ltb_false. lia. }
  destruct (IH y) as [Hperm Hmin]. destruct (pop_min y q) as [m r]. simpl in *.
  destruct (node_ltb m x) eqn:Hmx; simpl.
  - split.
    + rewrite Hperm. apply perm_swap.
    + constructor; [|done]. apply node_ltb_spec in Hmx. apply node_ltb_false. lia.
  - split; [done|]. constructor; [apply node_ltb_false; lia|].
    apply node_ltb_false in Hmx.
    eapply Forall_impl; [exact Hmin|]. intros z Hz. simpl in Hz.
    apply node_ltb_false in Hz. apply node_ltb_false. lia.
Qed.

(** The list-based queue meets the contract of [heapq]. *)
Lemma list_pq_laws : HeapqLaws list_pq.
Proof.
  split; simpl; try done.
  - intros q x _. symmetry. apply Permutation_cons_append.
  - intros x q _. apply pop_min_spec.
  - intros x q _. destruct (pop_min_spec q x) as [Hperm Hmin].
    rewrite Hperm in Hmin. by apply Forall_cons in Hmin as [_ Hmin].
Qed.

End QueueFacts.

Module GetEdgeLoopsFacts.

(** The list that [get_edge_loops] returns: the first loop's edge set, then
    the unions of chains that the search closed, each a good node that ends at
    the first vertex, in order of recorded length. *)
Lemma get_edge_loops_chains pq fuel bm e ls :
  HeapqLaws pq →
  get_edge_loops pq fuel bm e = Some ls →
  ∃ pure nodes,
    pure_edge_loop fuel bm e = Some pure ∧ loop_ok pure ∧
    ls = edge_set pure :: (loops_union ∘ loops <$> nodes) ∧
    Forall (λ nd, node_ok (edge_set pure) (first_of (vertices pure)) nd
                  ∧ length (edges pure) ≤ path_length nd
                  ∧ end_vertex nd = first_of (vertices pure)
                  ∧ chain_node fuel bm pure nd) nodes ∧
    StronglySorted (λ n1 n2, path_length n1 ≤ path_length n2) nodes.
Proof.
  intros laws H. unfold get_edge_loops in H.
  destruct (pure_edge_loop fuel bm e) as [pure|] eqn:Hpure; [simpl in H|done].
  destruct (SearchFacts.pure_edge_loop_shape _ _ _ _ Hpure) as (Hok & a & b & Ha & Hb).
  exists pure. destruct (is_closed pure) eqn:Hclosed.
  { injection H as <-. exists []. repeat split; try done; constructor. }
  eapply (SearchFacts.search_appends pq laws bm fuel pure) in H.
  - destruct H as (nodes & -> & Hnodes & Hsorted). by exists nodes.
  - done.
  - split; [apply (heap_inv_one pq laws)|].
    constructor; [|done]. split; [|split; [done|]].
    + unfold node_ok, loops_union, total_edges; simpl. repeat split.
      * lia.
      * by rewrite (right_id_L ∅ (∪)).
      * unfold is_closed in Hclosed. rewrite Ha, Hb in Hclosed.
        apply bool_decide_eq_false in Hclosed.
        unfold first_of, last_of. rewrite Ha, Hb. simpl. by intros ->.
      * by constructor.
    + split; [apply chain_first|done].
Qed.

(** Every chain of the search starts with the first loop. *)
Lemma search_chain_head fuel bm pure c :
  search_chain fuel bm pure c → head c = Some pure.
Proof.
  induction 1 as [|c le l _ IH _ _ _ _]; [done|]. by destruct c.
Qed.

End GetEdgeLoopsFacts.





(** ** The selection state snapshot *)

Import Selection.

Module SelectionFacts.

Lemma selected_spec (fl : list bool) (i : nat) : i ∈ selected fl ↔ fl !! i = Some true.
Proof.
  unfold selected, indices. rewrite elem_of_list_to_set, list_elem_of_filter, elem_of_seq.
  split; [tauto|]. intros H. split; [done|]. apply lookup_lt_Some in H. lia.
Qed.

Lemma selected_flag (fl : list bool) (i : nat) (b : bool) :
  fl !! i = Some b → bool_decide (i ∈ selected fl) = b.
Proof.
  intros H. destruct b.
  - apply bool_decide_eq_true. by apply selected_spec.
  - apply bool_decide_eq_false. rewrite selected_spec. congruence.
Qed.

(** An entry that was last in a history without repetitions is still last
    in what is left of it, if it is left at all. *)
Lemma last_of_sublist {A} (l' l : list A) (x : A) :
  l' `sublist_of` l → NoDup l → last l = Some x → x ∈ l' → last l' = Some x.
Proof.
  intros Hsub Hnd Hlast Hin. apply last_Some in Hlast as [l0 ->].
  apply NoDup_app in Hnd as (_ & Hx & _).
  apply sublist_app_r in Hsub as (k1 & k2 & -> & Hk1 & Hk2).
  apply sublist_cons_r in Hk2 as [Hk2|(k & -> & Hk)].
  - apply sublist_nil_r in Hk2 as ->. rewrite app_nil_r in Hin.
    exfalso. apply (Hx x); [|left]. by eapply elem_of_sublist.
  - apply sublist_nil_r in Hk as ->. apply last_snoc.
Qed.

Section WithHost.
Context (ops : SelectOps) (laws : SelectLaws ops).

(** What the loop [for x in seq: x.select = ...] leaves unchanged, and what it
    writes when the flags written are the ones already there. *)
Lemma write_flags_spec k chosen st :
  mesh_select_mode (write_flags ops k chosen st) = mesh_select_mode st ∧
  select_history (write_flags ops k chosen st) `sublist_of` select_history st ∧
  (∀ k', length (flags k' (write_flags ops k chosen st)) = length (flags k' st)) ∧
  ((∀ i b, flags k st !! i = Some b → bool_decide (i ∈ chosen) = b) →
   flags k (write_flags ops k chosen st) = flags k st).
Proof.
  unfold write_flags.
  generalize (indices (flags k st)) as idx. intros idx.
  induction idx as [|i idx IH] using rev_ind; [done|].
  rewrite foldl_snoc. destruct IH as (Hmode & Hhist & Hlen & Hflags).
  set (st' := foldl _ st idx) in *. repeat split.
  - by rewrite (set_mode ops laws).
  - etrans; [apply (set_history ops laws)|done].
  - intros k'. by rewrite (set_length ops laws).
  - intros Hsame. rewrite <- (Hflags Hsame). apply list_eq. intros j.
    destruct (decide (i = j)) as [<-|Hne]; [|by apply (set_other ops laws)].
    destruct (flags k st' !! i) as [b|] eqn:Hi.
    + pose proof Hi as Hi'. rewrite (Hflags Hsame) in Hi'.
      rewrite (Hsame i b Hi'). by apply (set_same ops laws).
    + apply lookup_ge_None. rewrite (set_length ops laws). by apply lookup_ge_None.
Qed.

Lemma set_mode_flags_same st : set_mode_flags (mesh_select_mode st) st = st.
Proof. by destruct st. Qed.

Lemma restore_unfold s st :
  restore ops s st =
    if decide (active s ≠ (-1)%Z) then
      match type_to_items (prepared ops s st) (active_type s) with
      | (Some k, len) =>
        match elem_index (prepared ops s st) k len (active s) with
        | Some i => Ok (history_add (k, i) (prepared ops s st))
        | None => Raise IndexError
        end
      | (None, _) => Raise IndexError
      end
    else Ok (prepared ops s st).
Proof.
  unfold restore, prepared, mode_kind.
  destruct (mode0 (mode s)); [done|]. by destruct (mode1 (mode s)).
Qed.

Lemma prepared_length s st k :
  length (flags k (prepared ops s st)) = length (flags k st).
Proof.
  unfold prepared. rewrite (flush_length ops laws).
  destruct (write_flags_spec (mode_kind (mode s))
              (match mode_kind (mode s) with
               | VERT => selected_verts s | EDGE => selected_edges s
               | FACE => selected_faces s end)
              (set_mode_flags (mode s) st)) as (_ & _ & Hlen & _).
  rewrite Hlen. by destruct k.
Qed.

Lemma type_to_items_length s st t :
  (type_to_items (prepared ops s st) t).2 = (type_to_items st t).2.
Proof.
  destruct t; simpl; try done.
  - apply (prepared_length s st VERT).
  - apply (prepared_length s st EDGE).
  - apply (prepared_length s st FACE).
Qed.

End WithHost.

(** The index tables are as they were when [restore] looks the active
    element up. *)
Lemma prepared_tables ops s st :
  TableLaws ops → elem_table_dirty (prepared ops s st) = elem_table_dirty st.
Proof.
  intros tables. unfold prepared. rewrite (flush_tables ops tables).
  unfold write_flags.
  generalize (indices (flags (mode_kind (mode s)) (set_mode_flags (mode s) st))) as idx.
  intros idx. induction idx as [|i idx IH] using rev_ind; [done|].
  by rewrite foldl_snoc, (set_tables ops tables).
Qed.

Lemma plain_tables : TableLaws plain_ops.
Proof. split; [by intros [] i b st|done]. Qed.

(** The plain host meets the laws. *)
Lemma plain_ops_laws : SelectLaws plain_ops.
Proof.
  split; simpl.
  - intros [] i b st Hi; simpl in *; apply list_lookup_insert_eq; by eapply lookup_lt_Some.
  - intros [] i j b st Hne; simpl; by apply list_lookup_insert_ne.
  - intros [] [] i b st; simpl; by rewrite ?length_insert.
  - by intros [] i b st.
  - by intros [] i b st.
  - intros st. by destruct (mode_kind _).
  - by intros [] st.
  - done.
  - intros st. apply sublist_filter.
Qed.

End SelectionFacts.

(** C5.  On a state with an active element of a kind whose index table is
    outdated, capture followed by restore on the same, unchanged state does
    not return: [restore] sets the mode, writes the select flags, flushes,
    and then raises IndexError where it looks the active element up
    ([items[self.active]]), so the active element is not restored. *)
Theorem restore_raises_on_outdated_table ops st k i :
  TableLaws ops →
  history_active st = Some (k, i) →
  k ∈ elem_table_dirty st →
  restore ops (from_context st) st = Raise IndexError.
Proof.
  intros tables Hactive Hdirty.
  rewrite (SelectionFacts.restore_unfold ops).
  assert (Hs : active (from_context st) = Z.of_nat i ∧
               active_type (from_context st) = type_of k).
  { unfold from_context. by rewrite Hactive. }
  destruct Hs as [-> ->].
  destruct (decide (Z.of_nat i ≠ (-1)%Z)) as [_|Hne]; [|lia].
  assert (Hitems : (type_to_items (prepared ops (from_context st) st) (type_of k)).1 = Some k)
    by (by destruct k).
  destruct (type_to_items _ (type_of k)) as [k' len]. simpl in Hitems. subst k'.
  unfold elem_index.
  rewrite (SelectionFacts.prepared_tables ops _ _ tables), bool_decide_eq_true_2; done.
Qed.

Lemma restore_raises_on_outdated_table_witness :
  history_active outdated_table_state = Some (VERT, 2) ∧
  2 < length (vert_select outdated_table_state) ∧
  restore plain_ops (from_context outdated_table_state) outdated_table_state
    = Raise IndexError.
Proof.
  split; [reflexivity|]. split; [simpl; lia|].
  apply (restore_raises_on_outdated_table plain_ops outdated_table_state VERT 2).
  - apply SelectionFacts.plain_tables.
  - reflexivity.
  - vm_compute. left.
Defined.

(** C6.  When the snapshot has an active index other than -1 and that index
    is not a position of the sequence that [restore] looks it up in (the
    elements of the captured type, or the empty default for an unknown type),
    [restore] raises IndexError; it does not complete. *)
Theorem restore_raises_on_stale_active ops s st :
  SelectLaws ops →
  active s ≠ (-1)%Z →
  py_index (type_to_items st (active_type s)).2 (active s) = None →
  restore ops s st = Raise IndexError.
Proof.
  intros laws Hactive Hstale.
  rewrite (SelectionFacts.restore_unfold ops).
  destruct (decide (active s ≠ (-1)%Z)); [|done].
  rewrite <- (SelectionFacts.type_to_items_length ops laws s st) in Hstale.
  destruct (type_to_items (prepared ops s st) (active_type s)) as [[k|] len]; [|done].
  simpl in Hstale. unfold elem_index. rewrite Hstale. by case_bool_decide.
Qed.

Lemma restore_raises_on_stale_active_witness :
  restore plain_ops stale_snapshot no_active_state = Raise IndexError.
Proof.
  apply (restore_raises_on_stale_active plain_ops stale_snapshot no_active_state).
  - apply SelectionFacts.plain_ops_laws.
  - vm_compute. discriminate.
  - vm_compute. reflexivity.
Defined.

(** ** Walks from opposite ends of a chain *)

Module ChainFacts.

Lemma forallb_elem_of {A} (f : A → bool) (l : list A) (x : A) :
  forallb f l = true → x ∈ l → f x = true.
Proof. rewrite forallb_forall. intros H Hx. apply H. by apply list_elem_of_In. Qed.

Lemma same_members_spec l k x : same_members l k = true → x ∈ l ↔ x ∈ k.
Proof.
  unfold same_members. rewrite !andb_true_iff. intros [[_ Hlk] Hkl]. split; intros Hx.
  - pose proof (forallb_elem_of _ _ _ Hlk Hx) as Hb. by apply bool_decide_eq_true in Hb.
  - pose proof (forallb_elem_of _ _ _ Hkl Hx) as Hb. by apply bool_decide_eq_true in Hb.
Qed.

Lemma elem_of_indices {A} (l : list A) (i : nat) : i ∈ indices l ↔ i < length l.
Proof. unfold indices. rewrite elem_of_seq. lia. Qed.

Lemma link_edges_in_range bm v e :
  e ∈ link_edges (vert bm v) → v < length (bm_verts bm).
Proof.
  intros He. destruct (decide (v < length (bm_verts bm))) as [|Hge]; [done|].
  unfold vert in He. rewrite lookup_ge_None_2 in He by lia. simpl in He.
  by apply elem_of_nil in He.
Qed.

(** In a well-formed mesh the incident edges of a vertex are the edges of
    the mesh that have it as an end. *)
Lemma wf_link_edges bm v e :
  wf_mesh bm = true → v < length (bm_verts bm) →
  e ∈ link_edges (vert bm v) ↔ e < length (bm_edges bm) ∧ edge_has bm e v = true.
Proof.
  intros Hwf Hv. unfold wf_mesh in Hwf. apply andb_true_iff in Hwf as [_ Hverts].
  apply (forallb_elem_of _ _ v) in Hverts; [|by apply elem_of_indices].
  cbv beta in Hverts. unfold wf_vert in Hverts. rewrite !andb_true_iff in Hverts.
  destruct Hverts as [[[Hlink _] _] _].
  rewrite (same_members_spec _ _ e Hlink), list_elem_of_filter, elem_of_indices. tauto.
Qed.

Lemma wf_edge_ends bm e :
  wf_mesh bm = true → e < length (bm_edges bm) →
  (verts (edge bm e)).1 < length (bm_verts bm) ∧
  (verts (edge bm e)).2 < length (bm_verts bm).
Proof.
  intros Hwf He. unfold wf_mesh in Hwf. rewrite !andb_true_iff in Hwf.
  destruct Hwf as [[Hedges _] _].
  apply (forallb_elem_of _ _ e) in Hedges; [|by apply elem_of_indices].
  cbv beta in Hedges. unfold wf_edge in Hedges. destruct (verts (edge bm e)) as [a b]. simpl.
  rewrite !andb_true_iff in Hedges. destruct Hedges as [[[[Ha Hb] _] _] _].
  by apply bool_decide_eq_true in Ha, Hb.
Qed.

(** Crossing an edge from one of its ends leads to the other end, from which
    crossing it again leads back. *)
Lemma other_vert_back bm e v :
  edge_has bm e v = true →
  edge_has bm e (other_vert bm e v) = true ∧ other_vert bm e (other_vert bm e v) = v.
Proof.
  unfold edge_has, other_vert. destruct (verts (edge bm e)) as [a b]. simpl.
  rewrite !orb_true_iff, !bool_decide_eq_true. intros Hv.
  repeat case_decide; split; try tauto; try congruence; destruct Hv; congruence.
Qed.

Lemma next_edge_incident bm e h ne : next_edge bm e h = Some ne → ne ∈ link_edges (vert bm h).
Proof.
  unfold next_edge. destruct (list_find _ _) as [[i x]|] eqn:Hfind; [|done].
  intros [= <-]. apply list_find_Some in Hfind as (Hi & _). by eapply list_elem_of_lookup_2.
Qed.

Lemma reversible_step bm h e e' :
  reversibleb bm = true → is_pole bm h = false → e ∈ link_edges (vert bm h) →
  next_edge bm e h = Some e' → next_edge bm e' h = Some e.
Proof.
  intros Hrev Hpole He Hnext. unfold reversibleb in Hrev.
  apply (forallb_elem_of _ _ h) in Hrev;
    [|by eapply elem_of_indices, link_edges_in_range].
  cbv beta in Hrev. rewrite Hpole in Hrev. simpl in Hrev.
  apply (forallb_elem_of _ _ e) in Hrev; [|done].
  cbv beta in Hrev. rewrite Hnext in Hrev. by apply bool_decide_eq_true in Hrev.
Qed.

(** On a well-formed mesh the scan can select the starting edge only at one
    of its two ends.  A walk that stops there is closed when that end is the
    start vertex; otherwise it is back at the first vertex it reached. *)
Lemma start_edge_selected_at_an_end bm e0 start fuel stop l :
  wf_mesh bm = true → e0 ∈ link_edges (vert bm start) →
  find_loop fuel bm e0 start stop = Some l →
  next_edge bm (last_of (edges l)) (last_of (vertices l)) = Some e0 →
  is_closed l = true ∨ last_of (vertices l) = other_vert bm e0 start.
Proof.
  intros Hwf Hstart Hloop Hnext.
  apply LoopFacts.find_loop_shape in Hloop as (vs' & es' & Hv & _).
  apply next_edge_incident in Hnext.
  pose proof (link_edges_in_range _ _ _ Hnext) as Hz.
  apply (wf_link_edges bm _ e0 Hwf Hz) in Hnext as [_ Hend].
  pose proof (link_edges_in_range _ _ _ Hstart) as Hs.
  apply (wf_link_edges bm _ e0 Hwf Hs) in Hstart as [_ Hstart].
  unfold is_closed, last_of in *. rewrite Hv in *. simpl head.
  destruct (last (start :: other_vert bm e0 start :: vs')) as [z|] eqn:Hlast;
    [|by apply last_None in Hlast].
  simpl in *. unfold edge_has, other_vert in *.
  destruct (verts (edge bm e0)) as [a b]. simpl in *.
  apply orb_true_iff in Hend as [Hend|Hend]; apply bool_decide_eq_true in Hend;
  apply orb_true_iff in Hstart as [Hs'|Hs']; apply bool_decide_eq_true in Hs'; subst;
  repeat case_decide; subst; try (by left; apply bool_decide_eq_true); by right.
Qed.

(** The forward walk, read backwards from where it stops. *)
Lemma walk_back_chain fuel bm e0 stop : ∀ last_edge tailv before vs es l,
  walk fuel bm e0 stop last_edge (other_vert bm last_edge tailv) vs es = Some l →
  last_edge ∈ link_edges (vert bm tailv) →
  back_chain bm last_edge tailv before →
  es = list.reverse (((last_edge, tailv) :: before).*1) →
  vs = list.reverse (((last_edge, tailv) :: before).*2) ++ [other_vert bm last_edge tailv] →
  ∃ e_k v_k before',
    e_k ∈ link_edges (vert bm v_k) ∧ back_chain bm e_k v_k before' ∧
    last ((e_k, v_k) :: before') = last ((last_edge, tailv) :: before) ∧
    edges l = list.reverse (((e_k, v_k) :: before').*1) ∧
    vertices l = list.reverse (((e_k, v_k) :: before').*2) ++ [other_vert bm e_k v_k].
Proof.
  induction fuel as [|fuel IH]; intros last_edge tailv before vs es l; [done|].
  rewrite LoopFacts.walk_unfold. intros Hw Hin Hchain -> ->.
  assert (Hstop : Some (close_off
      (list.reverse (((last_edge, tailv) :: before).*2) ++ [other_vert bm last_edge tailv])
      (list.reverse (((last_edge, tailv) :: before).*1))) = Some l →
    ∃ e_k v_k before',
      e_k ∈ link_edges (vert bm v_k) ∧ back_chain bm e_k v_k before' ∧
      last ((e_k, v_k) :: before') = last ((last_edge, tailv) :: before) ∧
      edges l = list.reverse (((e_k, v_k) :: before').*1) ∧
      vertices l = list.reverse (((e_k, v_k) :: before').*2) ++ [other_vert bm e_k v_k]).
  { intros [= <-]. by exists last_edge, tailv, before. }
  set (head := other_vert bm last_edge tailv) in *.
  destruct (is_pole bm head) eqn:Hpole; [by apply Hstop|].
  destruct (bool_decide (head ∈ stop)); [by apply Hstop|]. simpl in Hw.
  destruct (next_edge bm last_edge head) as [ne|] eqn:Hnext; [|by apply Hstop].
  destruct (decide (ne = e0)); [by apply Hstop|].
  apply (IH ne head ((last_edge, tailv) :: before)) in Hw
    as (e_k & v_k & before' & ? & ? & Hlast & ? & ?).
  - by exists e_k, v_k, before'.
  - by eapply next_edge_incident.
  - simpl. by repeat split.
  - simpl. by rewrite !reverse_cons.
  - simpl. by rewrite !reverse_cons.
Qed.

(** The walk back along a chain, on a well-formed mesh with a reversible
    scan: it retraces the chain to its first edge and stops there. *)
Lemma walk_retraces bm e0' :
  wf_mesh bm = true → reversibleb bm = true →
  ∀ before e h fuel vs es,
  back_chain bm e h before →
  e ∈ link_edges (vert bm h) →
  e0' ∉ before.*1 →
  (∀ e0 a, last ((e, h) :: before) = Some (e0, a) →
           is_pole bm a = true ∨ next_edge bm e0 a = None) →
  length before < fuel →
  walk fuel bm e0' ∅ e h vs es = Some (close_off (vs ++ before.*2) (es ++ before.*1)).
Proof.
  intros Hwf Hrev. induction before as [|[e' v'] rest IH];
    intros e h fuel vs es Hchain Hin Hfresh Hend Hfuel;
    (destruct fuel as [|fuel]; [simpl in Hfuel; lia|]); rewrite LoopFacts.walk_unfold.
  - simpl. rewrite !app_nil_r.
    destruct (Hend e h eq_refl) as [-> | ->]; [done|].
    by destruct (is_pole bm h || bool_decide (h ∈ (∅ : gset nat))).
  - destruct Hchain as (Hpole & Hnext & Hh & Hin' & Hchain).
    rewrite Hpole. rewrite bool_decide_eq_false_2 by apply not_elem_of_empty. simpl.
    pose proof (link_edges_in_range _ _ _ Hin') as Hv'.
    pose proof (proj1 (wf_link_edges bm v' e' Hwf Hv') Hin') as [He' Hhas].
    destruct (other_vert_back bm e' v' Hhas) as [Hhas' Hback]. rewrite <- Hh in Hhas', Hback.
    assert (He'h : e' ∈ link_edges (vert bm h)).
    { apply wf_link_edges; [done| |done].
      destruct (wf_edge_ends bm e' Hwf He') as [Ha Hb].
      unfold edge_has in Hhas'. apply orb_true_iff in Hhas' as [Hx|Hx];
        apply bool_decide_eq_true in Hx; by rewrite Hx. }
    rewrite (reversible_step bm h e' e Hrev Hpole He'h Hnext).
    simpl in Hfresh. apply not_elem_of_cons in Hfresh as [Hne Hfresh].
    destruct (decide (e' = e0')) as [->|_]; [done|].
    rewrite Hback.
    rewrite (IH e' v' fuel (vs ++ [v']) (es ++ [e'])); try done.
    + simpl. by rewrite <- !app_assoc.
    + simpl in Hfuel. lia.
Qed.

End ChainFacts.

(** C8, amended.  Two loops are equal exactly when their edge sets are equal,
    whatever the order and direction of their sequences, and a loop equals
    its [reverse()].  On a well-formed mesh whose scan is reversible, a walk
    that starts at an end of a chain (a pole, or a vertex with no next edge
    for the starting edge) and passes no edge twice is retraced by the walk
    from its other end: that walk returns the reversed sequences, hence an
    equal loop. *)
Theorem loop_equality_and_opposite_walks :
  (∀ l1 l2, loop_eqb l1 l2 = true ↔ edge_set l1 = edge_set l2) ∧
  (∀ l, loop_eqb l (Loops.reverse l) = true) ∧
  (∀ bm e a fuel l,
     wf_mesh bm = true → reversibleb bm = true →
     e ∈ link_edges (vert bm a) →
     is_pole bm a = true ∨ next_edge bm e a = None →
     find_loop fuel bm e a ∅ = Some l →
     NoDup (edges l) →
     ∀ fuel', length (edges l) ≤ fuel' →
     ∃ l', find_loop fuel' bm (last_of (edges l)) (last_of (vertices l)) ∅ = Some l' ∧
           vertices l' = list.reverse (vertices l) ∧
           edges l' = list.reverse (edges l) ∧
           loop_eqb l l' = true).
Proof.
  split; [|split].
  - intros l1 l2. apply bool_decide_eq_true.
  - intros l. by apply bool_decide_eq_true.
  - intros bm e a fuel l Hwf Hrev Hin Hend Hfwd Hnd fuel' Hfuel.
    pose proof (SearchFacts.find_loop_ok _ _ _ _ _ _ Hfwd) as Hok.
    unfold find_loop in Hfwd.
    apply (ChainFacts.walk_back_chain _ _ _ _ e a []) in Hfwd
      as (e_k & v_k & before & Hin_k & Hchain & Hlast & Hes & Hvs); try done.
    set (z := other_vert bm e_k v_k) in *.
    assert (He : last_of (edges l) = e_k).
    { unfold last_of. by rewrite Hes, last_reverse. }
    assert (Hv : last_of (vertices l) = z).
    { unfold last_of. by rewrite Hvs, last_snoc. }
    rewrite He, Hv.
    pose proof (ChainFacts.link_edges_in_range _ _ _ Hin_k) as Hv_k.
    pose proof (proj1 (ChainFacts.wf_link_edges bm v_k e_k Hwf Hv_k) Hin_k) as [_ Hhas].
    destruct (ChainFacts.other_vert_back bm e_k v_k Hhas) as [_ Hback]. fold z in Hback.
    eexists. split; [|split; [|split]].
    + unfold find_loop. rewrite Hback.
      apply (ChainFacts.walk_retraces bm e_k Hwf Hrev before e_k v_k); try done.
      * rewrite Hes, reverse_Permutation in Hnd.
        by apply NoDup_cons in Hnd as [Hfresh _].
      * intros e0 a0. rewrite Hlast. by intros [= <- <-].
      * rewrite Hes, length_reverse in Hfuel. simpl in Hfuel.
        rewrite length_fmap in Hfuel. lia.
    + simpl. by rewrite Hvs, reverse_app, reverse_involutive.
    + simpl. by rewrite Hes, reverse_involutive.
    + apply bool_decide_eq_true. cbn [edge_set close_off].
      rewrite Hok, Hes. apply set_eq. intros x.
      by rewrite !elem_of_list_to_set, elem_of_reverse.
Qed.

Lemma loop_equality_and_opposite_walks_witness :
  ∃ l', find_loop 2 grid3x3 1 2 ∅ = Some l' ∧
        vertices l' = list.reverse [0; 1; 2] ∧
        edges l' = list.reverse [0; 1] ∧
        loop_eqb (close_off [0; 1; 2] [0; 1]) l' = true.
Proof.
  apply (proj2 (proj2 loop_equality_and_opposite_walks) grid3x3 0 0 2
               (close_off [0; 1; 2] [0; 1])).
  - vm_compute. reflexivity.
  - vm_compute. reflexivity.
  - apply (bool_decide_unpack _). vm_compute. reflexivity.
  - left. vm_compute. reflexivity.
  - vm_compute. reflexivity.
  - apply (bool_decide_unpack _). vm_compute. reflexivity.
  - simpl. lia.
Defined.

(** ** pure_edge_loops misses no edge *)

Module PureLoopsFacts.

(** Between two steps of either pass, the visited edges are the edges of the
    loops found so far. *)
Lemma visit_spec fuel bm start st e st' :
  visit fuel bm start st e = Some st' →
  st.2 = loops_union st.1 →
  st'.2 = loops_union st'.1 ∧ st.2 ⊆ st'.2 ∧ e ∈ st'.2.
Proof.
  unfold visit. intros Hv Hinv. case_bool_decide as He.
  - simplify_eq. by repeat split.
  - destruct (find_loop fuel bm e start ∅) as [loop|] eqn:Hloop; [simpl in Hv|done].
    injection Hv as <-. simpl.
    pose proof (LoopFacts.find_loop_has_edge _ _ _ _ _ _ Hloop).
    rewrite SearchFacts.loops_union_app, <- Hinv.
    split; [done|]. split; [apply union_subseteq_l|]. apply elem_of_union. by right.
Qed.

Lemma visit_all_spec fuel bm (start_of : nat → nat) : ∀ es st st',
  for_each (λ st e, visit fuel bm (start_of e) st e) es st = Some st' →
  st.2 = loops_union st.1 →
  st'.2 = loops_union st'.1 ∧ st.2 ⊆ st'.2 ∧ ∀ e, e ∈ es → e ∈ st'.2.
Proof.
  induction es as [|e es IH]; intros st st' Hrun Hinv; simpl in Hrun.
  { injection Hrun as <-. split; [done|]. split; [done|]. intros e He.
    by apply elem_of_nil in He. }
  destruct (visit fuel bm (start_of e) st e) as [st1|] eqn:Hv; [simpl in Hrun|done].
  apply visit_spec in Hv as (Hinv1 & Hsub1 & He1); [|done].
  apply IH in Hrun as (Hinv' & Hsub' & Hall); [|done].
  split; [done|]. split; [by etrans|].
  intros e' [->|He']%elem_of_cons; [by apply Hsub'|by apply Hall].
Qed.

Lemma first_pass_spec fuel bm : ∀ poles st st',
  for_each (λ st pole, for_each (visit fuel bm pole) (link_edges (vert bm pole)) st)
           poles st = Some st' →
  st.2 = loops_union st.1 → st'.2 = loops_union st'.1.
Proof.
  induction poles as [|pole poles IH]; intros st st' Hrun Hinv; simpl in Hrun.
  { by simplify_eq. }
  destruct (for_each (visit fuel bm pole) _ st) as [st1|] eqn:Hpole; [simpl in Hrun|done].
  apply (visit_all_spec fuel bm (λ _, pole)) in Hpole as (Hinv1 & _); [|done].
  by apply (IH st1).
Qed.

(** No edge of the mesh is missed: each is in the edge set of some returned
    loop. *)
Lemma pure_edge_loops_cover fuel bm pole_order ls e :
  pure_edge_loops fuel bm pole_order = Some ls →
  e < length (bm_edges bm) →
  ∃ l, l ∈ ls ∧ e ∈ edge_set l.
Proof.
  unfold pure_edge_loops. intros Hrun He.
  destruct (for_each _ pole_order _) as [st1|] eqn:Hfirst; [simpl in Hrun|done].
  destruct (for_each _ (indices (bm_edges bm)) st1) as [st2|] eqn:Hsecond;
    [simpl in Hrun|done].
  injection Hrun as <-.
  apply first_pass_spec in Hfirst as Hinv1; [|done].
  apply (visit_all_spec fuel bm (λ e, (verts (edge bm e)).1)) in Hsecond
    as (Hinv2 & _ & Hall); [|done].
  specialize (Hall e (proj2 (ChainFacts.elem_of_indices _ _) He)).
  rewrite Hinv2 in Hall. unfold loops_union in Hall.
  apply elem_of_union_list in Hall as (X & HX & HeX).
  apply list_elem_of_fmap in HX as (l & -> & Hl). by exists l.
Qed.

End PureLoopsFacts.

(** ** find_shortest_path *)

Import Path.

Module PathFacts.

(** *** The adjacency table *)

Lemma neighbours_append_to m a b v :
  neighbours (append_to m a b) v =
    if decide (v = a) then neighbours m a ++ [b] else neighbours m v.
Proof.
  unfold neighbours, append_to. case_decide as Hv.
  - subst v. by rewrite lookup_insert_eq.
  - by rewrite lookup_insert_ne.
Qed.

Lemma other_vert_ends bm e a b :
  verts (edge bm e) = (a, b) → other_vert bm e a = b ∧ other_vert bm e b = a.
Proof.
  unfold other_vert. intros ->. split; [by rewrite decide_True|].
  case_decide; congruence.
Qed.

(** The table lists [w] under [v] exactly when an edge that is not excluded
    joins them. *)
Lemma vert_to_verts_spec bm excl v w :
  w ∈ neighbours (vert_to_verts bm excl) v ↔ joined bm excl v w.
Proof.
  unfold vert_to_verts, joined.
  assert (Hfold : ∀ es m,
    w ∈ neighbours (foldl (λ m e,
           if bool_decide (e ∈ excl) then m
           else let '(a, b) := verts (edge bm e) in
                append_to (append_to m a (other_vert bm e a)) b (other_vert bm e b))
        m es) v ↔
    w ∈ neighbours m v ∨
    ∃ e, e ∈ es ∧ (e ∉ excl) ∧
         (verts (edge bm e) = (v, w) ∨ verts (edge bm e) = (w, v))).
  { induction es as [|e es IH]; intros m; simpl.
    { split; [by left|]. intros [?|(e & He & _)]; [done|]. by apply elem_of_nil in He. }
    rewrite IH. clear IH. case_bool_decide as Hex.
    - split; (intros [?|(e' & He' & Hne & Hv)]; [by left|right]).
      + exists e'. split; [by right|done].
      + exists e'. split; [|done]. apply elem_of_cons in He' as [->|]; done.
    - destruct (verts (edge bm e)) as [a b] eqn:Hab.
      destruct (other_vert_ends bm e a b Hab) as [-> ->].
      rewrite !neighbours_append_to.
      split.
      + intros [Hin|(e' & He' & Hne & Hv)].
        * repeat case_decide; subst;
            repeat (apply elem_of_app in Hin as [Hin|Hin]);
            try (apply list_elem_of_singleton in Hin; subst);
            try (by left); right; exists e; (split; [left|]); rewrite ?Hab; auto.
        * right. exists e'. split; [by right|done].
      + intros [Hin|(e' & He' & Hne & Hv)].
        * left. repeat case_decide; subst; rewrite ?elem_of_app; auto.
        * apply elem_of_cons in He' as [->|He'].
          -- left. rewrite Hab in Hv.
             destruct Hv as [[= -> ->]|[= -> ->]]; repeat case_decide;
               rewrite ?elem_of_app, ?list_elem_of_singleton; auto; congruence.
          -- right. by exists e'. }
  rewrite Hfold. unfold neighbours at 1. rewrite lookup_empty. simpl.
  split.
  - intros [Hin|(e & He & Hne & Hv)]; [by apply elem_of_nil in Hin|].
    exists e. split; [|done]. by apply ChainFacts.elem_of_indices in He.
  - intros (e & He & Hne & Hv). right. exists e.
    split; [|done]. by apply ChainFacts.elem_of_indices.
Qed.

End PathFacts.

Module BfsFacts.

Section Graph.
Context (bm : BMesh) (excl : gset nat) (start : nat).

Lemma follows_edges_snoc p w :
  follows_edges bm excl (p ++ [w]) ↔
  follows_edges bm excl p ∧ (∀ u, last p = Some u → joined bm excl u w).
Proof.
  induction p as [|a [|b p] IH].
  - simpl. split; [|done]. intros _. split; [done|]. by intros u [=].
  - simpl. split.
    + intros [Hj _]. split; [done|]. by intros u [= <-].
    + intros [_ Hj]. split; [|done]. by apply Hj.
  - change (follows_edges bm excl ((a :: b :: p) ++ [w]))
      with (joined bm excl a b ∧ follows_edges bm excl ((b :: p) ++ [w])).
    change (follows_edges bm excl (a :: b :: p))
      with (joined bm excl a b ∧ follows_edges bm excl (b :: p)).
    rewrite IH. rewrite last_cons_cons. tauto.
Qed.

(** A path of [n + 1] vertices from [start] shows that its last vertex is
    [n] edges away. *)
Lemma path_reach p b :
  path_between bm excl start b p → reach bm excl start (length p - 1) b.
Proof.
  intros (Hhead & Hlast & Hfollows). revert b Hhead Hlast Hfollows.
  induction p as [|w p IH] using rev_ind; intros b Hhead Hlast Hfollows; [done|].
  rewrite last_snoc in Hlast. injection Hlast as ->.
  apply follows_edges_snoc in Hfollows as [Hfollows Hj].
  destruct p as [|a p].
  - simpl in Hhead. injection Hhead as ->. constructor.
  - destruct (last (a :: p)) as [u|] eqn:Hu; [|by apply last_None in Hu].
    rewrite length_app. simpl. replace (length p + 1 - 0) with (S (length p)) by lia.
    apply (reach_S _ _ _ _ u); [|by apply Hj].
    specialize (IH u Hhead eq_refl Hfollows). simpl in IH.
    by replace (length p - 0) with (length p) in IH by lia.
Qed.

End Graph.

Section Search.
Context (set_iter : list nat → list nat) (Hiter : set_order set_iter).
Context (bm : BMesh) (excl : gset nat) (start end_index : nat).

Let vtv := vert_to_verts bm excl.

(** The entries that one iteration appends for [current_vert] *)
Let pushed (current_vert : nat) (path : list nat) : list (nat * list nat) :=
  let non_sharing :=
    set_iter (filter (λ v, prefers bm path v = true) (neighbours vtv current_vert)) in
  ((λ v, (v, path ++ [current_vert])) <$> non_sharing) ++
  ((λ v, (v, path ++ [current_vert])) <$>
     filter (λ v, v ∉ non_sharing) (neighbours vtv current_vert)).

Lemma bfs_unfold fuel cur path queue searched :
  bfs set_iter (S fuel) bm vtv end_index ((cur, path) :: queue) searched =
    if bool_decide (cur ∈ searched)
    then bfs set_iter fuel bm vtv end_index queue searched
    else if decide (cur = end_index) then Some (Some (path ++ [cur]))
    else bfs set_iter fuel bm vtv end_index (queue ++ pushed cur path)
             ({[cur]} ∪ searched).
Proof.
  simpl. case_bool_decide; [done|]. by case_decide.
Qed.

Lemma elem_of_set_iter l x : x ∈ set_iter l ↔ x ∈ l.
Proof. by rewrite (Hiter l), elem_of_remove_dups. Qed.

(** The appended entries are the neighbours of [current_vert], each with the
    path extended by [current_vert]. *)
Lemma elem_of_pushed cur path x :
  x ∈ pushed cur path ↔ x.2 = path ++ [cur] ∧ joined bm excl cur x.1.
Proof.
  unfold pushed. rewrite <- (PathFacts.vert_to_verts_spec bm excl cur x.1). fold vtv.
  rewrite elem_of_app, !list_elem_of_fmap. split.
  - intros [(v & -> & Hv)|(v & -> & Hv)]; simpl; (split; [done|]).
    + apply elem_of_set_iter, list_elem_of_filter in Hv. tauto.
    + apply list_elem_of_filter in Hv. tauto.
  - destruct x as [v pth]. simpl. intros [-> Hv].
    set (ns := set_iter (filter _ (neighbours vtv cur))).
    destruct (decide (v ∈ ns)) as [Hin|Hout].
    + left. by exists v.
    + right. exists v. split; [done|]. by apply list_elem_of_filter.
Qed.

Lemma length_filter_disjoint (P Q : nat → Prop) `{∀ x, Decision (P x)} `{∀ x, Decision (Q x)}
    (l : list nat) :
  (∀ x, x ∈ l → P x → Q x → False) →
  length (filter P l) + length (filter Q l) ≤ length l.
Proof.
  induction l as [|x l IH]; intros Hdisj; [done|].
  rewrite !filter_cons.
  assert (Hl : length (filter P l) + length (filter Q l) ≤ length l).
  { apply IH. intros y Hy. apply Hdisj. by right. }
  specialize (Hdisj x (list_elem_of_here _ _)).
  repeat case_decide; simpl; try lia. tauto.
Qed.

Lemma length_remove_dups_le (l : list nat) : length (remove_dups l) ≤ length l.
Proof. induction l as [|x l IH]; simpl; [done|]. case_decide; simpl; lia. Qed.

Lemma length_pushed cur path : length (pushed cur path) ≤ length (neighbours vtv cur).
Proof.
  unfold pushed. rewrite length_app, !length_fmap.
  set (adj := neighbours vtv cur).
  set (P := λ v, prefers bm path v = true).
  assert (Hns : length (set_iter (filter P adj)) ≤ length (filter P adj)).
  { rewrite (Hiter (filter P adj)). apply length_remove_dups_le. }
  pose proof (length_filter_disjoint P (λ v, v ∉ set_iter (filter P adj)) adj) as Hd.
  cut (length (filter P adj) + length (filter (λ v, v ∉ set_iter (filter P adj)) adj)
       ≤ length adj); [lia|].
  apply Hd. intros x Hx HP Hnot. apply Hnot, elem_of_set_iter.
  by apply list_elem_of_filter.
Qed.

Local Abbreviation inv := (bfs_inv bm excl start end_index).

Lemma inv_init : inv 0 [(start, [])] ∅.
Proof.
  split.
  - intros v path [= -> ->]%list_elem_of_singleton. done.
  - exists [(start, [])], []. repeat split; repeat constructor.
  - right. simpl. left.
  - intros k w _ Hk. lia.
  - intros w Hw. inversion Hw; subst. right. exists []. split; [left|done].
  - intros u w Hu. by apply not_elem_of_empty in Hu.
  - apply not_elem_of_empty.
Qed.

(** When no entry at distance [d] is left, the front of the queue is at
    distance [d + 1]. *)
Lemma inv_shift d queue searched :
  inv d queue searched → Forall (λ x, length x.2 = S d) queue →
  inv (S d) queue searched.
Proof.
  intros Hinv Hall.
  assert (Hd : ∀ w, reach bm excl start d w → w ∈ searched).
  { intros w Hw. destruct (inv_level _ _ _ _ _ _ _ Hinv w Hw) as [|(path & Hin & Hlen)]; [done|].
    rewrite Forall_forall in Hall. specialize (Hall _ Hin). simpl in Hall. lia. }
  split.
  - apply Hinv.
  - exists queue, []. rewrite app_nil_r. repeat split; [done|constructor].
  - apply Hinv.
  - intros k w Hw Hk. destruct (decide (k = d)) as [->|]; [by apply Hd|].
    apply (inv_below _ _ _ _ _ _ _ Hinv k); [done|lia].
  - intros w Hw. inversion Hw as [|k u w' Hu Hj]; subst.
    destruct (inv_closed _ _ _ _ _ _ _ Hinv u w (Hd u Hu) Hj) as [|Hq]; [by left|].
    right. apply list_elem_of_fmap in Hq as ([w' path] & -> & Hin).
    exists path. split; [done|]. rewrite Forall_forall in Hall. apply (Hall _ Hin).
  - apply Hinv.
  - apply Hinv.
Qed.

Lemma inv_front d cur path queue searched :
  inv d ((cur, path) :: queue) searched →
  ∃ d', inv d' ((cur, path) :: queue) searched ∧ length path = d'.
Proof.
  intros Hinv. destruct (inv_levels _ _ _ _ _ _ _ Hinv) as (q1 & q2 & Hq & H1 & H2).
  destruct q1 as [|x q1]; simpl in Hq.
  - subst q2. exists (S d). split; [by apply inv_shift|].
    by apply Forall_cons in H2 as [? _].
  - injection Hq as <- _. exists d. split; [done|]. by apply Forall_cons in H1 as [? _].
Qed.

(** The front entries, once the first of them is known to be at distance [d] *)
Lemma levels_tail d cur path queue searched :
  inv d ((cur, path) :: queue) searched → length path = d →
  ∃ q1 q2, queue = q1 ++ q2 ∧
    Forall (λ x, length x.2 = d) q1 ∧ Forall (λ x, length x.2 = S d) q2.
Proof.
  intros Hinv Hlen. destruct (inv_levels _ _ _ _ _ _ _ Hinv) as (q1 & q2 & Hq & H1 & H2).
  destruct q1 as [|x q1]; simpl in Hq.
  - subst q2. apply Forall_cons in H2 as [H2 _]. simpl in H2. lia.
  - injection Hq as _ ->. apply Forall_cons in H1 as [_ H1]. by exists q1, q2.
Qed.

(** An entry whose vertex was searched before is dropped. *)
Lemma inv_skip d cur path queue searched :
  inv d ((cur, path) :: queue) searched → length path = d → cur ∈ searched →
  inv d queue searched.
Proof.
  intros Hinv Hlen Hcur. split.
  - intros v pth Hin. apply (inv_sound _ _ _ _ _ _ _ Hinv). by right.
  - by eapply levels_tail.
  - destruct (inv_start _ _ _ _ _ _ _ Hinv) as [|Hs]; [by left|].
    simpl in Hs. apply elem_of_cons in Hs as [->|]; [by left|by right].
  - apply Hinv.
  - intros w Hw. destruct (inv_level _ _ _ _ _ _ _ Hinv w Hw) as [|(pth & Hin & Hl)]; [by left|].
    apply elem_of_cons in Hin as [[= -> ->]|Hin]; [by left|]. right. by exists pth.
  - intros u w Hu Hj. destruct (inv_closed _ _ _ _ _ _ _ Hinv u w Hu Hj) as [|Hq]; [by left|].
    simpl in Hq. apply elem_of_cons in Hq as [->|]; [by left|by right].
  - apply Hinv.
Qed.

(** A new vertex is marked and its neighbours are appended. *)
Lemma inv_expand d cur path queue searched :
  inv d ((cur, path) :: queue) searched → length path = d →
  cur ∉ searched → cur ≠ end_index →
  inv d (queue ++ pushed cur path) ({[cur]} ∪ searched).
Proof.
  intros Hinv Hlen Hcur Hend.
  destruct (inv_sound _ _ _ _ _ _ _ Hinv cur path (list_elem_of_here _ _)) as [Hhead Hfol].
  split.
  - intros v pth [Hin|Hin]%elem_of_app.
    + apply (inv_sound _ _ _ _ _ _ _ Hinv). by right.
    + apply elem_of_pushed in Hin as [Hpth Hj]. simpl in Hpth, Hj. subst pth. split.
      * rewrite <- Hhead. by destruct path.
      * apply BfsFacts.follows_edges_snoc. split; [done|].
        intros u. rewrite last_snoc. by intros [= <-].
  - destruct (levels_tail _ _ _ _ _ Hinv Hlen) as (q1 & q2 & -> & H1 & H2).
    exists q1, (q2 ++ pushed cur path). rewrite <- app_assoc. repeat split; [done|].
    apply Forall_app. split; [done|]. apply Forall_forall. intros x Hx.
    apply elem_of_pushed in Hx as [-> _]. rewrite length_app. simpl. lia.
  - destruct (inv_start _ _ _ _ _ _ _ Hinv) as [|Hs]; [left; set_solver|].
    simpl in Hs. apply elem_of_cons in Hs as [->|Hs]; [left; set_solver|].
    right. rewrite fmap_app, elem_of_app. by left.
  - intros k w Hw Hk. apply elem_of_union. right. by apply (inv_below _ _ _ _ _ _ _ Hinv k).
  - intros w Hw. destruct (inv_level _ _ _ _ _ _ _ Hinv w Hw) as [|(pth & Hin & Hl)];
      [left; set_solver|].
    apply elem_of_cons in Hin as [[= -> ->]|Hin]; [left; set_solver|].
    right. exists pth. split; [|done]. apply elem_of_app. by left.
  - intros u w [Hu|Hu]%elem_of_union Hj.
    + apply elem_of_singleton in Hu as ->. right.
      apply list_elem_of_fmap. exists (w, path ++ [cur]). split; [done|].
      apply elem_of_app. right. by apply elem_of_pushed.
    + destruct (inv_closed _ _ _ _ _ _ _ Hinv u w Hu Hj) as [|Hq]; [left; set_solver|].
      simpl in Hq. apply elem_of_cons in Hq as [->|Hq]; [left; set_solver|].
      right. rewrite fmap_app, elem_of_app. by left.
  - intros [Hin|Hin]%elem_of_union.
    + apply elem_of_singleton in Hin. congruence.
    + by apply (inv_end _ _ _ _ _ _ _ Hinv).
Qed.

(** What the loop returns, from any state it can be in. *)
Lemma bfs_correct fuel : ∀ d queue searched r,
  inv d queue searched →
  bfs set_iter fuel bm vtv end_index queue searched = Some r →
  match r with
  | Some p => path_between bm excl start end_index p ∧
              ∀ k, reach bm excl start k end_index → length p ≤ S k
  | None => ∀ k, ¬ reach bm excl start k end_index
  end.
Proof.
  induction fuel as [|fuel IH]; intros d queue searched r Hinv Hrun; [done|].
  destruct queue as [|[cur path] queue].
  - injection Hrun as <-.
    assert (Hall : ∀ k w, reach bm excl start k w → w ∈ searched).
    { induction 1 as [|k u w _ IHu Hj].
      - destruct (inv_start _ _ _ _ _ _ _ Hinv) as [|Hs]; [done|]. by apply elem_of_nil in Hs.
      - destruct (inv_closed _ _ _ _ _ _ _ Hinv u w IHu Hj) as [|Hq]; [done|].
        by apply elem_of_nil in Hq. }
    intros k Hk. by apply (inv_end _ _ _ _ _ _ _ Hinv), (Hall k).
  - rename Hrun into Hrun0.
    destruct (inv_front _ _ _ _ _ Hinv) as (d' & Hinv' & Hlen).
    clear d Hinv. rename d' into d, Hinv' into Hinv.
    rewrite bfs_unfold in Hrun0. case_bool_decide as Hcur.
    { apply (IH d) in Hrun0; [done|]. by apply inv_skip with cur path. }
    case_decide as Hend.
    { injection Hrun0 as <-. subst cur.
      destruct (inv_sound _ _ _ _ _ _ _ Hinv end_index path (list_elem_of_here _ _))
        as [Hhead Hfol].
      split; [by repeat split; [|apply last_snoc|]|].
      intros k Hk. rewrite length_app. simpl.
      destruct (decide (k < length path)) as [Hlt|]; [|lia].
      exfalso. apply Hcur. apply (inv_below _ _ _ _ _ _ _ Hinv k); [done|lia]. }
    apply (IH d) in Hrun0; [done|]. by apply inv_expand.
Qed.

(** The queue entry that reaches [end_index] first is the one returned:
    entries before it are dropped or expanded, and what they append comes
    after it. *)
Lemma bfs_returns_first_arrival : ∀ before path after searched fuel,
  Forall (λ x, x.1 ≠ end_index) before → end_index ∉ searched →
  length before < fuel →
  bfs set_iter fuel bm vtv end_index (before ++ (end_index, path) :: after) searched
    = Some (Some (path ++ [end_index])).
Proof.
  induction before as [|[cur pth] before IH]; intros path after searched fuel Hne Hend Hfuel;
    (destruct fuel as [|fuel]; [simpl in Hfuel; lia|]).
  - simpl app. rewrite bfs_unfold. rewrite bool_decide_eq_false_2 by done.
    by rewrite decide_True.
  - apply Forall_cons in Hne as [Hcur Hne]. simpl in Hcur, Hfuel.
    change (((cur, pth) :: before) ++ (end_index, path) :: after)
      with ((cur, pth) :: (before ++ (end_index, path) :: after)).
    rewrite bfs_unfold. case_bool_decide.
    + apply IH; [done..|lia].
    + rewrite decide_False by done. rewrite <- app_assoc. simpl.
      apply IH; [done| |lia].
      rewrite elem_of_union, elem_of_singleton. intros [?|?]; congruence.
Qed.

(** *** The loop stops *)

Lemma pending_step (L : list (nat * list nat)) (searched : gset nat) cur l :
  (cur, l) ∈ L ∨ l = [] → cur ∉ searched →
  sum_list_with (λ kl, if decide (kl.1 ∈ {[cur]} ∪ searched) then 0 else length kl.2) L
    + length l
  ≤ sum_list_with (λ kl, if decide (kl.1 ∈ searched) then 0 else length kl.2) L.
Proof.
  intros Hl Hcur.
  assert (Hmono : ∀ L' : list (nat * list nat),
    sum_list_with (λ kl, if decide (kl.1 ∈ {[cur]} ∪ searched) then 0 else length kl.2) L'
    ≤ sum_list_with (λ kl, if decide (kl.1 ∈ searched) then 0 else length kl.2) L').
  { induction L' as [|[k x] L' IH]; simpl; [done|].
    destruct (decide (k ∈ searched)) as [Hin|Hout].
    - rewrite decide_True by (apply elem_of_union; by right). lia.
    - case_decide; lia. }
  induction L as [|[k x] L IH]; simpl.
  { destruct Hl as [Hl| ->]; [by apply elem_of_nil in Hl|]. simpl. lia. }
  destruct (decide ((cur, l) = (k, x))) as [[= <- <-]|Hne].
  - specialize (Hmono L).
    rewrite decide_True by (apply elem_of_union; left; by apply elem_of_singleton).
    rewrite (decide_False (P := cur ∈ searched)) by done. lia.
  - assert (Hl' : (cur, l) ∈ L ∨ l = []).
    { destruct Hl as [Hl|]; [|by right]. apply elem_of_cons in Hl as [|]; [done|by left]. }
    specialize (IH Hl'). specialize (Hmono [(k, x)]). simpl in Hmono. lia.
Qed.

Lemma pending_expand searched cur :
  cur ∉ searched →
  pending vtv ({[cur]} ∪ searched) + length (neighbours vtv cur) ≤ pending vtv searched.
Proof.
  intros Hcur. unfold pending. apply pending_step; [|done].
  unfold neighbours. destruct (vtv !! cur) as [l|] eqn:Hl; simpl; [left|by right].
  by apply elem_of_map_to_list.
Qed.

Lemma bfs_terminates fuel : ∀ queue searched,
  work_left vtv queue searched < fuel →
  is_Some (bfs set_iter fuel bm vtv end_index queue searched).
Proof.
  unfold work_left.
  induction fuel as [|fuel IH]; intros queue searched Hfuel; [lia|].
  destruct queue as [|[cur path] queue]; [by eexists|].
  rewrite bfs_unfold. simpl in Hfuel. case_bool_decide as Hcur.
  - apply IH. lia.
  - case_decide; [by eexists|]. apply IH.
    rewrite length_app. pose proof (length_pushed cur path).
    pose proof (pending_expand searched cur Hcur). lia.
Qed.

End Search.

(** *** The size of the adjacency table *)

Lemma pending_insert_fresh (m : gmap nat (list nat)) a l :
  m !! a = None → pending (<[a := l]> m) ∅ = length l + pending m ∅.
Proof. intros Hm. unfold pending. by rewrite (map_to_list_insert m a l Hm). Qed.

Lemma pending_insert (m : gmap nat (list nat)) a l :
  pending (<[a := l]> m) ∅ + length (default [] (m !! a)) = pending m ∅ + length l.
Proof.
  destruct (m !! a) as [old|] eqn:Hold.
  - pose proof (pending_insert_fresh (delete a m) a l (lookup_delete_eq m a)) as H1.
    pose proof (pending_insert_fresh (delete a m) a old (lookup_delete_eq m a)) as H2.
    rewrite insert_delete_eq in H1. rewrite (insert_delete_id m a old Hold) in H2.
    rewrite H1, H2. simpl. lia.
  - rewrite pending_insert_fresh by done. simpl. lia.
Qed.

Lemma pending_append_to (m : gmap nat (list nat)) a b :
  pending (append_to m a b) ∅ = S (pending m ∅).
Proof.
  unfold append_to. pose proof (pending_insert m a (default [] (m !! a) ++ [b])) as H.
  rewrite length_app in H. simpl in H. lia.
Qed.

Lemma pending_vert_to_verts bm excl :
  pending (vert_to_verts bm excl) ∅ ≤ 2 * length (bm_edges bm).
Proof.
  unfold vert_to_verts, indices.
  assert (Hfold : ∀ es m,
    pending (foldl (λ m e,
           if bool_decide (e ∈ excl) then m
           else let '(a, b) := verts (edge bm e) in
                append_to (append_to m a (other_vert bm e a)) b (other_vert bm e b))
        m es) ∅ ≤ pending m ∅ + 2 * length es).
  { induction es as [|e es IH]; intros m; simpl; [lia|].
    etrans; [apply IH|]. case_bool_decide; [lia|].
    destruct (verts (edge bm e)) as [a b]. rewrite !pending_append_to. lia. }
  etrans; [apply Hfold|]. unfold pending.
  rewrite map_to_list_empty, length_seq. simpl. lia.
Qed.

End BfsFacts.

Module PathTheorems.

Lemma joined_same_edges bm bm' excl a b :
  bm_edges bm' = bm_edges bm → joined bm' excl a b ↔ joined bm excl a b.
Proof. unfold joined, edge. by intros ->. Qed.

Lemma path_between_same_edges bm bm' excl a b p :
  bm_edges bm' = bm_edges bm → path_between bm' excl a b p ↔ path_between bm excl a b p.
Proof.
  intros Hedges. unfold path_between.
  assert (Hfol : follows_edges bm' excl p ↔ follows_edges bm excl p).
  { induction p as [|x [|y p] IH]; [done..|].
    change (joined bm' excl x y ∧ follows_edges bm' excl (y :: p)
            ↔ joined bm excl x y ∧ follows_edges bm excl (y :: p)).
    by rewrite IH, (joined_same_edges bm bm'). }
  by rewrite Hfol.
Qed.

(** The search returns within its budget. *)
Lemma find_shortest_path_returns set_iter fuel bm start end_index excl :
  set_order set_iter → bfs_budget bm ≤ fuel →
  is_Some (find_shortest_path set_iter fuel bm start end_index excl).
Proof.
  intros Hiter Hfuel. apply BfsFacts.bfs_terminates; try done.
  unfold work_left, bfs_budget in *. simpl.
  pose proof (BfsFacts.pending_vert_to_verts bm excl). lia.
Qed.

(** What the search returns, whenever it returns. *)
Lemma find_shortest_path_result set_iter fuel bm start end_index excl r :
  set_order set_iter →
  find_shortest_path set_iter fuel bm start end_index excl = Some r →
  match r with
  | Some p => path_between bm excl start end_index p ∧
              ∀ p', path_between bm excl start end_index p' → length p ≤ length p'
  | None => ¬ ∃ p, path_between bm excl start end_index p
  end.
Proof.
  intros Hiter Hrun.
  apply (BfsFacts.bfs_correct set_iter Hiter bm excl start end_index fuel 0) in Hrun;
    [|apply BfsFacts.inv_init].
  destruct r as [p|].
  - destruct Hrun as [Hpath Hmin]. split; [done|]. intros p' Hp'.
    pose proof (BfsFacts.path_reach _ _ _ _ _ Hp') as Hreach.
    apply Hmin in Hreach. destruct Hp' as (Hhead & _). destruct p'; [done|].
    simpl in *. lia.
  - intros (p & Hp). by apply (Hrun (length p - 1)), BfsFacts.path_reach.
Qed.

End PathTheorems.

(** C4.  A path returned by [find_shortest_path] leads from [start] to [end]
    over edges that are not excluded, and no such path has fewer vertices
    (hence fewer edges).  The face-sharing preference and the iteration order
    of the set [non_sharing] do not change the length: on any mesh with the
    same edges, whatever its faces, every returned path has that length. *)
Theorem find_shortest_path_is_shortest set_iter fuel bm start end_index excl p :
  set_order set_iter →
  find_shortest_path set_iter fuel bm start end_index excl = Some (Some p) →
  path_between bm excl start end_index p ∧
  (∀ p', path_between bm excl start end_index p' → length p ≤ length p') ∧
  (∀ set_iter' fuel' bm' p',
     set_order set_iter' → bm_edges bm' = bm_edges bm →
     find_shortest_path set_iter' fuel' bm' start end_index excl = Some (Some p') →
     length p' = length p).
Proof.
  intros Hiter Hrun.
  apply PathTheorems.find_shortest_path_result in Hrun as [Hpath Hmin]; [|done].
  split; [done|]. split; [done|].
  intros set_iter' fuel' bm' p' Hiter' Hedges Hrun'.
  apply PathTheorems.find_shortest_path_result in Hrun' as [Hpath' Hmin']; [|done].
  apply (PathTheorems.path_between_same_edges bm bm') in Hpath'; [|done].
  pose proof (Hmin p' Hpath').
  assert (length p' ≤ length p); [|lia].
  apply Hmin'. by apply (PathTheorems.path_between_same_edges bm bm').
Qed.

Lemma find_shortest_path_is_shortest_witness :
  path_between grid3x3 ∅ 0 8 [0; 1; 2; 5; 8] ∧
  (∀ p', path_between grid3x3 ∅ 0 8 p' → length [0; 1; 2; 5; 8] ≤ length p') ∧
  (∀ set_iter' fuel' bm' p',
     set_order set_iter' → bm_edges bm' = bm_edges grid3x3 →
     find_shortest_path set_iter' fuel' bm' 0 8 ∅ = Some (Some p') →
     length p' = length [0; 1; 2; 5; 8]).
Proof.
  apply (find_shortest_path_is_shortest remove_dups 26 grid3x3 0 8 ∅).
  - intros l. reflexivity.
  - vm_compute. reflexivity.
Defined.

(** C9.  With the budget of iterations that any search on the mesh needs,
    [find_shortest_path] returns; it returns None exactly when no path from
    [start] to [end] avoids the excluded edges, and otherwise such a path.
    In the loop, the queue entry that reaches [end] first is the one whose
    path is returned. *)
Theorem find_shortest_path_none_iff_no_path set_iter fuel bm start end_index excl :
  set_order set_iter → bfs_budget bm ≤ fuel →
  ∃ r, find_shortest_path set_iter fuel bm start end_index excl = Some r ∧
       (r = None ↔ ¬ ∃ p, path_between bm excl start end_index p) ∧
       (∀ p, r = Some p → path_between bm excl start end_index p) ∧
       (∀ before path after searched,
          Forall (λ x, x.1 ≠ end_index) before → end_index ∉ searched →
          bfs set_iter (S (length before)) bm (vert_to_verts bm excl) end_index
              (before ++ (end_index, path) :: after) searched
            = Some (Some (path ++ [end_index]))).
Proof.
  intros Hiter Hfuel.
  destruct (PathTheorems.find_shortest_path_returns set_iter fuel bm start end_index excl
              Hiter Hfuel) as [r Hrun].
  exists r. split; [done|].
  pose proof (PathTheorems.find_shortest_path_result _ _ _ _ _ _ _ Hiter Hrun) as Hres.
  split; [|split].
  - destruct r as [p|]; [|done]. destruct Hres as [Hpath _].
    split; [done|]. intros Hno. exfalso. apply Hno. by exists p.
  - intros p ->. by destruct Hres.
  - intros before path after searched Hne Hend.
    apply BfsFacts.bfs_returns_first_arrival; [done..|lia].
Qed.

Lemma find_shortest_path_none_iff_no_path_witness :
  ∃ r, find_shortest_path remove_dups 26 grid3x3 0 8 {[0; 6]} = Some r ∧
       (r = None ↔ ¬ ∃ p, path_between grid3x3 {[0; 6]} 0 8 p) ∧
       (∀ p, r = Some p → path_between grid3x3 {[0; 6]} 0 8 p) ∧
       (∀ before path after searched,
          Forall (λ x, x.1 ≠ 8) before → 8 ∉ searched →
          bfs remove_dups (S (length before)) grid3x3 (vert_to_verts grid3x3 {[0; 6]}) 8
              (before ++ (8, path) :: after) searched
            = Some (Some (path ++ [8]))).
Proof.
  apply (find_shortest_path_none_iff_no_path remove_dups 26 grid3x3 0 8 {[0; 6]}).
  - intros l. reflexivity.
  - vm_compute. lia.
Defined.

(** * Further properties *)

(** ** The shape of what find_loop returns *)

Module WalkShape.

Lemma walk_steps fuel bm e0 stop : ∀ last_edge head vs es l,
  walk fuel bm e0 stop last_edge head vs es = Some l →
  ∃ es' vs', edges l = es ++ es' ∧ vertices l = vs ++ vs' ∧
             steps bm e0 stop last_edge head es' vs'.
Proof.
  induction fuel as [|fuel IH]; intros last_edge head vs es l; [done|].
  rewrite LoopFacts.walk_unfold.
  assert (Hstop : Some (close_off vs es) = Some l →
    ∃ es' vs', edges l = es ++ es' ∧ vertices l = vs ++ vs' ∧
               steps bm e0 stop last_edge head es' vs').
  { intros [= <-]. exists [], []. by rewrite !app_nil_r. }
  destruct (is_pole bm head) eqn:Hpole; [done|].
  case_bool_decide as Hin; [done|]. simpl.
  destruct (next_edge bm last_edge head) as [ne|] eqn:Hnext; [|done].
  destruct (decide (ne = e0)); [done|].
  intros Hw. apply IH in Hw as (es' & vs' & He & Hv & Hsteps).
  exists (ne :: es'), (other_vert bm ne head :: vs').
  rewrite He, Hv, <- !app_assoc. by repeat split.
Qed.

Lemma next_edge_spec bm last_edge head ne :
  next_edge bm last_edge head = Some ne →
  ne ∈ link_edges (vert bm head) ∧ shares_face bm ne last_edge = false.
Proof.
  unfold next_edge. destruct (list_find _ _) as [[i x]|] eqn:Hfind; [|done].
  intros [= <-]. apply list_find_Some in Hfind as (Hi & Hx & _).
  split; [by eapply list_elem_of_lookup_2|done].
Qed.

(** [steps], read position by position *)
Lemma steps_lookup bm e0 stop : ∀ es vs last_edge head i e e' v,
  steps bm e0 stop last_edge head es vs →
  (last_edge :: es) !! i = Some e → (last_edge :: es) !! S i = Some e' →
  (head :: vs) !! i = Some v →
  is_pole bm v = false ∧ (v ∉ stop) ∧ next_edge bm e v = Some e' ∧ e' ≠ e0 ∧
  (head :: vs) !! S i = Some (other_vert bm e' v).
Proof.
  induction es as [|ne es IH]; intros vs last_edge head i e e' v Hsteps He He' Hv.
  { destruct i; simpl in He'; done. }
  destruct vs as [|head' vs]; [done|].
  destruct Hsteps as (Hpole & Hstop & Hnext & Hne & Hhead' & Hsteps).
  destruct i as [|i]; simpl in *.
  - by simplify_eq.
  - by apply (IH vs ne head' i).
Qed.

Lemma steps_length bm e0 stop : ∀ es vs last_edge head,
  steps bm e0 stop last_edge head es vs → length vs = length es.
Proof.
  induction es as [|ne es IH]; intros [|h' vs] last_edge head Hsteps; try done.
  simpl. f_equal. destruct Hsteps as (_ & _ & _ & _ & _ & Hsteps). by eapply IH.
Qed.

Lemma find_loop_steps fuel bm e0 start stop l :
  find_loop fuel bm e0 start stop = Some l →
  ∃ es' vs', edges l = e0 :: es' ∧
             vertices l = start :: other_vert bm e0 start :: vs' ∧
             steps bm e0 stop e0 (other_vert bm e0 start) es' vs'.
Proof.
  unfold find_loop. intros Hloop.
  apply walk_steps in Hloop as (es' & vs' & He & Hv & Hsteps). by exists es', vs'.
Qed.

Lemma other_vert_joins bm e a :
  edge_has bm e a = true → joins bm e a (other_vert bm e a).
Proof.
  unfold edge_has, other_vert, joins. destruct (verts (edge bm e)) as [x y]. simpl.
  rewrite orb_true_iff, !bool_decide_eq_true.
  intros [->| ->]; case_decide; subst; auto; done.
Qed.

End WalkShape.

(** X1.  What [find_loop] returns is a chain that starts with the given
    vertex and edge: one vertex more than edges, each edge leading from its
    vertex to the next by [other_vert]; on a well-formed mesh, when the given
    edge is incident to the given vertex, each edge joins the two vertices
    around it. *)
Theorem find_loop_is_a_chain fuel bm e0 start stop l :
  find_loop fuel bm e0 start stop = Some l →
  head (vertices l) = Some start ∧ head (edges l) = Some e0 ∧
  length (vertices l) = S (length (edges l)) ∧
  edge_set l = list_to_set (edges l) ∧
  (∀ i e a, edges l !! i = Some e → vertices l !! i = Some a →
            vertices l !! S i = Some (other_vert bm e a)) ∧
  (wf_mesh bm = true → e0 ∈ link_edges (vert bm start) →
   ∀ i e a, edges l !! i = Some e → vertices l !! i = Some a →
            joins bm e a (other_vert bm e a)).
Proof.
  intros Hloop. pose proof (SearchFacts.find_loop_ok _ _ _ _ _ _ Hloop) as Hok.
  apply WalkShape.find_loop_steps in Hloop as (es' & vs' & He & Hv & Hsteps).
  pose proof (WalkShape.steps_length _ _ _ _ _ _ _ Hsteps) as Hlen.
  rewrite He, Hv. repeat split; try done.
  - simpl. by rewrite Hlen.
  - by rewrite <- He.
  - intros [|i] e a Hi Ha; simpl in *; [by simplify_eq|].
    destruct ((e0 :: es') !! i) as [e_prev|] eqn:Hprev.
    + by destruct (WalkShape.steps_lookup _ _ _ _ _ _ _ _ _ _ _ Hsteps Hprev Hi Ha)
        as (_ & _ & _ & _ & ?).
    + apply lookup_ge_None in Hprev. apply lookup_lt_Some in Hi. simpl in Hprev. lia.
  - intros Hwf Hstart i e a Hi Ha. apply WalkShape.other_vert_joins.
    assert (Hin : e ∈ link_edges (vert bm a)).
    { destruct i as [|i]; simpl in *; [by simplify_eq|].
      destruct ((e0 :: es') !! i) as [e_prev|] eqn:Hprev.
      - destruct (WalkShape.steps_lookup _ _ _ _ _ _ _ _ _ _ _ Hsteps Hprev Hi Ha)
          as (_ & _ & Hnext & _).
        by apply WalkShape.next_edge_spec in Hnext as [? _].
      - apply lookup_ge_None in Hprev. apply lookup_lt_Some in Hi. simpl in Hprev. lia. }
    pose proof (ChainFacts.link_edges_in_range _ _ _ Hin) as Ha'.
    by apply (ChainFacts.wf_link_edges bm a e Hwf Ha') in Hin as [_ ?].
Qed.

Lemma find_loop_is_a_chain_witness :
  head [0; 1; 2] = Some 0 ∧ head [0; 1] = Some 0 ∧
  length [0; 1; 2] = S (length [0; 1]) ∧
  edge_set (close_off [0; 1; 2] [0; 1]) = list_to_set [0; 1] ∧
  (∀ i e a, [0; 1] !! i = Some e → [0; 1; 2] !! i = Some a →
            [0; 1; 2] !! S i = Some (other_vert grid3x3 e a)) ∧
  (wf_mesh grid3x3 = true → 0 ∈ link_edges (vert grid3x3 0) →
   ∀ i e a, [0; 1] !! i = Some e → [0; 1; 2] !! i = Some a →
            joins grid3x3 e a (other_vert grid3x3 e a)).
Proof.
  apply (find_loop_is_a_chain 3 grid3x3 0 0 ∅ (close_off [0; 1; 2] [0; 1])).
  vm_compute. reflexivity.
Defined.

(** X2.  Inside what [find_loop] returns, every vertex between two edges is
    not a pole and not in the stop set, and the edge after it is the first of
    its incident edges that shares no face with the edge before it; the
    starting edge is never taken a second time. *)
Theorem find_loop_interior fuel bm e0 start stop l :
  find_loop fuel bm e0 start stop = Some l →
  ∀ i e e' v,
    edges l !! i = Some e → edges l !! S i = Some e' → vertices l !! S i = Some v →
    is_pole bm v = false ∧ (v ∉ stop) ∧
    next_edge bm e v = Some e' ∧
    e' ∈ link_edges (vert bm v) ∧ shares_face bm e' e = false ∧ e' ≠ e0.
Proof.
  intros Hloop i e e' v Hi Hi' Hv.
  apply WalkShape.find_loop_steps in Hloop as (es' & vs' & He & Hvs & Hsteps).
  rewrite He in Hi, Hi'. rewrite Hvs in Hv. simpl in Hv.
  destruct (WalkShape.steps_lookup _ _ _ _ _ _ _ _ _ _ _ Hsteps Hi Hi' Hv)
    as (Hpole & Hstop & Hnext & Hne & _).
  destruct (WalkShape.next_edge_spec _ _ _ _ Hnext) as [Hin Hshare].
  by repeat split.
Qed.

Lemma find_loop_interior_witness :
  is_pole grid3x3 1 = false ∧ (1 ∉ (∅ : gset nat)) ∧
  next_edge grid3x3 0 1 = Some 1 ∧
  1 ∈ link_edges (vert grid3x3 1) ∧ shares_face grid3x3 1 0 = false ∧ 1 ≠ 0.
Proof.
  assert (Hloop : find_loop 3 grid3x3 0 0 ∅ = Some (close_off [0; 1; 2] [0; 1])).
  { vm_compute. reflexivity. }
  apply (find_loop_interior 3 grid3x3 0 0 ∅ (close_off [0; 1; 2] [0; 1])
           Hloop 0 0 1 1); reflexivity.
Defined.

(** ** find_loop on meshes with a reversible scan *)

Module WalkTermination.

Lemma wf_link_edges_NoDup bm v :
  wf_mesh bm = true → v < length (bm_verts bm) → NoDup (link_edges (vert bm v)).
Proof.
  intros Hwf Hv. unfold wf_mesh in Hwf. apply andb_true_iff in Hwf as [_ Hverts].
  apply (ChainFacts.forallb_elem_of _ _ v) in Hverts; [|by apply ChainFacts.elem_of_indices].
  cbv beta in Hverts. unfold wf_vert, same_members in Hverts.
  rewrite !andb_true_iff in Hverts.
  destruct Hverts as [[[[[[Hnd _] _] _] _] _] _]. by apply bool_decide_eq_true in Hnd.
Qed.

Lemma wf_ends_differ bm e :
  wf_mesh bm = true → e < length (bm_edges bm) →
  (verts (edge bm e)).1 ≠ (verts (edge bm e)).2.
Proof.
  intros Hwf He. unfold wf_mesh in Hwf. rewrite !andb_true_iff in Hwf.
  destruct Hwf as [[Hedges _] _].
  apply (ChainFacts.forallb_elem_of _ _ e) in Hedges; [|by apply ChainFacts.elem_of_indices].
  cbv beta in Hedges. unfold wf_edge in Hedges. destruct (verts (edge bm e)) as [a b]. simpl.
  rewrite !andb_true_iff in Hedges. destruct Hedges as [[[[_ _] Hab] _] _].
  by apply bool_decide_eq_true in Hab.
Qed.

(** What an incident edge gives on a well-formed mesh: it is an edge of the
    mesh, incident to its other end too, which is a different vertex, and
    crossing it twice leads back. *)
Lemma incident_ends bm e v :
  wf_mesh bm = true → e ∈ link_edges (vert bm v) →
  e < length (bm_edges bm) ∧ edge_has bm e v = true ∧
  e ∈ link_edges (vert bm (other_vert bm e v)) ∧
  other_vert bm e (other_vert bm e v) = v ∧ other_vert bm e v ≠ v.
Proof.
  intros Hwf Hev. pose proof (ChainFacts.link_edges_in_range _ _ _ Hev) as Hv.
  pose proof (proj1 (ChainFacts.wf_link_edges bm v e Hwf Hv) Hev) as [He Hhas].
  destruct (ChainFacts.other_vert_back bm e v Hhas) as [Hhas' Hback].
  split; [done|]. split; [done|]. split; [|split; [done|]].
  - apply ChainFacts.wf_link_edges; [done| |done].
    destruct (ChainFacts.wf_edge_ends bm e Hwf He) as [Ha Hb].
    unfold edge_has in Hhas'. apply orb_true_iff in Hhas' as [Hx|Hx];
      apply bool_decide_eq_true in Hx; by rewrite Hx.
  - pose proof (wf_ends_differ bm e Hwf He) as Hab.
    unfold edge_has, other_vert in *. destruct (verts (edge bm e)) as [a b]. simpl in *.
    case_decide; congruence.
Qed.

(** An edge has two ends only. *)
Lemma two_ends bm e v w :
  edge_has bm e v = true → edge_has bm e w = true → w = v ∨ w = other_vert bm e v.
Proof.
  unfold edge_has, other_vert. destruct (verts (edge bm e)) as [a b]. simpl.
  rewrite !orb_true_iff, !bool_decide_eq_true. intros Hv Hw.
  case_decide; destruct Hv, Hw; subst; auto; congruence.
Qed.

(** With a reversible scan, the scan at a vertex that is not a pole never
    selects the edge the walk arrived over. *)
Lemma no_u_turn bm e h :
  wf_mesh bm = true → reversibleb bm = true →
  is_pole bm h = false → e ∈ link_edges (vert bm h) → next_edge bm e h ≠ Some e.
Proof.
  intros Hwf Hrev Hpole Hin Hnext.
  destruct (WalkShape.next_edge_spec _ _ _ _ Hnext) as [_ Hshare].
  assert (Hfaces : e_link_faces (edge bm e) = []).
  { unfold shares_face in Hshare. destruct (e_link_faces (edge bm e)) as [|f fs]; [done|].
    simpl in Hshare. rewrite bool_decide_eq_true_2 in Hshare by left. done. }
  assert (Hfree : ∀ e', shares_face bm e e' = false).
  { intros e'. unfold shares_face. apply not_true_iff_false. intros Hex.
    apply existsb_exists in Hex as (f & _ & Hf). apply bool_decide_eq_true in Hf.
    rewrite Hfaces in Hf. by apply elem_of_nil in Hf. }
  assert (Hfirst : ∀ x, shares_face bm x e = false).
  { intros x. unfold shares_face. by rewrite Hfaces. }
  pose proof (ChainFacts.link_edges_in_range _ _ _ Hin) as Hh.
  pose proof (wf_link_edges_NoDup bm h Hwf Hh) as Hnd.
  destruct (link_edges (vert bm h)) as [|x0 rest] eqn:Hlink; [by apply elem_of_nil in Hin|].
  assert (Hx0 : x0 = e).
  { unfold next_edge in Hnext. rewrite Hlink in Hnext. simpl in Hnext.
    rewrite decide_True in Hnext by apply Hfirst. simpl in Hnext. congruence. }
  subst x0.
  assert (Hall : ∀ e', e' ∈ e :: rest → e' = e).
  { intros e' He'.
    assert (Hn : next_edge bm e' h = Some e).
    { unfold next_edge. rewrite Hlink. simpl. by rewrite decide_True by apply Hfree. }
    rewrite <- Hlink in He'.
    pose proof (ChainFacts.reversible_step bm h e' e Hrev Hpole He' Hn). congruence. }
  assert (Hrest : rest = []).
  { destruct rest as [|y rest']; [done|]. apply NoDup_cons in Hnd as [Hnot _].
    exfalso. apply Hnot. rewrite (Hall y); [left|]. right. left. }
  unfold is_pole in Hpole. rewrite Hlink, Hrest in Hpole. simpl in Hpole.
  by destruct (is_boundary (vert bm h)), (is_wire (vert bm h)).
Qed.

(** Every edge of a history is incident to the end paired with it. *)
Lemma back_chain_incident bm : ∀ before e h s,
  back_chain bm e h before → e ∈ link_edges (vert bm h) →
  s ∈ (e, h) :: before → s.1 ∈ link_edges (vert bm s.2).
Proof.
  induction before as [|[e' v'] rest IH]; intros e h s Hchain Hin Hs.
  { apply list_elem_of_singleton in Hs. by subst. }
  destruct Hchain as (_ & _ & _ & Hin' & Hchain).
  apply elem_of_cons in Hs as [->|Hs]; [done|]. by apply (IH e' v').
Qed.

(** Two neighbours in a history: the later one was selected at the vertex
    reached over the earlier one. *)
Lemma back_chain_lookup bm : ∀ before e h j e_j v_j e_p v_p,
  back_chain bm e h before →
  ((e, h) :: before) !! j = Some (e_j, v_j) →
  ((e, h) :: before) !! S j = Some (e_p, v_p) →
  is_pole bm v_j = false ∧ next_edge bm e_p v_j = Some e_j ∧
  v_j = other_vert bm e_p v_p ∧ e_p ∈ link_edges (vert bm v_p).
Proof.
  induction before as [|[e' v'] rest IH]; intros e h j e_j v_j e_p v_p Hchain Hj Hp.
  { by destruct j. }
  destruct Hchain as (Hpole & Hnext & Hh & Hin & Hchain).
  destruct j as [|j]; simpl in Hj, Hp.
  - by simplify_eq.
  - by apply (IH e' v' j e_j v_j e_p v_p).
Qed.

(** The edge the scan selects is not in the history: were it there in the
    same direction, the walk would have come the same way before, down to
    the starting edge, which it does not take again; were it there in the
    other direction, the walk would have turned round over one edge. *)
Lemma fresh_edge bm e0 start last_edge tailv before ne :
  wf_mesh bm = true → reversibleb bm = true →
  history_ok bm e0 start ((last_edge, tailv) :: before) →
  is_pole bm (other_vert bm last_edge tailv) = false →
  next_edge bm last_edge (other_vert bm last_edge tailv) = Some ne →
  ne ≠ e0 →
  ne ∉ ((last_edge, tailv) :: before).*1.
Proof.
  intros Hwf Hrev (Hchain & Hin & Hnd & Hlast) Hpole Hnext Hne Hold.
  set (head := other_vert bm last_edge tailv) in *.
  set (hist := (last_edge, tailv) :: before) in *.
  destruct (incident_ends bm last_edge tailv Hwf Hin) as (_ & _ & Hlast_head & Hback & Hdiff).
  fold head in Hlast_head, Hback, Hdiff.
  pose proof (ChainFacts.reversible_step bm head last_edge ne Hrev Hpole Hlast_head Hnext)
    as Hturn.
  pose proof (ChainFacts.next_edge_incident _ _ _ _ Hnext) as Hne_head.
  destruct (incident_ends bm ne head Hwf Hne_head) as (_ & Hhas_head & _ & Hback_ne & _).
  assert (Hzero : hist !! 0 = Some (last_edge, tailv)) by done.
  apply list_elem_of_fmap in Hold as ([e_i v_i] & He_i & Hs). simpl in He_i. subst e_i.
  pose proof (back_chain_incident bm before last_edge tailv _ Hchain Hin Hs) as Hin_i.
  simpl in Hin_i.
  destruct (incident_ends bm ne v_i Hwf Hin_i) as (_ & Hhas_i & _ & _ & _).
  apply list_elem_of_lookup in Hs as [i Hi].
  destruct (two_ends bm ne head v_i Hhas_head Hhas_i) as [->|Hv_i].
  - (* the same direction *)
    destruct (hist !! S i) as [[e_p v_p]|] eqn:Hp.
    + destruct (back_chain_lookup bm before last_edge tailv i ne head e_p v_p Hchain Hi Hp)
        as (_ & Hnext_p & Hhead & Hin_p).
      destruct (incident_ends bm e_p v_p Hwf Hin_p) as (_ & _ & Hp_head & Hback_p & _).
      rewrite <- Hhead in Hp_head, Hback_p.
      pose proof (ChainFacts.reversible_step bm head e_p ne Hrev Hpole Hp_head Hnext_p) as H2.
      assert (e_p = last_edge) as -> by congruence.
      assert (Hp1 : hist.*1 !! S i = Some last_edge) by (by rewrite list_lookup_fmap, Hp).
      assert (Hz1 : hist.*1 !! 0 = Some last_edge) by done.
      pose proof (NoDup_lookup _ _ _ _ Hnd Hp1 Hz1). lia.
    + apply lookup_ge_None in Hp. apply lookup_lt_Some in Hi as Hlt.
      assert (Hi' : last hist = Some (ne, head)).
      { rewrite last_lookup. by replace (Nat.pred (length hist)) with i by lia. }
      rewrite Hlast in Hi'. congruence.
  - (* the other direction *)
    destruct i as [|j].
    + rewrite Hzero in Hi. injection Hi as -> ->.
      by apply (no_u_turn bm ne head Hwf Hrev Hpole Hlast_head).
    + destruct (hist !! j) as [[e_n v_n]|] eqn:Hj.
      2:{ apply lookup_ge_None in Hj. apply lookup_lt_Some in Hi. lia. }
      destruct (back_chain_lookup bm before last_edge tailv j e_n v_n ne v_i Hchain Hj Hi)
        as (_ & Hnext_n & Hv_n & _).
      rewrite Hv_i, Hback_ne in Hv_n. subst v_n.
      assert (e_n = last_edge) as -> by congruence.
      assert (Hj1 : hist.*1 !! j = Some last_edge) by (by rewrite list_lookup_fmap, Hj).
      assert (Hz1 : hist.*1 !! 0 = Some last_edge) by done.
      pose proof (NoDup_lookup _ _ _ _ Hnd Hj1 Hz1) as ->.
      rewrite Hzero in Hj. congruence.
Qed.

(** One more iteration keeps the history a history. *)
Lemma history_step bm e0 start last_edge tailv before ne :
  wf_mesh bm = true → reversibleb bm = true →
  history_ok bm e0 start ((last_edge, tailv) :: before) →
  is_pole bm (other_vert bm last_edge tailv) = false →
  next_edge bm last_edge (other_vert bm last_edge tailv) = Some ne →
  ne ≠ e0 →
  history_ok bm e0 start
    ((ne, other_vert bm last_edge tailv) :: (last_edge, tailv) :: before).
Proof.
  intros Hwf Hrev Hok Hpole Hnext Hne.
  pose proof (fresh_edge bm e0 start last_edge tailv before ne Hwf Hrev Hok Hpole Hnext Hne)
    as Hfresh.
  destruct Hok as (Hchain & Hin & Hnd & Hlast).
  split; [by repeat split|]. split; [by eapply ChainFacts.next_edge_incident|].
  split; [|done]. rewrite fmap_cons. by apply NoDup_cons.
Qed.

(** The edges of a history are edges of the mesh, each once. *)
Lemma history_length bm e0 start hist :
  wf_mesh bm = true → history_ok bm e0 start hist →
  length hist ≤ length (bm_edges bm).
Proof.
  intros Hwf Hok. destruct hist as [|[e h] before]; [done|].
  destruct Hok as (Hchain & Hin & Hnd & _).
  rewrite <- (length_fmap fst).
  transitivity (length (seq 0 (length (bm_edges bm)))); [|by rewrite length_seq].
  apply submseteq_length, NoDup_submseteq; [done|]. intros x Hx.
  apply list_elem_of_fmap in Hx as (s & -> & Hs).
  pose proof (back_chain_incident bm before e h s Hchain Hin Hs) as Hinc.
  apply elem_of_seq. destruct (incident_ends bm _ _ Hwf Hinc) as (? & _). lia.
Qed.

(** The loop of [find_loop], followed to its exit: it returns when it has
    iterations enough for the edges not yet in the history, and what it
    returns is the history at the exit. *)
Lemma walk_trace bm e0 start stop :
  wf_mesh bm = true → reversibleb bm = true →
  ∀ fuel last_edge tailv before,
  history_ok bm e0 start ((last_edge, tailv) :: before) →
  length (bm_edges bm) - length ((last_edge, tailv) :: before) < fuel →
  ∃ e_k v_k before',
    history_ok bm e0 start ((e_k, v_k) :: before') ∧
    stops_at bm e0 stop e_k (other_vert bm e_k v_k) ∧
    walk fuel bm e0 stop last_edge (other_vert bm last_edge tailv)
         (list.reverse (((last_edge, tailv) :: before).*2) ++ [other_vert bm last_edge tailv])
         (list.reverse (((last_edge, tailv) :: before).*1)) =
    Some (close_off
            (list.reverse (((e_k, v_k) :: before').*2) ++ [other_vert bm e_k v_k])
            (list.reverse (((e_k, v_k) :: before').*1))).
Proof.
  intros Hwf Hrev. induction fuel as [|fuel IH];
    intros last_edge tailv before Hok Hfuel; [lia|].
  rewrite LoopFacts.walk_unfold.
  set (head := other_vert bm last_edge tailv) in *.
  destruct (is_pole bm head) eqn:Hpole.
  { exists last_edge, tailv, before. split; [done|]. split; [by left|done]. }
  case_bool_decide as Hstop.
  { exists last_edge, tailv, before. split; [done|]. split; [by right; left|done]. }
  simpl.
  destruct (next_edge bm last_edge head) as [ne|] eqn:Hnext.
  2:{ exists last_edge, tailv, before. split; [done|]. split; [by right; right; left|done]. }
  destruct (decide (ne = e0)) as [->|Hne].
  { exists last_edge, tailv, before. split; [done|]. split; [by right; right; right|done]. }
  pose proof (history_step bm e0 start last_edge tailv before ne Hwf Hrev Hok Hpole Hnext Hne)
    as Hok'.
  pose proof (history_length bm e0 start _ Hwf Hok') as Hlen.
  destruct (IH ne head ((last_edge, tailv) :: before) Hok') as (e_k & v_k & before' & ? & ? & Hw).
  { simpl in *. lia. }
  exists e_k, v_k, before'. split; [done|]. split; [done|].
  etrans; [|exact Hw]. f_equal; simpl; by rewrite !reverse_cons.
Qed.

(** [find_loop] on a well-formed mesh with a reversible scan, called with an
    edge and one of its ends. *)
Lemma find_loop_trace bm e0 start stop fuel :
  wf_mesh bm = true → reversibleb bm = true →
  e0 ∈ link_edges (vert bm start) → walk_budget bm ≤ fuel →
  ∃ e_k v_k before,
    history_ok bm e0 start ((e_k, v_k) :: before) ∧
    stops_at bm e0 stop e_k (other_vert bm e_k v_k) ∧
    find_loop fuel bm e0 start stop =
    Some (close_off
            (list.reverse (((e_k, v_k) :: before).*2) ++ [other_vert bm e_k v_k])
            (list.reverse (((e_k, v_k) :: before).*1))).
Proof.
  intros Hwf Hrev Hin Hfuel.
  assert (Hok : history_ok bm e0 start [(e0, start)]).
  { split; [done|]. split; [done|]. split; [apply NoDup_singleton|done]. }
  destruct (incident_ends bm e0 start Hwf Hin) as (He0 & _).
  apply (walk_trace bm e0 start stop Hwf Hrev fuel e0 start [] Hok).
  unfold walk_budget in Hfuel. simpl. lia.
Qed.

(** Whatever [find_loop] returns there, with whatever bound, is what it
    returns with the budget of the mesh. *)
Lemma find_loop_at_budget bm e0 start stop fuel l :
  wf_mesh bm = true → reversibleb bm = true →
  e0 ∈ link_edges (vert bm start) →
  find_loop fuel bm e0 start stop = Some l →
  find_loop (fuel `max` walk_budget bm) bm e0 start stop = Some l.
Proof.
  intros Hwf Hrev Hin Hloop. unfold find_loop in *.
  apply (LoopFacts.walk_fuel_mono bm e0 stop fuel); [done|lia].
Qed.

End WalkTermination.

(** ** What find_loop returns there *)

Module WalkResults.

Lemma find_loop_returns bm e0 start stop :
  wf_mesh bm = true → reversibleb bm = true →
  e0 ∈ link_edges (vert bm start) →
  ∃ l, ∀ fuel, walk_budget bm ≤ fuel → find_loop fuel bm e0 start stop = Some l.
Proof.
  intros Hwf Hrev Hin.
  destruct (WalkTermination.find_loop_trace bm e0 start stop (walk_budget bm) Hwf Hrev Hin)
    as (e_k & v_k & before & _ & _ & Hloop); [done|].
  eexists. intros fuel Hfuel. unfold find_loop in *.
  by apply (LoopFacts.walk_fuel_mono bm e0 stop (walk_budget bm)).
Qed.

Lemma find_loop_no_repeat fuel bm e0 start stop l :
  wf_mesh bm = true → reversibleb bm = true →
  e0 ∈ link_edges (vert bm start) →
  find_loop fuel bm e0 start stop = Some l →
  NoDup (edges l) ∧ (∀ e, e ∈ edges l → e < length (bm_edges bm)) ∧
  length (edges l) ≤ length (bm_edges bm) ∧
  size (edge_set l) = length (edges l).
Proof.
  intros Hwf Hrev Hin Hloop.
  pose proof (SearchFacts.find_loop_ok _ _ _ _ _ _ Hloop) as Hset.
  apply WalkTermination.find_loop_at_budget in Hloop; try done.
  destruct (WalkTermination.find_loop_trace bm e0 start stop (fuel `max` walk_budget bm)
              Hwf Hrev Hin) as (e_k & v_k & before & Hok & _ & Htrace); [lia|].
  rewrite Htrace in Hloop. injection Hloop as <-.
  pose proof (WalkTermination.history_length bm e0 start _ Hwf Hok) as Hlen.
  destruct Hok as (Hchain & Hin_k & Hnd & _). cbn [edges close_off].
  assert (Hnd' : NoDup (list.reverse (((e_k, v_k) :: before).*1))).
  { by rewrite reverse_Permutation. }
  split; [done|]. split; [|split].
  - intros e He. rewrite elem_of_reverse in He.
    apply (proj1 (list_elem_of_fmap fst ((e_k, v_k) :: before) e)) in He as (s & -> & Hs).
    pose proof (WalkTermination.back_chain_incident bm before e_k v_k s Hchain Hin_k Hs).
    by destruct (WalkTermination.incident_ends bm s.1 s.2 Hwf) as (? & _).
  - rewrite length_reverse. rewrite <- (length_fmap fst) in Hlen. exact Hlen.
  - rewrite Hset. by apply size_list_to_set.
Qed.

Lemma find_loop_ends fuel bm e0 start stop l :
  wf_mesh bm = true → reversibleb bm = true →
  e0 ∈ link_edges (vert bm start) →
  find_loop fuel bm e0 start stop = Some l →
  is_pole bm (last_of (vertices l)) = true ∨
  last_of (vertices l) ∈ stop ∨
  next_edge bm (last_of (edges l)) (last_of (vertices l)) = None ∨
  is_closed l = true.
Proof.
  intros Hwf Hrev Hin Hloop.
  apply WalkTermination.find_loop_at_budget in Hloop; try done.
  destruct (WalkTermination.find_loop_trace bm e0 start stop (fuel `max` walk_budget bm)
              Hwf Hrev Hin) as (e_k & v_k & before & Hok & Hstops & Htrace); [lia|].
  rewrite Htrace in Hloop. apply (inj Some) in Hloop. subst l.
  cbn [vertices edges close_off].
  set (hist := (e_k, v_k) :: before) in *.
  set (z := other_vert bm e_k v_k) in *.
  assert (Hlv : last_of (list.reverse (hist.*2) ++ [z]) = z).
  { unfold last_of. by rewrite last_snoc. }
  assert (Hle : last_of (list.reverse (hist.*1)) = e_k).
  { unfold last_of. by rewrite last_reverse. }
  rewrite Hlv, Hle.
  destruct Hstops as [Hpole|[Hstop|[Hnone|Hsome]]]; [by left|by right; left|by right; right; left|].
  destruct (is_pole bm z) eqn:Hpole; [by left|]. right. right. right.
  destruct Hok as (Hchain & Hin_k & Hnd & Hlast).
  assert (Hfirst : head (list.reverse (hist.*2) ++ [z]) = Some start).
  { assert (Hl2 : last (hist.*2) = Some start) by (by rewrite fmap_last, Hlast).
    rewrite <- head_reverse in Hl2.
    destruct (list.reverse (hist.*2)) as [|x xs]; [done|]. done. }
  unfold is_closed. cbn [vertices close_off]. rewrite Hfirst, last_snoc.
  apply bool_decide_eq_true.
  destruct (WalkTermination.incident_ends bm e_k v_k Hwf Hin_k)
    as (_ & _ & Hk_head & _ & Hdiff). fold z in Hk_head, Hdiff.
  destruct (WalkTermination.incident_ends bm e0 start Hwf Hin) as (_ & Hhas_start & _).
  pose proof (ChainFacts.next_edge_incident _ _ _ _ Hsome) as H0_head.
  destruct (WalkTermination.incident_ends bm e0 z Hwf H0_head) as (_ & Hhas_head & _).
  destruct (WalkTermination.two_ends bm e0 start z Hhas_start Hhas_head) as [Heq|Hh1];
    [done|].
  exfalso.
  pose proof (ChainFacts.reversible_step bm z e_k e0 Hrev Hpole Hk_head Hsome) as Hturn.
  destruct (hist !! 1) as [[e_p v_p]|] eqn:Hone.
  - (* the walk took a step: its first step, at [z], selected [e_k] *)
    assert (Hlt : 1 < length hist) by (by eapply lookup_lt_Some).
    assert (Hbottom : hist !! (length hist - 1) = Some (e0, start)).
    { rewrite last_lookup in Hlast. by replace (length hist - 1) with (Nat.pred (length hist)) by lia. }
    destruct (hist !! (length hist - 2)) as [[e_1 v_1]|] eqn:Hsecond.
    2:{ apply lookup_ge_None in Hsecond. lia. }
    replace (length hist - 1) with (S (length hist - 2)) in Hbottom by lia.
    destruct (WalkTermination.back_chain_lookup bm before e_k v_k _ e_1 v_1 e0 start
                Hchain Hsecond Hbottom) as (_ & Hnext1 & Hv1 & _).
    rewrite <- Hh1 in Hv1. subst v_1.
    assert (e_1 = e_k) as -> by congruence.
    assert (Hs1 : hist.*1 !! (length hist - 2) = Some e_k)
      by (by rewrite list_lookup_fmap, Hsecond).
    assert (Hz1 : hist.*1 !! 0 = Some e_k) by done.
    pose proof (NoDup_lookup _ _ _ _ Hnd Hs1 Hz1) as Hzero.
    rewrite Hzero in Hsecond. simpl in Hsecond. congruence.
  - (* no step: the scan at [z] selected the starting edge itself *)
    destruct before as [|s before']; [|done].
    simpl in Hlast. injection Hlast as -> ->.
    by apply (WalkTermination.no_u_turn bm e0 z Hwf Hrev Hpole Hk_head).
Qed.

End WalkResults.

(** X3.  On a well-formed mesh whose scan is reversible, [find_loop] called
    with an edge and one of its ends returns, whatever the stop set: its loop
    runs at most once per edge of the mesh, and the result does not depend on
    the bound once the bound is the number of edges. *)
Theorem find_loop_returns_when_reversible bm e0 start stop :
  wf_mesh bm = true → reversibleb bm = true →
  e0 ∈ link_edges (vert bm start) →
  ∃ l, ∀ fuel, walk_budget bm ≤ fuel → find_loop fuel bm e0 start stop = Some l.
Proof. apply WalkResults.find_loop_returns. Qed.

Lemma find_loop_returns_when_reversible_witness :
  ∃ l, ∀ fuel, walk_budget grid3x3 ≤ fuel → find_loop fuel grid3x3 0 0 ∅ = Some l.
Proof.
  apply (find_loop_returns_when_reversible grid3x3 0 0 ∅).
  - vm_compute. reflexivity.
  - vm_compute. reflexivity.
  - apply (bool_decide_unpack _). vm_compute. reflexivity.
Defined.

(** X4.  On such a mesh no edge is twice in what [find_loop] returns, in
    either direction, and every edge of the result is an edge of the mesh:
    the result has at most as many edges as the mesh. *)
Theorem find_loop_passes_no_edge_twice fuel bm e0 start stop l :
  wf_mesh bm = true → reversibleb bm = true →
  e0 ∈ link_edges (vert bm start) →
  find_loop fuel bm e0 start stop = Some l →
  NoDup (edges l) ∧ (∀ e, e ∈ edges l → e < length (bm_edges bm)) ∧
  length (edges l) ≤ length (bm_edges bm) ∧
  size (edge_set l) = length (edges l).
Proof. apply WalkResults.find_loop_no_repeat. Qed.

Lemma find_loop_passes_no_edge_twice_witness :
  NoDup [0; 1] ∧ (∀ e, e ∈ [0; 1] → e < length (bm_edges grid3x3)) ∧
  length [0; 1] ≤ length (bm_edges grid3x3) ∧
  size (edge_set (close_off [0; 1; 2] [0; 1])) = length [0; 1].
Proof.
  apply (find_loop_passes_no_edge_twice 3 grid3x3 0 0 ∅ (close_off [0; 1; 2] [0; 1])).
  - vm_compute. reflexivity.
  - vm_compute. reflexivity.
  - apply (bool_decide_unpack _). vm_compute. reflexivity.
  - vm_compute. reflexivity.
Defined.

(** X5.  On such a mesh a result of [find_loop] ends at a pole, at a vertex
    of the stop set, at a vertex where the scan finds no next edge, or it is
    closed: back at the start vertex. *)
Theorem find_loop_ends_as_documented fuel bm e0 start stop l :
  wf_mesh bm = true → reversibleb bm = true →
  e0 ∈ link_edges (vert bm start) →
  find_loop fuel bm e0 start stop = Some l →
  is_pole bm (last_of (vertices l)) = true ∨
  last_of (vertices l) ∈ stop ∨
  next_edge bm (last_of (edges l)) (last_of (vertices l)) = None ∨
  is_closed l = true.
Proof. apply WalkResults.find_loop_ends. Qed.

Lemma find_loop_ends_as_documented_witness :
  is_pole grid3x3 (last_of [0; 1; 2]) = true ∨
  last_of [0; 1; 2] ∈ (∅ : gset nat) ∨
  next_edge grid3x3 (last_of [0; 1]) (last_of [0; 1; 2]) = None ∨
  is_closed (close_off [0; 1; 2] [0; 1]) = true.
Proof.
  apply (find_loop_ends_as_documented 3 grid3x3 0 0 ∅ (close_off [0; 1; 2] [0; 1])).
  - vm_compute. reflexivity.
  - vm_compute. reflexivity.
  - apply (bool_decide_unpack _). vm_compute. reflexivity.
  - vm_compute. reflexivity.
Defined.

(** ** pure_edge_loops on meshes with a reversible scan *)

Module PureLoopsTotal.

Lemma for_each_returns {A S} (body : S → A → option S) (I : S → Prop) : ∀ xs s,
  (∀ s x, x ∈ xs → I s → ∃ s', body s x = Some s' ∧ I s') →
  I s → ∃ s', for_each body xs s = Some s' ∧ I s'.
Proof.
  induction xs as [|x xs IH]; intros s Hbody Hs; simpl.
  { by exists s. }
  destruct (Hbody s x) as (s1 & -> & Hs1); [left|done|]. simpl.
  apply IH; [|done]. intros s2 y Hy. apply Hbody. by right.
Qed.

Lemma size_below (X : gset nat) n : (∀ x, x ∈ X → x < n) → size X ≤ n.
Proof.
  intros HX. transitivity (size (list_to_set (C := gset nat) (seq 0 n))).
  2:{ rewrite size_list_to_set by apply NoDup_seq. by rewrite length_seq. }
  apply subseteq_size. intros x Hx. apply elem_of_list_to_set, elem_of_seq.
  specialize (HX x Hx). lia.
Qed.

Lemma visit_returns fuel bm start st e :
  wf_mesh bm = true → reversibleb bm = true → walk_budget bm ≤ fuel →
  e ∈ link_edges (vert bm start) → tally_ok bm st →
  ∃ st', visit fuel bm start st e = Some st' ∧ tally_ok bm st'.
Proof.
  intros Hwf Hrev Hfuel Hin (Hunion & Hcount & Hrange & Hnd). unfold visit.
  case_bool_decide as Hseen; [by exists st|].
  destruct (WalkResults.find_loop_returns bm e start ∅ Hwf Hrev Hin) as [l Hl].
  specialize (Hl fuel Hfuel). rewrite Hl. simpl. eexists. split; [done|].
  destruct (WalkResults.find_loop_no_repeat fuel bm e start ∅ l Hwf Hrev Hin Hl)
    as (Hnd_l & Hrange_l & _ & _).
  pose proof (SearchFacts.find_loop_ok _ _ _ _ _ _ Hl) as Hset.
  pose proof (LoopFacts.find_loop_has_edge _ _ _ _ _ _ Hl) as He.
  split; [|split; [|split]]; simpl.
  - by rewrite SearchFacts.loops_union_app, <- Hunion.
  - rewrite length_app. simpl.
    assert (Hsub : st.2 ∪ {[e]} ⊆ st.2 ∪ edge_set l).
    { intros x [Hx| ->%elem_of_singleton]%elem_of_union; apply elem_of_union; auto. }
    apply subseteq_size in Hsub. rewrite size_union in Hsub.
    + rewrite size_singleton in Hsub. lia.
    + intros x Hx ->%elem_of_singleton. done.
  - intros x [Hx|Hx]%elem_of_union; [by apply Hrange|].
    apply Hrange_l. rewrite Hset in Hx. by apply elem_of_list_to_set in Hx.
  - apply Forall_app. split; [done|]. by apply Forall_singleton.
Qed.

End PureLoopsTotal.

(** X6.  On a well-formed mesh whose scan is reversible, [pure_edge_loops]
    returns, whatever the order in which it meets the poles; every edge of
    the mesh is in the edge set of some returned loop, there are at most as
    many loops as edges, and no returned loop has an edge twice. *)
Theorem pure_edge_loops_returns_when_reversible fuel bm pole_order :
  wf_mesh bm = true → reversibleb bm = true → walk_budget bm ≤ fuel →
  ∃ ls, pure_edge_loops fuel bm pole_order = Some ls ∧
        (∀ e, e < length (bm_edges bm) → ∃ l, l ∈ ls ∧ e ∈ edge_set l) ∧
        length ls ≤ length (bm_edges bm) ∧
        Forall (λ l, NoDup (edges l)) ls.
Proof.
  intros Hwf Hrev Hfuel.
  assert (Hstart : tally_ok bm ([], ∅)).
  { split; [done|]. split; [simpl; lia|]. split; [|by apply Forall_nil].
    intros x Hx. by apply not_elem_of_empty in Hx. }
  destruct (PureLoopsTotal.for_each_returns
              (λ st pole, for_each (visit fuel bm pole) (link_edges (vert bm pole)) st)
              (tally_ok bm) pole_order ([], ∅)) as (st1 & Hfirst & Hst1); [|done|].
  { intros st pole _ Hst. apply PureLoopsTotal.for_each_returns; [|done].
    intros st' e He Hst'. by apply PureLoopsTotal.visit_returns. }
  destruct (PureLoopsTotal.for_each_returns
              (λ st e, visit fuel bm (verts (edge bm e)).1 st e)
              (tally_ok bm) (indices (bm_edges bm)) st1) as (st2 & Hsecond & Hst2); [|done|].
  { intros st e He Hst. apply PureLoopsTotal.visit_returns; try done.
    apply ChainFacts.elem_of_indices in He.
    destruct (ChainFacts.wf_edge_ends bm e Hwf He) as [Ha _].
    apply ChainFacts.wf_link_edges; [done|done|]. split; [done|].
    unfold edge_has. by rewrite bool_decide_eq_true_2. }
  assert (Hrun : pure_edge_loops fuel bm pole_order = Some st2.1).
  { unfold pure_edge_loops. rewrite Hfirst. simpl. by rewrite Hsecond. }
  exists st2.1. split; [done|].
  destruct Hst2 as (_ & Hcount & Hrange & Hnd).
  split; [|split; [|done]].
  - intros e He. by eapply PureLoopsFacts.pure_edge_loops_cover.
  - etrans; [exact Hcount|]. by apply PureLoopsTotal.size_below.
Qed.

Lemma pure_edge_loops_returns_when_reversible_witness :
  ∃ ls, pure_edge_loops 12 grid3x3 [0; 2; 6; 8] = Some ls ∧
        (∀ e, e < length (bm_edges grid3x3) → ∃ l, l ∈ ls ∧ e ∈ edge_set l) ∧
        length ls ≤ length (bm_edges grid3x3) ∧
        Forall (λ l, NoDup (edges l)) ls.
Proof.
  apply (pure_edge_loops_returns_when_reversible 12 grid3x3 [0; 2; 6; 8]).
  - vm_compute. reflexivity.
  - vm_compute. reflexivity.
  - vm_compute. lia.
Defined.

(** ** pure_edge_loop on meshes with a reversible scan *)

Module PureLoopTotal.

(** The walk back over a chain retraces it, edge by edge, down to its first
    edge, and goes on from there. *)
Lemma walk_retraces_prefix bm e0' :
  wf_mesh bm = true → reversibleb bm = true →
  ∀ before e h fuel vs es e_b h_b,
  back_chain bm e h before →
  e ∈ link_edges (vert bm h) →
  e0' ∉ before.*1 →
  last ((e, h) :: before) = Some (e_b, h_b) →
  walk (length before + fuel) bm e0' ∅ e h vs es =
  walk fuel bm e0' ∅ e_b h_b (vs ++ before.*2) (es ++ before.*1).
Proof.
  intros Hwf Hrev. induction before as [|[e' v'] rest IH];
    intros e h fuel vs es e_b h_b Hchain Hin Hfresh Hlast.
  { simpl in *. injection Hlast as <- <-. by rewrite !app_nil_r. }
  change (length ((e', v') :: rest) + fuel) with (S (length rest + fuel)).
  rewrite LoopFacts.walk_unfold.
  destruct Hchain as (Hpole & Hnext & Hh & Hin' & Hchain).
  rewrite Hpole. rewrite bool_decide_eq_false_2 by apply not_elem_of_empty. simpl.
  destruct (WalkTermination.incident_ends bm e' v' Hwf Hin') as (_ & _ & He'h & Hback & _).
  rewrite <- Hh in He'h, Hback.
  rewrite (ChainFacts.reversible_step bm h e' e Hrev Hpole He'h Hnext).
  apply not_elem_of_cons in Hfresh as [Hne Hfresh].
  destruct (decide (e' = e0')) as [->|_]; [done|].
  rewrite Hback.
  rewrite (IH e' v' fuel (vs ++ [v']) (es ++ [e']) e_b h_b); try done.
  by rewrite <- !app_assoc.
Qed.

Lemma first_of_rev xs : first_of (rev xs) = last_of xs.
Proof. unfold first_of, last_of. by rewrite SearchFacts.rev_reverse, head_reverse. Qed.

Lemma last_of_rev xs : last_of (rev xs) = first_of xs.
Proof. unfold first_of, last_of. by rewrite SearchFacts.rev_reverse, last_reverse. Qed.

Lemma is_closed_spec l :
  vertices l ≠ [] → is_closed l = true ↔ first_of (vertices l) = last_of (vertices l).
Proof.
  unfold is_closed, first_of, last_of. intros Hne.
  destruct (vertices l) as [|a vs] eqn:Hv; [done|]. simpl.
  destruct (last (a :: vs)) as [b|] eqn:Hb; [|by apply last_None in Hb].
  simpl. apply bool_decide_eq_true.
Qed.

(** [pure_edge_loop] on a well-formed mesh with a reversible scan *)
Lemma pure_edge_loop_returns fuel bm e :
  wf_mesh bm = true → reversibleb bm = true →
  e < length (bm_edges bm) → walk_budget bm ≤ fuel →
  ∃ l, pure_edge_loop fuel bm e = Some l ∧
       e ∈ edges l ∧ edge_set l = list_to_set (edges l) ∧ NoDup (edges l) ∧
       (is_closed l = true ∨
        (chain_end bm (first_of (edges l)) (first_of (vertices l)) ∧
         chain_end bm (last_of (edges l)) (last_of (vertices l)))).
Proof.
  intros Hwf Hrev He Hfuel.
  set (tail := (verts (edge bm e)).1).
  assert (Hin : e ∈ link_edges (vert bm tail)).
  { destruct (ChainFacts.wf_edge_ends bm e Hwf He) as [Ha _].
    apply ChainFacts.wf_link_edges; [done|done|]. split; [done|].
    unfold edge_has. by rewrite bool_decide_eq_true_2. }
  destruct (WalkTermination.find_loop_trace bm e tail ∅ fuel Hwf Hrev Hin Hfuel)
    as (e_k & v_k & before & Hok & Hstops & Hp).
  set (hist := (e_k, v_k) :: before) in *.
  set (z := other_vert bm e_k v_k) in *.
  set (partial := close_off (list.reverse (hist.*2) ++ [z]) (list.reverse (hist.*1))) in *.
  pose proof (WalkResults.find_loop_no_repeat fuel bm e tail ∅ partial Hwf Hrev Hin Hp)
    as (Hnd_p & _).
  pose proof (WalkResults.find_loop_ends fuel bm e tail ∅ partial Hwf Hrev Hin Hp) as Hends_p.
  pose proof (LoopFacts.find_loop_shape _ _ _ _ _ _ Hp) as (vs_p & es_p & Hv_p & He_p & _ & Hset_p).
  assert (Hlv : last_of (vertices partial) = z).
  { unfold last_of, partial. cbn [vertices close_off]. by rewrite last_snoc. }
  assert (Hle : last_of (edges partial) = e_k).
  { unfold last_of, partial. cbn [edges close_off]. by rewrite last_reverse. }
  assert (Hfv : first_of (vertices partial) = tail) by (by rewrite Hv_p).
  clearbody partial. unfold pure_edge_loop. fold tail. rewrite Hp. simpl.
  destruct (decide (first_of (vertices partial) = last_of (vertices partial))) as [Hclosed|Hopen].
  { exists partial. split; [done|]. split; [rewrite He_p; left|]. split; [done|].
    split; [done|]. left. apply is_closed_spec; [by rewrite Hv_p|done]. }
  rewrite Hlv, Hle.
  (* the far end of the first walk is an end of the chain *)
  assert (Hend_z : chain_end bm e_k z).
  { rewrite Hlv, Hle in Hends_p.
    destruct Hends_p as [?|[Hz|[?|Hc]]]; [by left| |by right|].
    - by apply not_elem_of_empty in Hz.
    - apply is_closed_spec in Hc; [done|by rewrite Hv_p]. }
  destruct Hok as (Hchain & Hin_k & Hnd & Hlast).
  destruct (WalkTermination.incident_ends bm e_k v_k Hwf Hin_k)
    as (_ & _ & Hk_z & Hback & _). fold z in Hk_z, Hback.
  destruct (WalkResults.find_loop_returns bm e_k z ∅ Hwf Hrev Hk_z) as [r Hr].
  specialize (Hr fuel Hfuel). rewrite Hr. simpl.
  pose proof (WalkResults.find_loop_no_repeat fuel bm e_k z ∅ r Hwf Hrev Hk_z Hr)
    as (Hnd_r & _).
  pose proof (WalkResults.find_loop_ends fuel bm e_k z ∅ r Hwf Hrev Hk_z Hr) as Hends_r.
  pose proof (LoopFacts.find_loop_shape _ _ _ _ _ _ Hr) as (vs_r & es_r & Hv_r & He_r & _ & Hset_r).
  assert (Hfirst_r : chain_end bm (first_of (edges r)) (first_of (vertices r))).
  { by rewrite Hv_r, He_r. }
  assert (Hlast_r : is_closed r = true ∨
                    chain_end bm (last_of (edges r)) (last_of (vertices r))).
  { destruct Hends_r as [?|[Hz|[?|?]]]; [by right; left| |by right; right|by left].
    by apply not_elem_of_empty in Hz. }
  (* the second walk retraces the first *)
  assert (He_in : e ∈ edges r).
  { pose proof (WalkTermination.history_length bm e tail hist Hwf
                  (conj Hchain (conj Hin_k (conj Hnd Hlast)))) as Hlen.
    unfold walk_budget in Hfuel. unfold find_loop in Hr. rewrite Hback in Hr.
    replace fuel with (length before + (fuel - length before)) in Hr
      by (simpl in Hlen; lia).
    rewrite (walk_retraces_prefix bm e_k Hwf Hrev before e_k v_k _ _ _ e tail) in Hr;
      try done.
    - apply LoopFacts.walk_extends in Hr as (_ & es' & _ & -> & _).
      apply elem_of_app. left. apply elem_of_app.
      destruct before as [|s before'].
      + left. simpl in Hlast. injection Hlast as -> _. left.
      + right. apply list_elem_of_fmap. exists (e, tail). split; [done|].
        unfold hist in Hlast. rewrite last_cons_cons in Hlast.
        by apply last_Some_elem_of.
    - simpl in Hnd. by apply NoDup_cons in Hnd as [? _]. }
  destruct (decide (last_of (edges r) = e)) as [Hrev_first|_].
  - eexists. split; [done|]. cbn [vertices edges edge_set].
    rewrite !first_of_rev, !last_of_rev.
    split; [by rewrite SearchFacts.rev_reverse, elem_of_reverse|].
    split; [by rewrite SearchFacts.list_to_set_rev|].
    split; [by rewrite SearchFacts.rev_reverse, reverse_Permutation|].
    destruct Hlast_r as [Hc|Hl]; [left|by right].
    unfold is_closed in *. cbn [vertices].
    rewrite SearchFacts.rev_reverse, head_reverse, last_reverse.
    destruct (head (vertices r)), (last (vertices r)); try done.
    apply bool_decide_eq_true in Hc. by apply bool_decide_eq_true.
  - exists r. split; [done|]. split; [done|]. split; [done|]. split; [done|].
    destruct Hlast_r as [Hc|Hl]; [by left|by right].
Qed.

End PureLoopTotal.

(** X7.  On a well-formed mesh whose scan is reversible, [pure_edge_loop]
    returns for every edge of the mesh; the loop holds the edge, has no edge
    twice, and is as long as it can be: it is closed, or the walk can go no
    further at either end (a pole, or no next edge). *)
Theorem pure_edge_loop_is_maximal fuel bm e :
  wf_mesh bm = true → reversibleb bm = true →
  e < length (bm_edges bm) → walk_budget bm ≤ fuel →
  ∃ l, pure_edge_loop fuel bm e = Some l ∧
       e ∈ edges l ∧ edge_set l = list_to_set (edges l) ∧ NoDup (edges l) ∧
       (is_closed l = true ∨
        (chain_end bm (first_of (edges l)) (first_of (vertices l)) ∧
         chain_end bm (last_of (edges l)) (last_of (vertices l)))).
Proof. apply PureLoopTotal.pure_edge_loop_returns. Qed.

Lemma pure_edge_loop_is_maximal_witness :
  ∃ l, pure_edge_loop 12 grid3x3 8 = Some l ∧
       8 ∈ edges l ∧ edge_set l = list_to_set (edges l) ∧ NoDup (edges l) ∧
       (is_closed l = true ∨
        (chain_end grid3x3 (first_of (edges l)) (first_of (vertices l)) ∧
         chain_end grid3x3 (last_of (edges l)) (last_of (vertices l)))).
Proof.
  apply (pure_edge_loop_is_maximal 12 grid3x3 8).
  - vm_compute. reflexivity.
  - vm_compute. reflexivity.
  - vm_compute. lia.
  - vm_compute. lia.
Defined.

(** ** get_edge_loops: the cap, and the search on meshes with a reversible scan *)

Module SearchTotal.

(** The search returns what it was given and what it appended, never more
    than one entry past the cap. *)
Lemma search_cap pq bm first_vertex : ∀ fuel queue visited all_loops ls,
  search pq fuel bm first_vertex queue visited all_loops = Some ls →
  length all_loops ≤ S MAX_EDGE_LOOPS →
  length all_loops ≤ length ls ∧ length ls ≤ S MAX_EDGE_LOOPS.
Proof.
  induction fuel as [|fuel IH]; intros queue visited all_loops ls H Hlen; [done|].
  simpl in H. destruct queue as [|x q].
  { injection H as <-. lia. }
  destruct (heappop pq x q) as [candidate queue'].
  destruct (decide (MAX_EDGE_LOOPS < length all_loops)) as [|Hroom].
  { injection H as <-. lia. }
  destruct (decide (end_vertex candidate = first_vertex)).
  { apply IH in H; rewrite length_app in *; simpl in *; lia. }
  destruct (bool_decide (end_vertex candidate ∈ visited)).
  { by apply IH in H. }
  destruct (for_each _ _ queue') as [queue''|]; [simpl in H|done].
  by apply IH in H.
Qed.

Section WithQueue.
Context (pq : Heapq) (laws : HeapqLaws pq).
Context (bm : BMesh) (Hwf : wf_mesh bm = true) (Hrev : reversibleb bm = true).

Lemma expand_all_returns fuel stop candidate v :
  walk_budget bm ≤ fuel →
  ∀ link queue,
  (∀ x, x ∈ link → x ∈ link_edges (vert bm v)) →
  heap_inv pq queue →
  ∃ queue'', for_each (expand pq fuel bm stop candidate v) link queue = Some queue'' ∧
             heap_inv pq queue'' ∧ length queue'' ≤ length link + length queue.
Proof.
  intros Hfuel. induction link as [|le link IH]; intros queue Hlink Hinv; simpl.
  { exists queue. split; [done|]. split; [done|lia]. }
  assert (Hstep : ∃ q1, expand pq fuel bm stop candidate v queue le = Some q1 ∧
                        heap_inv pq q1 ∧ length q1 ≤ S (length queue)).
  { unfold expand. destruct (existsb _ (loops candidate)).
    { exists queue. split; [done|]. split; [done|lia]. }
    destruct (WalkResults.find_loop_returns bm le v stop Hwf Hrev) as [l Hl];
      [apply Hlink; left|].
    rewrite (Hl fuel Hfuel). simpl. eexists. split; [done|].
    split; [by apply (heappush_inv pq laws)|].
    by rewrite (heappush_perm pq laws). }
  destruct Hstep as (q1 & -> & Hinv1 & Hlen1). simpl.
  destruct (IH q1) as (q2 & Hq2 & Hinv2 & Hlen2); [|done|].
  { intros x Hx. apply Hlink. by right. }
  exists q2. split; [done|]. split; [done|lia].
Qed.

(** Expanding a vertex uses up its incident edges. *)
Lemma unexpanded_insert v visited :
  v ∉ visited →
  unexpanded bm ({[v]} ∪ visited) + length (link_edges (vert bm v)) ≤ unexpanded bm visited.
Proof.
  intros Hv. unfold unexpanded.
  destruct (decide (v < length (bm_verts bm))) as [Hin|Hout].
  - assert (Hgen : ∀ l, NoDup l → v ∈ l →
      sum_list_with (λ w, if bool_decide (w ∈ {[v]} ∪ visited) then 0
                          else length (link_edges (vert bm w))) l
      + length (link_edges (vert bm v)) ≤
      sum_list_with (λ w, if bool_decide (w ∈ visited) then 0
                          else length (link_edges (vert bm w))) l).
    { assert (Hle : ∀ l,
        sum_list_with (λ w, if bool_decide (w ∈ {[v]} ∪ visited) then 0
                            else length (link_edges (vert bm w))) l ≤
        sum_list_with (λ w, if bool_decide (w ∈ visited) then 0
                            else length (link_edges (vert bm w))) l).
      { induction l as [|w l IH]; [done|]. simpl.
        repeat case_bool_decide; try lia.
        exfalso. match goal with H : ¬ _ ∈ _ ∪ _ |- _ => apply H end.
        apply elem_of_union. by right. }
      induction l as [|w l IH]; intros Hnd Hl; [by apply elem_of_nil in Hl|].
      apply NoDup_cons in Hnd as [Hw Hnd]. simpl.
      apply elem_of_cons in Hl as [<-|Hl].
      - rewrite bool_decide_eq_true_2 by (apply elem_of_union; left; by apply elem_of_singleton).
        rewrite (bool_decide_eq_false_2 (v ∈ visited)) by done.
        specialize (Hle l). lia.
      - specialize (IH Hnd Hl). repeat case_bool_decide; try lia.
        exfalso. match goal with H : ¬ _ ∈ _ ∪ _ |- _ => apply H end.
        apply elem_of_union. by right. }
    apply Hgen; [apply NoDup_seq|]. by apply ChainFacts.elem_of_indices.
  - unfold vert at 2. rewrite lookup_ge_None_2 by lia. simpl. rewrite Nat.add_0_r.
    induction (indices (bm_verts bm)) as [|w l IH]; [done|]. simpl.
    repeat case_bool_decide; try lia.
    exfalso. match goal with H : ¬ _ ∈ _ ∪ _ |- _ => apply H end.
    apply elem_of_union. by right.
Qed.

(** The loop of [get_edge_loops] returns when it has iterations enough for
    what is left of the search and for the walks it starts. *)
Lemma search_returns first_vertex : ∀ fuel queue visited all_loops,
  heap_inv pq queue →
  walk_budget bm + search_left bm queue visited < fuel →
  is_Some (search pq fuel bm first_vertex queue visited all_loops).
Proof.
  induction fuel as [|fuel IH]; intros queue visited all_loops Hinv Hfuel; [lia|].
  simpl. destruct queue as [|x q]; [done|].
  pose proof (heappop_inv pq laws x q Hinv) as Hinv'.
  pose proof (heappop_perm pq laws x q Hinv) as Hperm.
  destruct (heappop pq x q) as [candidate queue'] eqn:Hpop. simpl in Hinv', Hperm.
  apply Permutation_length in Hperm. simpl in Hperm.
  unfold search_left in *. simpl in Hfuel.
  destruct (decide (MAX_EDGE_LOOPS < length all_loops)); [done|].
  destruct (decide (end_vertex candidate = first_vertex)).
  { apply IH; [done|lia]. }
  case_bool_decide as Hseen.
  { apply IH; [done|lia]. }
  destruct (expand_all_returns fuel {[first_vertex]} candidate (end_vertex candidate))
    with (link := link_edges (vert bm (end_vertex candidate))) (queue := queue')
    as (queue'' & -> & Hinv'' & Hlen''); [lia|done|done|].
  simpl. apply IH; [done|].
  pose proof (unexpanded_insert (end_vertex candidate) visited Hseen). lia.
Qed.

End WithQueue.

End SearchTotal.

(** X8.  [get_edge_loops] never returns an empty list and never more than
    [MAX_EDGE_LOOPS + 1] entries: the search stops once the list is longer
    than [MAX_EDGE_LOOPS]. *)
Theorem get_edge_loops_at_most_eleven pq fuel bm e ls :
  get_edge_loops pq fuel bm e = Some ls →
  1 ≤ length ls ∧ length ls ≤ S MAX_EDGE_LOOPS.
Proof.
  unfold get_edge_loops. intros H.
  destruct (pure_edge_loop fuel bm e) as [pure|]; [simpl in H|done].
  destruct (is_closed pure).
  { injection H as <-. unfold MAX_EDGE_LOOPS. simpl. lia. }
  apply SearchTotal.search_cap in H; unfold MAX_EDGE_LOOPS in *; simpl in *; lia.
Qed.

Lemma get_edge_loops_at_most_eleven_witness :
  1 ≤ length [({[0]} : gset nat); {[0; 1; 2; 5]}; {[0; 1; 2; 5]}] ∧
  length [({[0]} : gset nat); {[0; 1; 2; 5]}; {[0; 1; 2; 5]}] ≤ S MAX_EDGE_LOOPS.
Proof.
  apply (get_edge_loops_at_most_eleven list_pq 12 quad_diag 0).
  vm_compute. reflexivity.
Defined.

(** X9.  On a well-formed mesh whose scan is reversible, with a priority
    queue that meets the contract of [heapq], [get_edge_loops] returns for
    every edge of the mesh, and every set it returns holds that edge. *)
Theorem get_edge_loops_returns_when_reversible pq fuel bm e :
  HeapqLaws pq → wf_mesh bm = true → reversibleb bm = true →
  e < length (bm_edges bm) → search_budget bm ≤ fuel →
  ∃ ls, get_edge_loops pq fuel bm e = Some ls ∧ ∀ s, s ∈ ls → e ∈ s.
Proof.
  intros laws Hwf Hrev He Hfuel. unfold search_budget in Hfuel.
  destruct (PureLoopTotal.pure_edge_loop_returns fuel bm e Hwf Hrev He)
    as (pure & Hpure & He_in & Hset & _); [lia|].
  assert (Hrun : is_Some (get_edge_loops pq fuel bm e)).
  { unfold get_edge_loops. rewrite Hpure. simpl. destruct (is_closed pure); [done|].
    apply (SearchTotal.search_returns pq laws bm Hwf Hrev).
    - apply (heap_inv_one pq laws).
    - unfold search_left. simpl. lia. }
  destruct Hrun as [ls Hls]. exists ls. split; [done|].
  apply GetEdgeLoopsFacts.get_edge_loops_chains in Hls
    as (pure' & nodes & Hpure' & _ & -> & Hnodes & _); [|done].
  rewrite Hpure in Hpure'. injection Hpure' as <-.
  assert (He_set : e ∈ edge_set pure).
  { rewrite Hset. by apply elem_of_list_to_set. }
  intros s [->|Hs]%elem_of_cons; [done|].
  apply list_elem_of_fmap in Hs as (nd & -> & Hnd).
  rewrite Forall_forall in Hnodes. destruct (Hnodes nd Hnd) as ((_ & Hsub & _) & _).
  by apply Hsub.
Qed.

Lemma get_edge_loops_returns_when_reversible_witness :
  ∃ ls, get_edge_loops list_pq 38 grid3x3 8 = Some ls ∧ ∀ s, s ∈ ls → 8 ∈ s.
Proof.
  apply (get_edge_loops_returns_when_reversible list_pq 38 grid3x3 8).
  - apply QueueFacts.list_pq_laws.
  - vm_compute. reflexivity.
  - vm_compute. reflexivity.
  - vm_compute. lia.
  - vm_compute. lia.
Defined.

(** ** The selected edges and their islands *)

Import Islands.

Module DictFacts.

Lemma dict_get_append d k x k' :
  dict_get (dict_append d k x) k' =
    if decide (k' = k) then dict_get d k ++ [x] else dict_get d k'.
Proof.
  induction d as [|[k0 xs] d IH]; simpl.
  - repeat case_decide; subst; done.
  - destruct (decide (k0 = k)) as [->|Hk0]; simpl.
    + repeat case_decide; subst; done.
    + rewrite IH. repeat case_decide; subst; done.
Qed.

Lemma dict_keys_append d k x :
  (dict_append d k x).*1 = if bool_decide (k ∈ d.*1) then d.*1 else d.*1 ++ [k].
Proof.
  induction d as [|[k0 xs] d IH]; cbn [dict_append].
  - rewrite bool_decide_eq_false_2; [done|]. apply not_elem_of_nil.
  - destruct (decide (k0 = k)) as [->|Hk0]; rewrite !fmap_cons; cbn [fst].
    + rewrite bool_decide_eq_true_2; [done|]. left.
    + rewrite IH. case_bool_decide as Hk.
      * rewrite bool_decide_eq_true_2; [done|]. by right.
      * rewrite bool_decide_eq_false_2; [done|].
        intros [?|?]%elem_of_cons; [congruence|done].
Qed.

Lemma dict_append_NoDup d k x : NoDup d.*1 → NoDup (dict_append d k x).*1.
Proof.
  intros Hnd. rewrite dict_keys_append. case_bool_decide as Hk; [done|].
  apply NoDup_app. split; [done|]. split; [|apply NoDup_singleton].
  intros y Hy ->%list_elem_of_singleton. done.
Qed.

Lemma dict_get_missing d k : k ∉ d.*1 → dict_get d k = [].
Proof.
  induction d as [|[k0 xs] d IH]; [done|]. simpl. intros Hk.
  apply not_elem_of_cons in Hk as [Hne Hk]. rewrite decide_False by done. by apply IH.
Qed.

Lemma dict_get_entry d k : k ∈ d.*1 → (k, dict_get d k) ∈ d.
Proof.
  induction d as [|[k0 xs] d IH]; simpl.
  { intros Hk. by apply elem_of_nil in Hk. }
  intros Hk. case_decide as Hk0; [subst; left|].
  right. apply IH. apply elem_of_cons in Hk as [?|?]; [congruence|done].
Qed.

Lemma dict_entry d k xs : NoDup d.*1 → (k, xs) ∈ d → dict_get d k = xs.
Proof.
  induction d as [|[k0 ys] d IH]; simpl; intros Hnd Hin.
  { by apply elem_of_nil in Hin. }
  apply NoDup_cons in Hnd as [Hk0 Hnd].
  apply elem_of_cons in Hin as [[= -> ->]|Hin]; [by rewrite decide_True|].
  case_decide as Hk; [|by apply IH]. subst k0.
  exfalso. apply Hk0. apply list_elem_of_fmap. by exists (k, xs).
Qed.

(** The keys whose lists pass a test that the empty list fails *)
Lemma filter_keys (P : nat * list nat → Prop) `{∀ p, Decision (P p)}
    (Q : list nat → Prop) (d : list (nat * list nat)) v :
  NoDup d.*1 → (∀ k xs, P (k, xs) ↔ Q xs) → ¬ Q [] →
  v ∈ (filter P d).*1 ↔ Q (dict_get d v).
Proof.
  intros Hnd HPQ Hnil. split.
  - intros ([k xs] & -> & [HP Hin]%list_elem_of_filter)%list_elem_of_fmap. simpl in *.
    rewrite (dict_entry d k xs) by done. by apply (HPQ k).
  - intros HQ. destruct (decide (v ∈ d.*1)) as [Hv|Hv].
    + apply list_elem_of_fmap. exists (v, dict_get d v). split; [done|].
      apply list_elem_of_filter. split; [by apply HPQ|]. by apply dict_get_entry.
    + rewrite dict_get_missing in HQ by done. done.
Qed.

Lemma filter_keys_NoDup (P : nat * list nat → Prop) `{∀ p, Decision (P p)}
    (d : list (nat * list nat)) :
  NoDup d.*1 → NoDup (filter P d).*1.
Proof.
  induction d as [|p d IH]; [done|]. intros Hnd. rewrite fmap_cons in Hnd.
  apply NoDup_cons in Hnd as [Hp Hnd]. rewrite filter_cons. case_decide; [|by apply IH].
  rewrite fmap_cons. apply NoDup_cons. split; [|by apply IH].
  intros (q & Hq & [_ Hin]%list_elem_of_filter)%list_elem_of_fmap.
  apply Hp. apply list_elem_of_fmap. by exists q.
Qed.

(** The table of [from_bmesh]: under each vertex, the selected edges that
    have it as an end, in order, an edge once for each of its ends there. *)
Lemma verts_to_edges_keys bm sel : NoDup (verts_to_edges bm sel).*1.
Proof.
  unfold verts_to_edges.
  assert (Hgen : ∀ d : dict, NoDup d.*1 →
    NoDup (foldl (λ d e, let '(a, b) := verts (edge bm e) in
                         dict_append (dict_append d a e) b e) d sel).*1).
  { induction sel as [|e sel IH]; intros d Hd; [done|]. simpl. apply IH.
    destruct (verts (edge bm e)) as [a b]. by do 2 apply dict_append_NoDup. }
  apply Hgen. apply NoDup_nil_2.
Qed.

Lemma verts_to_edges_get bm sel v :
  dict_get (verts_to_edges bm sel) v =
  sel ≫= λ e, (if decide ((verts (edge bm e)).1 = v) then [e] else []) ++
              (if decide ((verts (edge bm e)).2 = v) then [e] else []).
Proof.
  unfold verts_to_edges.
  assert (Hgen : ∀ d : dict,
    dict_get (foldl (λ d e, let '(a, b) := verts (edge bm e) in
                            dict_append (dict_append d a e) b e) d sel) v =
    dict_get d v ++
    (sel ≫= λ e, (if decide ((verts (edge bm e)).1 = v) then [e] else []) ++
                 (if decide ((verts (edge bm e)).2 = v) then [e] else []))).
  { induction sel as [|e sel IH]; intros d; simpl.
    { by rewrite app_nil_r. }
    rewrite IH. destruct (verts (edge bm e)) as [a b]. simpl.
    rewrite !dict_get_append.
    repeat case_decide; subst; simpl; rewrite <- ?app_assoc; try done; congruence. }
  by rewrite Hgen.
Qed.

Lemma verts_to_edges_spec bm sel v e :
  e ∈ dict_get (verts_to_edges bm sel) v ↔ e ∈ sel ∧ edge_has bm e v = true.
Proof.
  rewrite verts_to_edges_get, list_elem_of_bind. unfold edge_has.
  rewrite orb_true_iff, !bool_decide_eq_true. split.
  - intros (y & Hy & Hsel). apply elem_of_app in Hy as [Hy|Hy]; case_decide; 
      try (by apply elem_of_nil in Hy); apply list_elem_of_singleton in Hy; subst; auto.
  - intros [Hsel Hv]. exists e. split; [|done]. apply elem_of_app.
    destruct Hv as [->| ->]; [left|right]; rewrite decide_True by done; left.
Qed.

Lemma verts_to_edges_length bm sel v :
  (∀ e, e ∈ sel → (verts (edge bm e)).1 ≠ (verts (edge bm e)).2) →
  length (dict_get (verts_to_edges bm sel) v) = selected_degree bm sel v.
Proof.
  rewrite verts_to_edges_get. unfold selected_degree.
  induction sel as [|e sel IH]; intros Hends; [done|].
  rewrite bind_cons, filter_cons, !length_app, IH.
  2:{ intros e' He'. apply Hends. by right. }
  specialize (Hends e (ltac:(left))). unfold edge_has.
  destruct (decide ((verts (edge bm e)).1 = v)) as [H1|H1];
  destruct (decide ((verts (edge bm e)).2 = v)) as [H2|H2]; simpl.
  - congruence.
  - rewrite decide_True; [done|]. rewrite bool_decide_eq_true_2; done.
  - rewrite decide_True; [done|]. rewrite (bool_decide_eq_true_2 (v = _.2)) by done.
    apply orb_true_r.
  - rewrite decide_False; [done|].
    rewrite !bool_decide_eq_false_2 by congruence. done.
Qed.

End DictFacts.

Module FloodFacts.

Section Flood.
Context (set_pop : gset nat → gset nat → nat) (Hpop : pop_law set_pop).
Context (bm : BMesh) (sel : list nat) (d : dict).
Context (Hd : ∀ v e, e ∈ dict_get d v ↔ e ∈ sel ∧ edge_has bm e v = true).

Lemma adjacent_sym e1 e2 : adjacent bm sel e1 e2 → adjacent bm sel e2 e1.
Proof. intros (? & ? & v & ? & ?). split; [done|]. split; [done|]. by exists v. Qed.

Lemma connected_sym e1 e2 : connected bm sel e1 e2 → connected bm sel e2 e1.
Proof.
  unfold connected. induction 1 as [|x y z Hxy _ IH]; [done|].
  eapply rtc_r; [exact IH|]. by apply adjacent_sym.
Qed.

Lemma flood_unfold fuel todo island searched :
  flood set_pop (S fuel) bm d todo island searched =
    if decide (todo = ∅) then Some (island, searched)
    else
      let cur := set_pop searched todo in
      flood set_pop fuel bm d
        (todo ∖ {[cur]}
           ∪ list_to_set (filter (λ e, e ∉ {[cur]} ∪ searched)
                                 (dict_get d (verts (edge bm cur)).1))
           ∪ list_to_set (filter (λ e, e ∉ {[cur]} ∪ searched)
                                 (dict_get d (verts (edge bm cur)).2)))
        (island ++ [cur]) ({[cur]} ∪ searched).
Proof.
  simpl. destruct (decide (todo = ∅)); [done|].
  by destruct (verts (edge bm (set_pop searched todo))).
Qed.

(** One iteration keeps the state of the search. *)
Lemma flood_step seed searched0 todo island searched :
  flood_inv bm sel seed searched0 todo island searched → todo ≠ ∅ →
  let cur := set_pop searched todo in
  cur ∈ sel ∧ (cur ∉ searched) ∧
  flood_inv bm sel seed searched0
    (todo ∖ {[cur]}
       ∪ list_to_set (filter (λ e, e ∉ {[cur]} ∪ searched)
                             (dict_get d (verts (edge bm cur)).1))
       ∪ list_to_set (filter (λ e, e ∉ {[cur]} ∪ searched)
                             (dict_get d (verts (edge bm cur)).2)))
    (island ++ [cur]) ({[cur]} ∪ searched).
Proof.
  intros [Hs Hnd Hfresh Htodo Hisl Hclosed Hseed] Hne cur.
  pose proof (Hpop searched todo Hne) as Hcur. fold cur in Hcur.
  destruct (Htodo cur Hcur) as (Hcur_sel & Hcur_new & Hcur_conn).
  split; [done|]. split; [done|].
  assert (Hcur_isl : cur ∉ island).
  { intros Hin. apply Hcur_new. rewrite Hs. apply elem_of_union. right.
    by apply elem_of_list_to_set. }
  assert (Hnew : ∀ e v, edge_has bm cur v = true →
            e ∈ filter (λ e, e ∉ {[cur]} ∪ searched) (dict_get d v) →
            e ∈ sel ∧ (e ∉ {[cur]} ∪ searched) ∧ connected bm sel seed e).
  { intros e v Hv [Hnot [He_sel He_v]%Hd]%list_elem_of_filter.
    split; [done|]. split; [done|].
    eapply rtc_r; [exact Hcur_conn|]. split; [done|]. split; [done|]. by exists v. }
  assert (Hend1 : edge_has bm cur (verts (edge bm cur)).1 = true).
  { unfold edge_has. by rewrite bool_decide_eq_true_2. }
  assert (Hend2 : edge_has bm cur (verts (edge bm cur)).2 = true).
  { unfold edge_has. rewrite (bool_decide_eq_true_2 (_ = _.2)) by done. apply orb_true_r. }
  split.
  - rewrite Hs, list_to_set_app_L. simpl. rewrite (right_id_L ∅ (∪)).
    apply set_eq. intros x. rewrite !elem_of_union. tauto.
  - apply NoDup_app. split; [done|]. split; [|apply NoDup_singleton].
    intros x Hx ->%list_elem_of_singleton. done.
  - intros e [He| ->%list_elem_of_singleton]%elem_of_app; [by apply Hfresh|].
    intros H0. apply Hcur_new. rewrite Hs. apply elem_of_union. by left.
  - intros e [[He|He]%elem_of_union|He]%elem_of_union.
    + apply elem_of_difference in He as [He Hne_cur].
      destruct (Htodo e He) as (? & Hnot & ?). split; [done|]. split; [|done].
      intros [?|?]%elem_of_union; [done|done].
    + apply elem_of_list_to_set in He. by apply (Hnew e _ Hend1).
    + apply elem_of_list_to_set in He. by apply (Hnew e _ Hend2).
  - intros e [He| ->%list_elem_of_singleton]%elem_of_app; [by apply Hisl|done].
  - intros e e' He Hadj.
    assert (Hkeep : e' ∈ searched ∨ e' ∈ todo →
      e' ∈ {[cur]} ∪ searched ∨
      e' ∈ todo ∖ {[cur]}
           ∪ list_to_set (filter (λ e, e ∉ {[cur]} ∪ searched)
                                 (dict_get d (verts (edge bm cur)).1))
           ∪ list_to_set (filter (λ e, e ∉ {[cur]} ∪ searched)
                                 (dict_get d (verts (edge bm cur)).2))).
    { intros [H1|H1]; [left; apply elem_of_union; by right|].
      destruct (decide (e' = cur)) as [->|Hne'].
      - left. apply elem_of_union. left. by apply elem_of_singleton.
      - right. apply elem_of_union. left. apply elem_of_union. left.
        apply elem_of_difference. split; [done|]. by intros ?%elem_of_singleton. }
    apply elem_of_app in He as [He| ->%list_elem_of_singleton].
    { apply Hkeep. by apply (Hclosed e e'). }
    destruct Hadj as (_ & He'_sel & v & Hv & Hv').
    destruct (decide (e' ∈ {[cur]} ∪ searched)) as [|Hnot]; [by left|]. right.
    assert (Hin : e' ∈ filter (λ e, e ∉ {[cur]} ∪ searched) (dict_get d v)).
    { apply list_elem_of_filter. split; [done|]. by apply Hd. }
    unfold edge_has in Hv. apply orb_true_iff in Hv as [Hv|Hv];
      apply bool_decide_eq_true in Hv; subst v.
    + apply elem_of_union. left. apply elem_of_union. right. by apply elem_of_list_to_set.
    + apply elem_of_union. right. by apply elem_of_list_to_set.
  - destruct Hseed as [Hseed|Hseed]; [left; apply elem_of_app; by left|].
    destruct (decide (seed = cur)) as [->|Hne'].
    + left. apply elem_of_app. right. left.
    + right. apply elem_of_union. left. apply elem_of_union. left.
      apply elem_of_difference. split; [done|]. by intros ?%elem_of_singleton.
Qed.

(** When the search returns, nothing is left to search. *)
Lemma flood_spec seed searched0 : ∀ fuel todo island searched r,
  flood_inv bm sel seed searched0 todo island searched →
  flood set_pop fuel bm d todo island searched = Some r →
  flood_inv bm sel seed searched0 ∅ r.1 r.2.
Proof.
  induction fuel as [|fuel IH]; intros todo island searched r Hinv Hrun; [done|].
  rewrite flood_unfold in Hrun. destruct (decide (todo = ∅)) as [->|Hne].
  { by injection Hrun as <-. }
  destruct (flood_step _ _ _ _ _ Hinv Hne) as (_ & _ & Hinv').
  by apply IH in Hrun.
Qed.

(** The search returns: each iteration takes a selected edge that had not
    been searched. *)
Lemma flood_returns seed searched0 : ∀ fuel todo island searched,
  flood_inv bm sel seed searched0 todo island searched →
  size (list_to_set sel ∖ searched : gset nat) < fuel →
  is_Some (flood set_pop fuel bm d todo island searched).
Proof.
  induction fuel as [|fuel IH]; intros todo island searched Hinv Hfuel; [lia|].
  rewrite flood_unfold. destruct (decide (todo = ∅)) as [|Hne]; [done|].
  destruct (flood_step _ _ _ _ _ Hinv Hne) as (Hcur_sel & Hcur_new & Hinv').
  apply IH; [done|].
  assert (Hlt : (list_to_set sel ∖ ({[set_pop searched todo]} ∪ searched) : gset nat)
                ⊂ list_to_set sel ∖ searched).
  { split.
    - intros x [Hx Hnot]%elem_of_difference. apply elem_of_difference. split; [done|].
      intros Hs. apply Hnot. apply elem_of_union. by right.
    - intros Hsub. specialize (Hsub (set_pop searched todo)).
      rewrite !elem_of_difference, elem_of_list_to_set in Hsub.
      destruct Hsub as [_ Hnot]; [done|]. apply Hnot. apply elem_of_union. left.
      by apply elem_of_singleton. }
  apply subset_size in Hlt. lia.
Qed.

(** The body of the [for]: a selected edge not yet searched starts a new
    island, which is its component. *)
Lemma island_from_inv fuel st e st' :
  islands_inv bm sel st → e ∈ sel →
  island_from set_pop fuel bm d st e = Some st' →
  islands_inv bm sel st' ∧ e ∈ st'.2 ∧ st.2 ⊆ st'.2.
Proof.
  intros [Hs Hnd Hsel Hclosed Hisl] He. unfold island_from.
  case_bool_decide as Hseen.
  { intros [= <-]. by repeat split. }
  destruct (flood set_pop fuel bm d {[e]} [] st.2) as [r|] eqn:Hrun; [simpl|done].
  intros [= <-]. simpl.
  assert (Hinit : flood_inv bm sel e st.2 {[e]} [] st.2).
  { split.
    - simpl. by rewrite (right_id_L ∅ (∪)).
    - apply NoDup_nil_2.
    - intros x Hx. by apply elem_of_nil in Hx.
    - intros x ->%elem_of_singleton. split; [done|]. split; [done|]. apply rtc_refl.
    - intros x Hx. by apply elem_of_nil in Hx.
    - intros x x' Hx. by apply elem_of_nil in Hx.
    - right. by apply elem_of_singleton. }
  apply (flood_spec _ _ _ _ _ _ _ Hinit) in Hrun.
  destruct Hrun as [Hs' Hnd' Hfresh' _ Hisl' Hclosed' Hseed'].
  destruct r as [island searched']. simpl in *.
  assert (Hseed : e ∈ island).
  { destruct Hseed' as [|Hx]; [done|]. by apply not_elem_of_empty in Hx. }
  assert (Hin_st : ∀ x, x ∈ concat st.1 → x ∈ st.2).
  { intros x Hx. rewrite Hs. by apply elem_of_list_to_set. }
  split; [split; simpl|].
  - rewrite Hs', Hs, concat_app, list_to_set_app_L. simpl. by rewrite app_nil_r.
  - rewrite concat_app. simpl. rewrite app_nil_r. apply NoDup_app.
    split; [done|]. split; [|done]. intros x Hx Hx'. by apply (Hfresh' x Hx'), Hin_st.
  - intros x. rewrite Hs'. intros [Hx|Hx]%elem_of_union; [by apply Hsel|].
    apply elem_of_list_to_set in Hx. by apply Hisl'.
  - intros x x' Hx Hadj. rewrite Hs' in Hx. apply elem_of_union in Hx as [Hx|Hx].
    + rewrite Hs'. apply elem_of_union. left. by apply (Hclosed x x').
    + apply elem_of_list_to_set in Hx.
      destruct (Hclosed' x x' Hx Hadj) as [|Hx']; [done|]. by apply not_elem_of_empty in Hx'.
  - apply Forall_app. split; [done|]. apply Forall_singleton. split; [|split].
    + intros ->. by apply elem_of_nil in Hseed.
    + intros e1 e2 He1 He2. unfold connected. etrans.
      * apply connected_sym. by apply Hisl'.
      * by apply Hisl'.
    + intros x x' Hx Hadj.
      destruct (Hclosed' x x' Hx Hadj) as [Hx'|Hx']; [|by apply not_elem_of_empty in Hx'].
      rewrite Hs' in Hx'. apply elem_of_union in Hx' as [Hx'|Hx'];
        [|by apply elem_of_list_to_set in Hx'].
      exfalso. apply (Hfresh' x Hx). apply (Hclosed x' x Hx'). by apply adjacent_sym.
  - split.
    + rewrite Hs'. apply elem_of_union. right. by apply elem_of_list_to_set.
    + rewrite Hs'. apply union_subseteq_l.
Qed.

Lemma island_from_returns fuel st e :
  islands_inv bm sel st → e ∈ sel → length sel < fuel →
  is_Some (island_from set_pop fuel bm d st e).
Proof.
  intros [Hs Hnd Hsel Hclosed Hisl] He Hfuel. unfold island_from.
  case_bool_decide as Hseen; [done|].
  destruct (flood_returns e st.2 fuel {[e]} [] st.2) as [r ->]; [| |done].
  - split.
    + simpl. by rewrite (right_id_L ∅ (∪)).
    + apply NoDup_nil_2.
    + intros x Hx. by apply elem_of_nil in Hx.
    + intros x ->%elem_of_singleton. split; [done|]. split; [done|]. apply rtc_refl.
    + intros x Hx. by apply elem_of_nil in Hx.
    + intros x x' Hx. by apply elem_of_nil in Hx.
    + right. by apply elem_of_singleton.
  - pose proof (SearchFacts.size_list_to_set_le sel).
    assert (size (list_to_set sel ∖ st.2 : gset nat) ≤ size (list_to_set sel : gset nat))
      by apply subseteq_size, subseteq_difference_l, reflexivity.
    lia.
Qed.

(** The whole [for edge in selected_edges] *)
Lemma islands_inv_all fuel : ∀ es st st',
  (∀ e, e ∈ es → e ∈ sel) → islands_inv bm sel st →
  for_each (island_from set_pop fuel bm d) es st = Some st' →
  islands_inv bm sel st' ∧ (∀ e, e ∈ es → e ∈ st'.2) ∧ st.2 ⊆ st'.2.
Proof.
  induction es as [|e es IH]; intros st st' Hes Hinv Hrun; simpl in Hrun.
  { injection Hrun as <-. split; [done|]. split; [|done].
    intros e He. by apply elem_of_nil in He. }
  destruct (island_from set_pop fuel bm d st e) as [st1|] eqn:Hstep; [simpl in Hrun|done].
  apply island_from_inv in Hstep as (Hinv1 & He1 & Hsub1); [|done|apply Hes; left].
  apply IH in Hrun as (Hinv' & Hall & Hsub'); [|intros x Hx; apply Hes; by right|done].
  split; [done|]. split; [|by etrans].
  intros x [->|Hx]%elem_of_cons; [by apply Hsub'|by apply Hall].
Qed.

Lemma islands_return fuel : ∀ es st,
  (∀ e, e ∈ es → e ∈ sel) → islands_inv bm sel st → length sel < fuel →
  is_Some (for_each (island_from set_pop fuel bm d) es st).
Proof.
  induction es as [|e es IH]; intros st Hes Hinv Hfuel; simpl; [done|].
  destruct (island_from_returns fuel st e) as [st1 Hstep]; [done|apply Hes; left|done|].
  rewrite Hstep. simpl.
  apply island_from_inv in Hstep as (Hinv1 & _); [|done|apply Hes; left].
  apply IH; [intros x Hx; apply Hes; by right|done|done].
Qed.

End Flood.

Lemma islands_inv_init bm sel : islands_inv bm sel ([], ∅).
Proof.
  split; simpl; try done. apply NoDup_nil_2.
Qed.

Lemma selected_edge_list_NoDup bm st : NoDup (selected_edge_list bm st).
Proof. apply NoDup_filter, NoDup_seq. Qed.

Lemma selected_edge_list_length bm st :
  length (selected_edge_list bm st) ≤ length (bm_edges bm).
Proof.
  unfold selected_edge_list. etrans; [apply length_filter|].
  unfold indices. by rewrite length_seq.
Qed.

Lemma from_bmesh_empty set_pop fuel bm st :
  selected_edge_list bm st = [] →
  from_bmesh set_pop fuel bm st = Some (mkInfo [] [] [] (selected_vert_list bm st)).
Proof. unfold from_bmesh. by intros ->. Qed.

Lemma from_bmesh_nonempty set_pop fuel bm st :
  selected_edge_list bm st ≠ [] →
  from_bmesh set_pop fuel bm st =
  for_each (island_from set_pop fuel bm (verts_to_edges bm (selected_edge_list bm st)))
           (selected_edge_list bm st) ([], ∅)
  ≫= λ r, Some (mkInfo r.1
       (filter (λ p, length p.2 = 1) (verts_to_edges bm (selected_edge_list bm st))).*1
       (filter (λ p, 2 < length p.2) (verts_to_edges bm (selected_edge_list bm st))).*1
       (selected_vert_list bm st)).
Proof. unfold from_bmesh. by destruct (selected_edge_list bm st). Qed.

(** What [from_bmesh] returns, whenever it returns *)
Lemma from_bmesh_spec set_pop fuel bm st info :
  pop_law set_pop →
  from_bmesh set_pop fuel bm st = Some info →
  all_selected_verts info = selected_vert_list bm st ∧
  endpoints info =
    (filter (λ p, length p.2 = 1) (verts_to_edges bm (selected_edge_list bm st))).*1 ∧
  branching info =
    (filter (λ p, 2 < length p.2) (verts_to_edges bm (selected_edge_list bm st))).*1 ∧
  concat (edge_islands info) ≡ₚ selected_edge_list bm st ∧
  Forall (λ isl, isl ≠ [] ∧
            (∀ e1 e2, e1 ∈ isl → e2 ∈ isl →
                      connected bm (selected_edge_list bm st) e1 e2) ∧
            (∀ e e', e ∈ isl → adjacent bm (selected_edge_list bm st) e e' → e' ∈ isl))
         (edge_islands info).
Proof.
  intros Hpop Hrun.
  destruct (decide (selected_edge_list bm st = [])) as [Hsel|Hsel].
  { rewrite from_bmesh_empty in Hrun by done. injection Hrun as <-.
    rewrite Hsel. simpl. repeat split; done. }
  rewrite from_bmesh_nonempty in Hrun by done.
  set (sel := selected_edge_list bm st) in *.
  set (table := verts_to_edges bm sel) in *.
  destruct (for_each _ sel _) as [r|] eqn:Hloop; [simpl in Hrun|done].
  injection Hrun as <-. simpl.
  apply (islands_inv_all set_pop Hpop bm sel table) in Hloop
    as ([Hs Hnd Hin _ Hisl] & Hall & _);
    [|apply DictFacts.verts_to_edges_spec|done|apply islands_inv_init].
  repeat split; try done.
  apply NoDup_Permutation; [done|apply selected_edge_list_NoDup|].
  intros x. split.
  - intros Hx. apply Hin. rewrite Hs. by apply elem_of_list_to_set.
  - intros Hx. apply Hall in Hx. rewrite Hs in Hx. by apply elem_of_list_to_set in Hx.
Qed.

Lemma from_bmesh_returns set_pop fuel bm st :
  pop_law set_pop → length (bm_edges bm) < fuel →
  is_Some (from_bmesh set_pop fuel bm st).
Proof.
  intros Hpop Hfuel.
  pose proof (selected_edge_list_length bm st) as Hlen.
  destruct (decide (selected_edge_list bm st = [])) as [Hsel|Hsel].
  { by rewrite from_bmesh_empty. }
  rewrite from_bmesh_nonempty by done.
  destruct (islands_return set_pop Hpop bm (selected_edge_list bm st)
              (verts_to_edges bm (selected_edge_list bm st))
              (DictFacts.verts_to_edges_spec bm _) fuel
              (selected_edge_list bm st) ([], ∅)) as [r Hr];
    [done|apply islands_inv_init|lia|].
  by rewrite Hr.
Qed.

Lemma pop_least_law : pop_law pop_least.
Proof.
  intros searched s Hne. unfold pop_least.
  destruct (elements s) as [|x l] eqn:Hel.
  - by apply elements_empty_inv, leibniz_equiv in Hel.
  - simpl. apply elem_of_elements. rewrite Hel. left.
Qed.

End FloodFacts.

Module InfoFacts.

(** The ends and the branch points, read off the table. *)
Lemma from_bmesh_ends set_pop fuel bm st info :
  from_bmesh set_pop fuel bm st = Some info →
  endpoints info =
    (filter (λ p, length p.2 = 1) (verts_to_edges bm (selected_edge_list bm st))).*1 ∧
  branching info =
    (filter (λ p, 2 < length p.2) (verts_to_edges bm (selected_edge_list bm st))).*1.
Proof.
  intros Hrun.
  destruct (decide (selected_edge_list bm st = [])) as [Hsel|Hsel].
  { rewrite FloodFacts.from_bmesh_empty in Hrun by done. injection Hrun as <-.
    rewrite Hsel. done. }
  rewrite FloodFacts.from_bmesh_nonempty in Hrun by done.
  destruct (for_each _ _ _) as [r|]; [simpl in Hrun|done]. by injection Hrun as <-.
Qed.

Lemma selected_ends_differ bm st e :
  wf_mesh bm = true → e ∈ selected_edge_list bm st →
  (verts (edge bm e)).1 ≠ (verts (edge bm e)).2.
Proof.
  intros Hwf [_ He]%list_elem_of_filter.
  apply WalkTermination.wf_ends_differ; [done|]. by apply ChainFacts.elem_of_indices.
Qed.

Lemma from_bmesh_degrees set_pop fuel bm st info :
  wf_mesh bm = true →
  from_bmesh set_pop fuel bm st = Some info →
  (∀ v, v ∈ endpoints info ↔ selected_degree bm (selected_edge_list bm st) v = 1) ∧
  (∀ v, v ∈ branching info ↔ 2 < selected_degree bm (selected_edge_list bm st) v) ∧
  NoDup (endpoints info) ∧ NoDup (branching info).
Proof.
  intros Hwf Hrun. apply from_bmesh_ends in Hrun as [-> ->].
  pose proof (DictFacts.verts_to_edges_keys bm (selected_edge_list bm st)) as Hkeys.
  assert (Hlen : ∀ v, length (dict_get (verts_to_edges bm (selected_edge_list bm st)) v)
                      = selected_degree bm (selected_edge_list bm st) v).
  { intros v. apply DictFacts.verts_to_edges_length.
    intros e He. by eapply selected_ends_differ. }
  split; [|split; [|split]].
  - intros v. rewrite <- Hlen.
    by apply (DictFacts.filter_keys _ (λ xs, length xs = 1)).
  - intros v. rewrite <- Hlen.
    apply (DictFacts.filter_keys _ (λ xs, 2 < length xs)); [done|done|]. simpl. lia.
  - by apply DictFacts.filter_keys_NoDup.
  - by apply DictFacts.filter_keys_NoDup.
Qed.

(** The list of islands only grows, and an edge not yet searched adds one. *)
Lemma island_from_grows set_pop fuel bm d st e st' :
  island_from set_pop fuel bm d st e = Some st' →
  length st.1 ≤ length st'.1 ∧ (e ∉ st.2 → 0 < length st'.1).
Proof.
  unfold island_from. case_bool_decide as Hseen.
  { intros [= <-]. split; [done|]. by intros ?. }
  destruct (flood _ _ _ _ _ _ _) as [r|]; [simpl|done].
  intros [= <-]. simpl. rewrite length_app. simpl. split; [lia|]. intros _. lia.
Qed.

Lemma islands_grow set_pop fuel bm d : ∀ es st st',
  for_each (island_from set_pop fuel bm d) es st = Some st' →
  length st.1 ≤ length st'.1.
Proof.
  induction es as [|e es IH]; intros st st' Hrun; simpl in Hrun.
  { by injection Hrun as <-. }
  destruct (island_from set_pop fuel bm d st e) as [st1|] eqn:Hstep; [simpl in Hrun|done].
  apply island_from_grows in Hstep as [Hle _]. apply IH in Hrun. lia.
Qed.

Lemma from_bmesh_islands_nonempty set_pop fuel bm st info :
  from_bmesh set_pop fuel bm st = Some info →
  selected_edge_list bm st ≠ [] → edge_islands info ≠ [].
Proof.
  intros Hrun Hsel. rewrite FloodFacts.from_bmesh_nonempty in Hrun by done.
  destruct (selected_edge_list bm st) as [|e0 sel'] eqn:Hlist; [done|].
  destruct (for_each _ (e0 :: sel') _) as [r|] eqn:Hloop; [simpl in Hrun|done].
  injection Hrun as <-. simpl. simpl in Hloop.
  destruct (island_from _ _ _ _ _ e0) as [st1|] eqn:Hstep; [simpl in Hloop|done].
  apply island_from_grows in Hstep as [_ Hpos]. apply islands_grow in Hloop.
  specialize (Hpos (not_elem_of_empty _)). intros Hnil. rewrite Hnil in Hloop.
  simpl in Hloop. lia.
Qed.

End InfoFacts.

(** X10.  [EdgeSelectionInfo.from_bmesh] returns, whichever member each
    [pop()] of the set [edges_to_search] removes; the islands together are
    the selected edges, each in one island and once, no island is empty, and
    [all_selected_verts] lists the selected vertices in mesh order. *)
Theorem from_bmesh_islands_partition set_pop fuel bm st :
  pop_law set_pop → length (bm_edges bm) < fuel →
  ∃ info, from_bmesh set_pop fuel bm st = Some info ∧
          concat (edge_islands info) ≡ₚ selected_edge_list bm st ∧
          Forall (λ isl, isl ≠ []) (edge_islands info) ∧
          all_selected_verts info = selected_vert_list bm st.
Proof.
  intros Hpop Hfuel.
  destruct (FloodFacts.from_bmesh_returns set_pop fuel bm st Hpop Hfuel) as [info Hrun].
  exists info. split; [done|].
  apply FloodFacts.from_bmesh_spec in Hrun as (Hall & _ & _ & Hperm & Hisl); [|done].
  split; [done|]. split; [|done].
  eapply Forall_impl; [exact Hisl|]. by intros isl (? & _).
Qed.

Lemma from_bmesh_islands_partition_witness :
  ∃ info, from_bmesh pop_least 13 grid3x3 two_chains_state = Some info ∧
          concat (edge_islands info) ≡ₚ selected_edge_list grid3x3 two_chains_state ∧
          Forall (λ isl, isl ≠ []) (edge_islands info) ∧
          all_selected_verts info = selected_vert_list grid3x3 two_chains_state.
Proof.
  apply (from_bmesh_islands_partition pop_least 13 grid3x3 two_chains_state).
  - apply FloodFacts.pop_least_law.
  - vm_compute. lia.
Defined.

(** X11.  Each island that [from_bmesh] returns is a connected component of
    the selected edges: a selected edge is in the island of an edge exactly
    when a chain of selected edges, each sharing a vertex with the next,
    joins the two. *)
Theorem from_bmesh_islands_are_components set_pop fuel bm st info :
  pop_law set_pop →
  from_bmesh set_pop fuel bm st = Some info →
  ∀ isl e1 e2, isl ∈ edge_islands info → e1 ∈ isl →
    e2 ∈ isl ↔ connected bm (selected_edge_list bm st) e1 e2.
Proof.
  intros Hpop Hrun isl e1 e2 Hisl He1.
  apply FloodFacts.from_bmesh_spec in Hrun as (_ & _ & _ & _ & Hall); [|done].
  rewrite Forall_forall in Hall. destruct (Hall isl Hisl) as (_ & Hconn & Hclosed).
  split; [by apply Hconn|].
  unfold connected. induction 1 as [|x y z Hxy _ IH]; [done|].
  apply IH. by apply (Hclosed x y).
Qed.

Lemma from_bmesh_islands_are_components_witness :
  4 ∈ [0; 1; 10] ↔ connected grid3x3 (selected_edge_list grid3x3 two_chains_state) 0 4.
Proof.
  assert (Hrun : from_bmesh pop_least 13 grid3x3 two_chains_state
                 = Some (mkInfo [[0; 1; 10]; [4]] [0; 6; 7; 5] [] [0; 1; 2; 5; 6; 7])).
  { vm_compute. reflexivity. }
  apply (from_bmesh_islands_are_components pop_least 13 grid3x3 two_chains_state _
           FloodFacts.pop_least_law Hrun [0; 1; 10] 0 4).
  - left.
  - left.
Defined.

(** X12.  On a well-formed mesh, [endpoints] holds exactly the vertices with
    one selected edge and [branching] exactly those with more than two; no
    vertex is listed twice. *)
Theorem from_bmesh_endpoints_and_branching set_pop fuel bm st info :
  wf_mesh bm = true →
  from_bmesh set_pop fuel bm st = Some info →
  (∀ v, v ∈ endpoints info ↔ selected_degree bm (selected_edge_list bm st) v = 1) ∧
  (∀ v, v ∈ branching info ↔ 2 < selected_degree bm (selected_edge_list bm st) v) ∧
  NoDup (endpoints info) ∧ NoDup (branching info).
Proof. apply InfoFacts.from_bmesh_degrees. Qed.

Lemma from_bmesh_endpoints_and_branching_witness :
  (∀ v, v ∈ [0; 6; 7; 5] ↔
        selected_degree grid3x3 (selected_edge_list grid3x3 two_chains_state) v = 1) ∧
  (∀ v, v ∈ [] ↔
        2 < selected_degree grid3x3 (selected_edge_list grid3x3 two_chains_state) v) ∧
  NoDup [0; 6; 7; 5] ∧ NoDup (@nil nat).
Proof.
  assert (Hrun : from_bmesh pop_least 13 grid3x3 two_chains_state
                 = Some (mkInfo [[0; 1; 10]; [4]] [0; 6; 7; 5] [] [0; 1; 2; 5; 6; 7])).
  { vm_compute. reflexivity. }
  assert (Hwf : wf_mesh grid3x3 = true).
  { vm_compute. reflexivity. }
  exact (from_bmesh_endpoints_and_branching pop_least 13 grid3x3 two_chains_state _
           Hwf Hrun).
Defined.

(** X13.  The first tests of [CloseLoop.execute] on what [from_bmesh]
    returns: the warning "No edges selected" is never reported, since with no
    edge selected there is no endpoint and the first test cancels with "not
    an open loop"; on a well-formed mesh the operator goes on exactly when
    some vertex has one selected edge and none has more than two. *)
Theorem close_loop_guard_messages set_pop fuel bm st info :
  from_bmesh set_pop fuel bm st = Some info →
  execute_guard info ≠ Some "No edges selected" ∧
  (selected_edge_list bm st = [] →
   execute_guard info = Some "Cannot close loop: not an open loop") ∧
  (wf_mesh bm = true →
   execute_guard info = None ↔
   (∃ v, selected_degree bm (selected_edge_list bm st) v = 1) ∧
   (∀ v, selected_degree bm (selected_edge_list bm st) v ≤ 2)).
Proof.
  intros Hrun.
  assert (Hislands : endpoints info ≠ [] → edge_islands info ≠ []).
  { intros Hends. apply (InfoFacts.from_bmesh_islands_nonempty _ _ _ _ _ Hrun).
    intros Hsel. rewrite FloodFacts.from_bmesh_empty in Hrun by done.
    injection Hrun as <-. done. }
  split; [|split].
  - unfold execute_guard. case_bool_decide as Hends; [done|]. simpl.
    case_bool_decide as Hbr; simpl; [|done].
    rewrite bool_decide_eq_false_2 by auto. done.
  - intros Hsel. rewrite FloodFacts.from_bmesh_empty in Hrun by done.
    by injection Hrun as <-.
  - intros Hwf.
    destruct (InfoFacts.from_bmesh_degrees _ _ _ _ _ Hwf Hrun) as (Hend & Hbranch & _).
    unfold execute_guard. split.
    + case_bool_decide as Hends; [done|]. simpl.
      case_bool_decide as Hbr; simpl; [|done]. intros _. split.
      * destruct (endpoints info) as [|v vs] eqn:Hvs; [done|].
        exists v. apply Hend. left.
      * intros v. destruct (decide (2 < selected_degree bm (selected_edge_list bm st) v))
          as [Hv|Hv]; [|lia].
        apply Hbranch in Hv. rewrite Hbr in Hv. by apply elem_of_nil in Hv.
    + intros [[v Hv] Hmax]. apply Hend in Hv.
      assert (Hends : endpoints info ≠ []).
      { intros Hnil. rewrite Hnil in Hv. by apply elem_of_nil in Hv. }
      assert (Hbr : branching info = []).
      { destruct (branching info) as [|w ws] eqn:Hws; [done|].
        assert (Hw : w ∈ w :: ws) by left.
        apply Hbranch in Hw. specialize (Hmax w). lia. }
      rewrite (bool_decide_eq_false_2 (endpoints info = [])) by done.
      rewrite (bool_decide_eq_true_2 (branching info = [])) by done. simpl.
      rewrite bool_decide_eq_false_2 by auto. done.
Qed.

Lemma close_loop_guard_messages_witness :
  execute_guard (mkInfo [] [] [] []) ≠ Some "No edges selected" ∧
  (selected_edge_list grid3x3 nothing_selected_state = [] →
   execute_guard (mkInfo [] [] [] []) = Some "Cannot close loop: not an open loop") ∧
  (wf_mesh grid3x3 = true →
   execute_guard (mkInfo [] [] [] []) = None ↔
   (∃ v, selected_degree grid3x3 (selected_edge_list grid3x3 nothing_selected_state) v = 1) ∧
   (∀ v, selected_degree grid3x3 (selected_edge_list grid3x3 nothing_selected_state) v ≤ 2)).
Proof.
  apply (close_loop_guard_messages pop_least 1 grid3x3 nothing_selected_state).
  vm_compute. reflexivity.
Defined.

(** ** The shape of a shortest path *)

Module PathShape.

Lemma follows_edges_suffix bm excl : ∀ l1 l2,
  follows_edges bm excl (l1 ++ l2) → follows_edges bm excl l2.
Proof.
  induction l1 as [|a l1 IH]; intros l2 Hf; [done|]. apply IH.
  simpl in Hf. destruct (l1 ++ l2) as [|b r] eqn:Hr; [done|]. by destruct Hf.
Qed.

(** A route with a vertex twice has a shorter route inside it. *)
Lemma shortcut bm excl : ∀ p,
  follows_edges bm excl p →
  ∃ p', NoDup p' ∧ head p' = head p ∧ last p' = last p ∧
        follows_edges bm excl p' ∧ length p' ≤ length p ∧
        (length p' = length p → p' = p).
Proof.
  induction p as [|a q IH]; intros Hf.
  { exists []. repeat split; try done. apply NoDup_nil_2. }
  assert (Hq : follows_edges bm excl q) by (by apply (follows_edges_suffix bm excl [a])).
  destruct (IH Hq) as (q' & Hnd & Hhead & Hlast & Hf' & Hlen & Heq).
  destruct (decide (a ∈ q')) as [Hin|Hout].
  - apply list_elem_of_split in Hin as (l1 & l2 & ->).
    exists (a :: l2). apply NoDup_app in Hnd as (_ & _ & Hnd2).
    rewrite length_app in Hlen. simpl in Hlen.
    assert (Hl : last (a :: l2) = last (a :: q)).
    { rewrite last_app_cons in Hlast. rewrite Hlast.
      destruct q as [|b q]; [simpl in Hlen; lia|]. by rewrite last_cons_cons. }
    split; [done|]. split; [done|]. split; [done|]. split; [|split].
    + by apply follows_edges_suffix in Hf'.
    + simpl. lia.
    + simpl. lia.
  - exists (a :: q'). split; [|split; [done|split; [|split; [|split]]]].
    + by apply NoDup_cons.
    + destruct q' as [|b' q'], q as [|b q]; done.
    + destruct q' as [|b' q']; [done|]. destruct q as [|b q]; [done|].
      simpl in Hhead. injection Hhead as ->. split; [|done]. by destruct Hf.
    + simpl. lia.
    + intros Hl. simpl in Hl. f_equal. apply Heq. lia.
Qed.

Lemma shortest_is_simple bm excl a b p :
  path_between bm excl a b p →
  (∀ p', path_between bm excl a b p' → length p ≤ length p') →
  NoDup p ∧ p ≠ [] ∧ (a = b → p = [a]) ∧ (a ≠ b → 2 ≤ length p).
Proof.
  intros (Hhead & Hlast & Hf) Hmin.
  destruct (shortcut bm excl p Hf) as (p' & Hnd & Hhead' & Hlast' & Hf' & Hlen & Heq).
  assert (Hp' : p' = p).
  { apply Heq. assert (length p ≤ length p'); [|lia].
    apply Hmin. split; [congruence|]. split; [congruence|done]. }
  subst p'. split; [done|]. split; [by intros ->|]. split.
  - intros <-. assert (Hone : length p ≤ length [a]).
    { apply Hmin. by repeat split. }
    destruct p as [|x [|y p]]; simpl in *; [done| |lia]. congruence.
  - intros Hab. destruct p as [|x [|y p]]; simpl in *; [done| |lia]. congruence.
Qed.

End PathShape.

(** X14.  A path that [find_shortest_path] returns is never empty and has no
    vertex twice; when start and end are the same vertex it is that vertex
    alone, otherwise it has at least two vertices. *)
Theorem find_shortest_path_is_simple set_iter fuel bm start end_index excl p :
  set_order set_iter →
  find_shortest_path set_iter fuel bm start end_index excl = Some (Some p) →
  NoDup p ∧ p ≠ [] ∧ (start = end_index → p = [start]) ∧
  (start ≠ end_index → 2 ≤ length p).
Proof.
  intros Hiter Hrun.
  apply PathTheorems.find_shortest_path_result in Hrun as [Hpath Hmin]; [|done].
  by apply (PathShape.shortest_is_simple bm excl).
Qed.

Lemma find_shortest_path_is_simple_witness :
  NoDup [0; 1; 2; 5; 8] ∧ [0; 1; 2; 5; 8] ≠ [] ∧ (0 = 8 → [0; 1; 2; 5; 8] = [0]) ∧
  (0 ≠ 8 → 2 ≤ length [0; 1; 2; 5; 8]).
Proof.
  apply (find_shortest_path_is_simple remove_dups 26 grid3x3 0 8 ∅).
  - intros l. reflexivity.
  - vm_compute. reflexivity.
Defined.

(** ** util.py: display names, enumerations, operator labels *)

Import Util.

Module UtilFacts.

Lemma join_cons_char sep x w ws :
  join sep (String x w :: ws) = String x (join sep (w :: ws)).
Proof. by destruct ws. Qed.

Lemma split_on_nonempty c s : split_on c s ≠ [].
Proof.
  destruct s as [|a r]; [done|]. simpl.
  destruct (Ascii.eqb a c); [done|]. by destruct (split_on c r).
Qed.

(** The display name, read off the identifier in one pass. *)
Lemma title_general : ∀ v (at_start : bool),
  match split_on underscore v with
  | w :: ws =>
    join (String space EmptyString)
         ((if at_start then capitalize w else lower w) :: (capitalize <$> ws))
  | [] => EmptyString
  end = title_from at_start v.
Proof.
  induction v as [|a r IH]; intros at_start.
  { by destruct at_start. }
  cbn [split_on title_from]. destruct (Ascii.eqb a underscore) eqn:Ha.
  - specialize (IH true). pose proof (split_on_nonempty underscore r) as Hne.
    destruct (split_on underscore r) as [|w ws]; [done|].
    rewrite <- IH. by destruct at_start.
  - specialize (IH false). pose proof (split_on_nonempty underscore r) as Hne.
    destruct (split_on underscore r) as [|w ws]; [done|].
    rewrite <- IH. destruct at_start; cbn [capitalize lower fmap list_fmap];
        by rewrite join_cons_char.
Qed.

Lemma title_from_length : ∀ v at_start, String.length (title_from at_start v) = String.length v.
Proof.
  induction v as [|a r IH]; intros at_start; [done|].
  cbn [title_from]. destruct (Ascii.eqb a underscore); simpl; by rewrite IH.
Qed.

Lemma case_keeps_underscore_out a :
  Ascii.eqb a underscore = false →
  Ascii.eqb (to_upper a) underscore = false ∧ Ascii.eqb (to_lower a) underscore = false.
Proof. destruct a as [[] [] [] [] [] [] [] []]; vm_compute; auto. Qed.

Lemma title_from_no_underscore : ∀ v at_start,
  has_char underscore (title_from at_start v) = false.
Proof.
  induction v as [|a r IH]; intros at_start; [done|].
  cbn [title_from]. destruct (Ascii.eqb a underscore) eqn:Ha; cbn [has_char].
  - by rewrite IH.
  - destruct (case_keeps_underscore_out a Ha) as [Hup Hlow].
    rewrite IH. by destruct at_start; rewrite ?Hup, ?Hlow.
Qed.

Lemma title_one_pass v : title v = title_from true v.
Proof.
  unfold title. rewrite <- (title_general v true).
  by destruct (split_on underscore v).
Qed.

(** [rindex] finds the last occurrence. *)
Lemma rindex_None c s : rindex c s = None ↔ has_char c s = false.
Proof.
  induction s as [|a r IH]; [done|]. simpl.
  destruct (rindex c r) as [i|].
  - split; [done|]. intros [_ Hr]%orb_false_elim. by apply IH in Hr.
  - destruct (Ascii.eqb a c); [done|]. simpl. tauto.
Qed.

Lemma rindex_Some c : ∀ s i,
  rindex c s = Some i →
  ∃ pre, s = pre +:+ String c (slice_from (i + 1) s) ∧
         has_char c (slice_from (i + 1) s) = false ∧ String.length pre = i.
Proof.
  induction s as [|a r IH]; intros i; [done|]. simpl.
  destruct (rindex c r) as [j|] eqn:Hr.
  - intros [= <-]. destruct (IH j eq_refl) as (pre & Hs & Hno & Hlen).
    exists (String a pre). change (S j + 1) with (S (j + 1)). cbn [slice_from].
    split; [|split; [done|]].
    + change (String a pre +:+ ?x) with (String a (pre +:+ x)). by f_equal.
    + simpl. by rewrite Hlen.
  - destruct (Ascii.eqb a c) eqn:Ha; [|done]. intros [= <-].
    apply Ascii.eqb_eq in Ha as ->. exists EmptyString. simpl.
    split; [done|]. split; [|done]. by apply rindex_None.
Qed.

Lemma pow2_land_disjoint i j : i ≠ j → Nat.land (2 ^ i) (2 ^ j) = 0.
Proof.
  intros Hij. apply Nat.bits_inj_0. intros n.
  rewrite Nat.land_spec, !Nat.pow2_bits_eqb.
  destruct (i =? n) eqn:Hi, (j =? n) eqn:Hj; try done.
  apply Nat.eqb_eq in Hi, Hj. congruence.
Qed.

Lemma index_increasing is_flag i j : i < j → index is_flag i < index is_flag j.
Proof.
  intros Hij. destruct is_flag; simpl; [|done]. apply Nat.pow_lt_mono_r; lia.
Qed.

(** The entry at a position of what [make_enum] returns *)
Lemma make_enum_lookup values is_flag pairs j :
  make_enum values is_flag pairs !! j =
    if decide (j < length values)
    then (λ v, (v, title v, EmptyString, index is_flag j)) <$> values !! j
    else (λ kv, (kv.1, kv.2, EmptyString, index is_flag j)) <$> pairs !! (j - length values).
Proof.
  unfold make_enum. case_decide as Hj.
  - rewrite lookup_app_l by (by rewrite length_imap). by rewrite list_lookup_imap.
  - rewrite lookup_app_r by (rewrite length_imap; lia).
    rewrite length_imap, list_lookup_imap.
    replace (j - length values + length values) with j by lia. done.
Qed.

End UtilFacts.

(** X15.  The display name that [make_enum] and [BlenderOperator] build from
    an identifier reads off it in one pass: each underscore becomes a space,
    a letter at the start or right after an underscore is put in upper case
    and every other letter in lower case.  So it is as long as the
    identifier and has no underscore. *)
Theorem title_capitalizes_words v :
  title v = title_from true v ∧
  String.length (title v) = String.length v ∧
  has_char underscore (title v) = false.
Proof.
  rewrite UtilFacts.title_one_pass. split; [done|].
  split; [apply UtilFacts.title_from_length|apply UtilFacts.title_from_no_underscore].
Qed.

(** X16.  [make_enum] returns one entry per value and per keyword pair, the
    values first, each with an empty description; the entry at position [j]
    has the number [j], or [2 ** j] with [is_flag].  So the numbers grow
    along the list, no two entries share one, and with [is_flag] no two
    entries share a bit. *)
Theorem make_enum_numbers values is_flag pairs :
  length (make_enum values is_flag pairs) = length values + length pairs ∧
  (make_enum values is_flag pairs).*1.*1.*1 = values ++ pairs.*1 ∧
  (∀ j e, make_enum values is_flag pairs !! j = Some e →
          e.2 = index is_flag j ∧ e.1.2 = EmptyString) ∧
  (∀ i j e1 e2, i < j →
     make_enum values is_flag pairs !! i = Some e1 →
     make_enum values is_flag pairs !! j = Some e2 → e1.2 < e2.2) ∧
  (is_flag = true → ∀ i j e1 e2, i ≠ j →
     make_enum values is_flag pairs !! i = Some e1 →
     make_enum values is_flag pairs !! j = Some e2 → Nat.land e1.2 e2.2 = 0).
Proof.
  assert (Hnum : ∀ j e, make_enum values is_flag pairs !! j = Some e →
                        e.2 = index is_flag j ∧ e.1.2 = EmptyString).
  { intros j e. rewrite UtilFacts.make_enum_lookup. case_decide.
    - destruct (values !! j); [|done]. by intros [= <-].
    - destruct (pairs !! _); [|done]. by intros [= <-]. }
  split; [|split; [|split; [done|split]]].
  - unfold make_enum. by rewrite length_app, !length_imap.
  - unfold make_enum. rewrite !fmap_app, !fmap_imap. f_equal.
    + rewrite <- (list_fmap_id values) at 2. by rewrite <- imap_const.
    + by rewrite <- imap_const.
  - intros i j e1 e2 Hij [-> _]%Hnum [-> _]%Hnum. by apply UtilFacts.index_increasing.
  - intros -> i j e1 e2 Hij [-> _]%Hnum [-> _]%Hnum. by apply UtilFacts.pow2_land_disjoint.
Qed.

(** X17.  The label [BlenderOperator] gives a class: a label that is given
    and not empty is kept; without one, the call raises ValueError exactly
    when the identifier has no dot, and otherwise the label is the display
    name of what follows the identifier's last dot. *)
Theorem operator_label_from_id id label :
  (∀ l, label = Some l → l ≠ EmptyString → operator_label id label = Some l) ∧
  (label = None ∨ label = Some EmptyString →
   (operator_label id label = None ↔ has_char dot id = false) ∧
   (∀ l, operator_label id label = Some l →
         ∃ pre suf, id = pre +:+ String dot suf ∧ has_char dot suf = false ∧
                    l = title suf)).
Proof.
  split.
  - intros l -> Hl. by destruct l.
  - intros Hlabel.
    assert (Hrun : operator_label id label =
                   rindex dot id ≫= λ i, Some (title (slice_from (i + 1) id))).
    { by destruct Hlabel as [-> | ->]. }
    rewrite Hrun. split.
    + rewrite <- UtilFacts.rindex_None. by destruct (rindex dot id).
    + intros l. destruct (rindex dot id) as [i|] eqn:Hi; [simpl|done].
      intros [= <-]. apply UtilFacts.rindex_Some in Hi as (pre & Hs & Hno & _).
      by exists pre, (slice_from (i + 1) id).
Qed.

(** ** The add-on's key bindings *)

Import Keymaps.

Module KeymapFacts.

Import Stdlib.Strings.Ascii.

(** *** The dictionary addon_keymaps *)

Lemma recorded_record d k x k' :
  recorded (record_item d k x) k' =
    if decide (k' = k) then recorded d k ++ [x] else recorded d k'.
Proof.
  induction d as [|[k0 xs] d IH]; simpl.
  - repeat case_decide; subst; done.
  - destruct (decide (k0 = k)) as [->|Hk0]; simpl.
    + repeat case_decide; subst; done.
    + rewrite IH. repeat case_decide; subst; done.
Qed.

Lemma keys_record d k x :
  (record_item d k x).*1 = if bool_decide (k ∈ d.*1) then d.*1 else d.*1 ++ [k].
Proof.
  induction d as [|[k0 xs] d IH]; cbn [record_item].
  - rewrite bool_decide_eq_false_2; [done|]. apply not_elem_of_nil.
  - destruct (decide (k0 = k)) as [->|Hk0]; rewrite !fmap_cons; cbn [fst].
    + rewrite bool_decide_eq_true_2; [done|]. left.
    + rewrite IH. case_bool_decide as Hk.
      * rewrite bool_decide_eq_true_2; [done|]. by right.
      * rewrite bool_decide_eq_false_2; [done|].
        intros [?|?]%elem_of_cons; [congruence|done].
Qed.

Lemma record_NoDup d k x : NoDup d.*1 → NoDup (record_item d k x).*1.
Proof.
  intros Hnd. rewrite keys_record. case_bool_decide as Hk; [done|].
  apply NoDup_app. split; [done|]. split; [|apply NoDup_singleton].
  intros y Hy ->%list_elem_of_singleton. done.
Qed.

Lemma recorded_missing d k : k ∉ d.*1 → recorded d k = [].
Proof.
  induction d as [|[k0 xs] d IH]; [done|]. simpl. intros Hk.
  apply not_elem_of_cons in Hk as [Hne Hk]. rewrite decide_False by done. by apply IH.
Qed.

Lemma recorded_entry d k : k ∈ d.*1 → (k, recorded d k) ∈ d.
Proof.
  induction d as [|[k0 xs] d IH]; simpl.
  { intros Hk. by apply elem_of_nil in Hk. }
  intros Hk. case_decide as Hk0; [subst; left|].
  right. apply IH. apply elem_of_cons in Hk as [?|?]; [congruence|done].
Qed.

Lemma entry_recorded d k xs : NoDup d.*1 → (k, xs) ∈ d → recorded d k = xs.
Proof.
  induction d as [|[k0 ys] d IH]; simpl; intros Hnd Hin.
  { by apply elem_of_nil in Hin. }
  apply NoDup_cons in Hnd as [Hk0 Hnd].
  apply elem_of_cons in Hin as [[= -> ->]|Hin]; [by rewrite decide_True|].
  case_decide as Hk; [|by apply IH]. subst k0.
  exfalso. apply Hk0. apply list_elem_of_fmap. by exists (k, xs).
Qed.

(** *** The host's keymaps *)

Lemma items_insert h n ks ad km its km' :
  items (mkState (<[km := its]> h) n ks ad) km' =
    if decide (km' = km) then its else items (mkState h n ks ad) km'.
Proof.
  unfold items. simpl. case_decide as Hkm.
  - subst. by rewrite lookup_insert_eq.
  - by rewrite lookup_insert_ne.
Qed.

Lemma items_keymap_def name space_type region_type st km :
  items (keymap_def name space_type region_type st) km = items st km.
Proof.
  unfold keymap_def, items. cbn [host].
  destruct (host st !! (name, space_type, region_type)) as [its|] eqn:Hkm; [done|].
  destruct (decide (km = (name, space_type, region_type))) as [->|Hne].
  - rewrite lookup_insert_eq.
    transitivity (default [] (@None (list KeyMapItem))); [done|].
    f_equal. symmetry. exact Hkm.
  - by rewrite lookup_insert_ne.
Qed.

(** One binding: a new item at the end of the keymap, recorded under the
    name. *)
Lemma bind_one_spec op key op_action mods modifier repeat properties st keymap km :
  keymaps st !! keymap = Some km →
  ∃ kmi st',
    bind_one op key op_action mods modifier repeat properties st keymap = Some st' ∧
    item_id kmi = next_id st ∧
    describe kmi = (op, key, op_action,
                    (has_char "S"%char mods, has_char "C"%char mods, has_char "A"%char mods),
                    match modifier with
                    | Some (String a r) => Some (String a r)
                    | _ => None
                    end, repeat, properties) ∧
    keymaps st' = keymaps st ∧ next_id st' = S (next_id st) ∧
    addon_keymaps st' = record_item (addon_keymaps st) keymap (next_id st) ∧
    ∀ km', items st' km' = if decide (km' = km) then items st km ++ [kmi] else items st km'.
Proof.
  intros Hkm. unfold bind_one. rewrite Hkm. cbn [mbind option_bind].
  match goal with
  | |- context [mkItem ?a ?b ?c ?d ?e ?f ?g ?h ?i ?j] =>
    exists (mkItem a b c d e f g h i j)
  end.
  eexists. split; [reflexivity|]. split; [done|]. split; [done|].
  split; [done|]. split; [done|]. split; [done|].
  intros km'. cbn [item_id]. rewrite items_insert. by destruct st.
Qed.

Section Invariant.
Context (n0 : nat) (base : gmap KeyMapRef (list KeyMapItem)) (defs : list KeyMapRef).
Context (Hone : ∀ km1 km2 : KeyMapRef, km1 ∈ defs → km2 ∈ defs →
                  km1.1.1 = km2.1.1 → km1 = km2).

Lemma keymap_def_inv name space_type region_type st :
  (name, space_type, region_type) ∈ defs →
  bindings_inv n0 base defs st →
  bindings_inv n0 base defs (keymap_def name space_type region_type st).
Proof.
  intros Hdef [Hnames Hbase Hfresh Hn0 Hkeys Hrec Hcreated].
  assert (Hsame : ∀ km, keymaps st !! name = Some km → km = (name, space_type, region_type)).
  { intros km [Hname Hkm]%Hnames. by apply Hone. }
  assert (Hlook : ∀ name' km, keymaps st !! name' = Some km →
            keymaps (keymap_def name space_type region_type st) !! name' = Some km).
  { intros name' km Hkm. unfold keymap_def. simpl.
    destruct (decide (name' = name)) as [->|Hne].
    - rewrite lookup_insert_eq. f_equal. symmetry. by apply Hsame.
    - by rewrite lookup_insert_ne. }
  split.
  - intros name' km. unfold keymap_def. simpl.
    destruct (decide (name' = name)) as [->|Hne].
    + rewrite lookup_insert_eq. by intros [= <-].
    + rewrite lookup_insert_ne by done. apply Hnames.
  - intros km. rewrite items_keymap_def. apply Hbase.
  - intros km it. rewrite items_keymap_def. apply Hfresh.
  - done.
  - done.
  - intros name' ids Hin. destruct (Hrec name' ids Hin) as (Hnd & km & Hkm & Hids).
    split; [done|]. exists km. split; [by apply Hlook|].
    intros id Hid. rewrite items_keymap_def. by apply Hids.
  - intros km it. rewrite items_keymap_def. intros Hit Hnew.
    destruct (Hcreated km it Hit Hnew) as [Hkm Hid]. split; [by apply Hlook|done].
Qed.

Lemma bind_one_inv op key op_action mods modifier repeat properties st keymap st' :
  bindings_inv n0 base defs st →
  bind_one op key op_action mods modifier repeat properties st keymap = Some st' →
  bindings_inv n0 base defs st'.
Proof.
  intros [Hnames Hbase Hfresh Hn0 Hkeys Hrec Hcreated] Hbind.
  destruct (keymaps st !! keymap) as [km|] eqn:Hkm;
    [|by unfold bind_one in Hbind; rewrite Hkm in Hbind].
  destruct (bind_one_spec op key op_action mods modifier repeat properties st keymap km Hkm)
    as (kmi & st1 & Hbind1 & Hid & _ & Hks & Hnext & Haddon & Hitems).
  rewrite Hbind in Hbind1. injection Hbind1 as <-.
  destruct (Hnames keymap km Hkm) as [Hname _].
  split.
  - intros name' km'. rewrite Hks. apply Hnames.
  - intros km'. rewrite Hitems. case_decide as Hkm'; [subst km'|apply Hbase].
    rewrite filter_app, Hbase. rewrite filter_cons_False by (rewrite Hid; lia).
    by rewrite filter_nil, app_nil_r.
  - intros km' it. rewrite Hitems, Hnext. case_decide as Hkm'.
    + intros [Hit| ->%list_elem_of_singleton]%elem_of_app; [|lia].
      specialize (Hfresh km' it). subst km'. specialize (Hfresh Hit). lia.
    + intros Hit. specialize (Hfresh km' it Hit). lia.
  - lia.
  - rewrite Haddon. by apply record_NoDup.
  - intros name' ids Hin. rewrite Haddon in Hin.
    assert (Hkeep : ∀ km1 id, id ∈ item_id <$> items st km1 → id ∈ item_id <$> items st' km1).
    { intros km1 id Hid1. rewrite Hitems. case_decide; [subst km1|done].
      rewrite fmap_app. apply elem_of_app. by left. }
    assert (Hids : ids = recorded (record_item (addon_keymaps st) keymap (next_id st)) name').
    { symmetry. apply entry_recorded; [by apply record_NoDup|done]. }
    rewrite recorded_record in Hids.
    assert (Hkey : name' ∈ (record_item (addon_keymaps st) keymap (next_id st)).*1).
    { apply list_elem_of_fmap. by exists (name', ids). }
    rewrite keys_record in Hkey.
    assert (Hold : ∀ name1, name1 ∈ (addon_keymaps st).*1 →
              NoDup (recorded (addon_keymaps st) name1) ∧
              ∃ km1, keymaps st !! name1 = Some km1 ∧
                ∀ id, id ∈ recorded (addon_keymaps st) name1 →
                      n0 ≤ id ∧ id ∈ item_id <$> items st km1).
    { intros name1 Hname1. apply Hrec. by apply recorded_entry. }
    rewrite Hks. case_decide as Hname'.
    + subst name' ids. destruct (decide (keymap ∈ (addon_keymaps st).*1)) as [Hthere|Hnew].
      * destruct (Hold keymap Hthere) as (Hnd & km1 & Hkm1 & Hids).
        assert (km1 = km) as -> by congruence.
        split.
        -- apply NoDup_app. split; [done|]. split; [|apply NoDup_singleton].
           intros id Hid1 ->%list_elem_of_singleton.
           destruct (Hids _ Hid1) as [_ (it & Hit_id & Hit)%list_elem_of_fmap].
           specialize (Hfresh km it Hit). lia.
        -- exists km. split; [done|]. intros id [Hid1| ->%list_elem_of_singleton]%elem_of_app.
           ++ destruct (Hids id Hid1). split; [done|]. by apply Hkeep.
           ++ split; [lia|]. rewrite Hitems, decide_True by done.
              rewrite fmap_app. apply elem_of_app. right. rewrite <- Hid. left.
      * rewrite recorded_missing by done. simpl. split; [apply NoDup_singleton|].
        exists km. split; [done|]. intros id ->%list_elem_of_singleton.
        split; [lia|]. rewrite Hitems, decide_True by done.
        rewrite fmap_app. apply elem_of_app. right. rewrite <- Hid. left.
    + subst ids.
      assert (Hthere : name' ∈ (addon_keymaps st).*1).
      { case_bool_decide; [done|]. apply elem_of_app in Hkey as [|Hk]; [done|].
        apply list_elem_of_singleton in Hk. done. }
      destruct (Hold name' Hthere) as (Hnd & km1 & Hkm1 & Hids).
      split; [done|]. exists km1. split; [done|]. intros id Hid1.
      destruct (Hids id Hid1). split; [done|]. by apply Hkeep.
  - intros km' it. rewrite Hitems, Hks, Haddon, recorded_record.
    case_decide as Hkm'.
    + subst km'. rewrite Hname, decide_True by done.
      intros [Hit| ->%list_elem_of_singleton]%elem_of_app Hnew.
      * destruct (Hcreated km it Hit Hnew) as [Hk Hr]. rewrite Hname in Hr.
        split; [done|]. apply elem_of_app. by left.
      * split; [done|]. apply elem_of_app. right. rewrite Hid. left.
    + intros Hit Hnew. destruct (Hcreated km' it Hit Hnew) as [Hk Hr].
      split; [done|]. case_decide as Hn; [|done].
      exfalso. apply Hkm'. rewrite Hn in Hk. congruence.
Qed.

Lemma binding_def_inv op key op_action mods modifier repeat properties : ∀ maps st st' ok,
  bindings_inv n0 base defs st →
  binding_def maps op key op_action mods modifier repeat properties st = (st', ok) →
  bindings_inv n0 base defs st'.
Proof.
  induction maps as [|keymap rest IH]; intros st st' ok Hinv Hrun; simpl in Hrun.
  { by injection Hrun as <- _. }
  destruct (bind_one _ _ _ _ _ _ _ st keymap) as [st1|] eqn:Hbind.
  - apply (IH st1 st' ok); [|done]. by eapply bind_one_inv.
  - by injection Hrun as <- _.
Qed.

Lemma run_inv : ∀ calls st st' ok,
  (∀ km, km ∈ defs_of calls → km ∈ defs) →
  bindings_inv n0 base defs st →
  run calls st = (st', ok) →
  bindings_inv n0 base defs st'.
Proof.
  induction calls as [|c rest IH]; intros st st' ok Hdefs Hinv Hrun; simpl in Hrun.
  { by injection Hrun as <- _. }
  unfold and_then in Hrun.
  assert (Hstep : bindings_inv n0 base defs (run_call c st).1).
  { destruct c as [name space_type region_type|maps op key op_action mods modifier rep props];
      simpl.
    - apply keymap_def_inv; [|done]. apply Hdefs. left.
    - destruct (binding_def _ _ _ _ _ _ _ _ st) as [st1 ok1] eqn:Hb. simpl.
      by eapply binding_def_inv. }
  destruct (run_call c st) as [st1 ok1]. simpl in *. destruct ok1.
  - apply (IH st1 st' ok); [|done|done]. intros km Hkm. apply Hdefs.
    destruct c; [by right|done].
  - by injection Hrun as <- _.
Qed.

End Invariant.

(** *** Clearing *)

Lemma filter_iff_in {A} (P Q : A → Prop) `{∀ x, Decision (P x)} `{∀ x, Decision (Q x)}
    (l : list A) :
  (∀ x, x ∈ l → P x ↔ Q x) → filter P l = filter Q l.
Proof.
  induction l as [|x l IH]; intros HPQ; [done|].
  rewrite !filter_cons. rewrite IH by (intros y Hy; apply HPQ; by right).
  destruct (HPQ x (ltac:(left))). repeat case_decide; tauto.
Qed.

Lemma filter_all {A} (P : A → Prop) `{∀ x, Decision (P x)} (l : list A) :
  (∀ x, x ∈ l → P x) → filter P l = l.
Proof.
  induction l as [|x l IH]; intros HP; [done|].
  rewrite filter_cons_True by (apply HP; left). f_equal. apply IH.
  intros y Hy. apply HP. by right.
Qed.

Lemma remove_items_ok : ∀ ids its,
  NoDup ids → (∀ id, id ∈ ids → id ∈ item_id <$> its) →
  remove_items ids its = (filter (λ it, item_id it ∉ ids) its, true).
Proof.
  induction ids as [|id rest IH]; intros its Hnd Hin; simpl.
  { f_equal. symmetry. apply filter_all. intros it _. apply not_elem_of_nil. }
  apply NoDup_cons in Hnd as [Hid Hnd].
  rewrite bool_decide_eq_true_2 by (apply Hin; left).
  rewrite IH; [|done|].
  - f_equal. rewrite list_filter_filter. apply list_filter_iff. intros it.
    rewrite not_elem_of_cons. tauto.
  - intros id' Hid'. specialize (Hin id' (ltac:(by right))).
    apply list_elem_of_fmap in Hin as (it & -> & Hit).
    apply list_elem_of_fmap. exists it. split; [done|].
    apply list_elem_of_filter. split; [|done]. intros Heq. apply Hid. by rewrite <- Heq.
Qed.

(** The ids recorded for the keymap [km]: those under its name, if the name
    stands for that keymap *)
Lemma clear_each_ok : ∀ entries st,
  NoDup entries.*1 →
  (∀ name ids, (name, ids) ∈ entries →
     NoDup ids ∧ ∃ km : KeyMapRef, keymaps st !! name = Some km ∧ km.1.1 = name ∧
       ∀ id, id ∈ ids → id ∈ item_id <$> items st km) →
  ∃ st', clear_each entries st = (st', true) ∧
         keymaps st' = keymaps st ∧ next_id st' = next_id st ∧
         addon_keymaps st' = addon_keymaps st ∧
         ∀ km : KeyMapRef, items st' km =
               filter (λ it, item_id it ∉
                         (if decide (keymaps st !! km.1.1 = Some km)
                          then recorded entries km.1.1 else []))
                      (items st km).
Proof.
  induction entries as [|[name ids] rest IH]; intros st Hkeys Hrec.
  { exists st. repeat split; try done. intros km. symmetry. apply filter_all.
    intros it _. case_decide; apply not_elem_of_nil. }
  rewrite fmap_cons in Hkeys. apply NoDup_cons in Hkeys as [Hname Hkeys]. simpl in Hname.
  destruct (Hrec name ids (ltac:(left))) as (Hnd & km & Hkm & Hkm_name & Hids).
  set (st1 := mkState (<[km := filter (λ it, item_id it ∉ ids) (items st km)]> (host st))
                      (next_id st) (keymaps st) (addon_keymaps st)).
  assert (Hstep : clear_each ((name, ids) :: rest) st = clear_each rest st1).
  { cbn [clear_each]. by rewrite Hkm, (remove_items_ok ids (items st km) Hnd Hids). }
  assert (Hitems1 : ∀ km', items st1 km' =
            if decide (km' = km) then filter (λ it, item_id it ∉ ids) (items st km)
            else items st km').
  { intros km'. unfold st1. rewrite items_insert. by destruct st. }
  destruct (IH st1 Hkeys) as (st' & Hrun & Hks & Hnext & Haddon & Hitems).
  { intros name' ids' Hin'.
    destruct (Hrec name' ids' (ltac:(by right))) as (Hnd' & km' & Hkm' & Hname' & Hids').
    split; [done|]. exists km'. split; [done|]. split; [done|].
    intros id Hid. rewrite Hitems1, decide_False; [by apply Hids'|].
    intros ->. apply Hname. rewrite <- Hkm_name, Hname'.
    apply list_elem_of_fmap. by exists (name', ids'). }
  exists st'. split; [by rewrite Hstep|]. split; [done|]. split; [done|]. split; [done|].
  intros km0. rewrite Hitems, Hitems1. cbn [keymaps st1 recorded].
  destruct (decide (km0 = km)) as [->|Hne].
  - rewrite Hkm_name, Hkm, !decide_True by done.
    rewrite (recorded_missing rest name Hname).
    rewrite list_filter_filter. apply list_filter_iff. intros it.
    split; [by intros [_ ?]|]. intros ?. split; [apply not_elem_of_nil|done].
  - case_decide as Hbound.
    + rewrite decide_False; [done|]. intros ->. congruence.
    + done.
Qed.

Section Clearing.
Context (n0 : nat) (base : gmap KeyMapRef (list KeyMapItem)) (defs : list KeyMapRef).

Lemma base_is_old st km it :
  bindings_inv n0 base defs st → it ∈ default [] (base !! km) → item_id it < n0.
Proof.
  intros Hinv Hit. rewrite <- (bi_base _ _ _ _ Hinv km) in Hit.
  by apply list_elem_of_filter in Hit as [? _].
Qed.

(** [bindings_clear] returns, and leaves the host's keymaps as they were
    before the add-on bound anything. *)
Lemma bindings_clear_ok st :
  bindings_inv n0 base defs st →
  ∃ st', bindings_clear st = (st', true) ∧
         addon_keymaps st' = [] ∧ keymaps st' = keymaps st ∧
         next_id st' = next_id st ∧
         (∀ km, items st' km = default [] (base !! km)) ∧
         bindings_inv n0 base defs st'.
Proof.
  intros Hinv. pose proof Hinv as [Hnames Hbase Hfresh Hn0 Hkeys Hrec Hcreated].
  destruct (clear_each_ok (addon_keymaps st) st Hkeys) as (st1 & Hrun & Hks & Hnext & _ & Hitems).
  { intros name ids Hin. destruct (Hrec name ids Hin) as (Hnd & km & Hkm & Hids).
    split; [done|]. exists km. split; [done|]. split; [by apply Hnames|].
    intros id Hid. by apply Hids. }
  unfold bindings_clear. rewrite Hrun.
  set (st' := mkState (host st1) (next_id st1) (keymaps st1) []).
  assert (Hitems' : ∀ km, items st' km = default [] (base !! km)).
  { intros km. change (items st' km) with (items st1 km).
    rewrite Hitems, <- Hbase. apply filter_iff_in.
    intros it Hit. case_decide as Hbound.
    - split.
      + intros Hnot. destruct (decide (item_id it < n0)) as [|Hnew]; [done|].
        exfalso. apply Hnot. by apply Hcreated; [|lia].
      + intros Hold Hin.
        assert (Hkey : km.1.1 ∈ (addon_keymaps st).*1).
        { destruct (decide (km.1.1 ∈ (addon_keymaps st).*1)) as [|Hmiss]; [done|].
          rewrite recorded_missing in Hin by done. by apply elem_of_nil in Hin. }
        apply recorded_entry, Hrec in Hkey as (_ & km' & _ & Hids).
        destruct (Hids _ Hin). lia.
    - split; [|intros _; apply not_elem_of_nil].
      intros _. destruct (decide (item_id it < n0)) as [|Hnew]; [done|].
      exfalso. apply Hbound. by apply (Hcreated km it); [|lia]. }
  exists st'. split; [done|]. split; [done|]. split; [done|]. split; [done|].
  split; [done|]. split.
  - intros name km. cbn [keymaps st']. rewrite Hks. apply Hnames.
  - intros km. rewrite Hitems'. apply filter_all. intros it Hit.
    by eapply base_is_old.
  - intros km it. rewrite Hitems'. intros Hit. cbn [next_id st']. rewrite Hnext.
    pose proof (base_is_old st km it Hinv Hit). lia.
  - cbn [next_id st']. lia.
  - apply NoDup_nil_2.
  - intros name ids Hin. by apply elem_of_nil in Hin.
  - intros km it. rewrite Hitems'. intros Hit Hnew.
    pose proof (base_is_old st km it Hinv Hit). lia.
Qed.

End Clearing.

(** The module as loaded *)
Lemma fresh_inv st defs :
  fresh st → bindings_inv (next_id st) (host st) defs st.
Proof.
  intros (Hks & Haddon & Hold). split.
  - intros name km. rewrite Hks. by rewrite lookup_empty.
  - intros km. apply filter_all. intros it Hit. by apply (Hold km).
  - done.
  - done.
  - rewrite Haddon. apply NoDup_nil_2.
  - intros name ids. rewrite Haddon. intros Hin. by apply elem_of_nil in Hin.
  - intros km it Hit Hnew. specialize (Hold km it Hit). lia.
Qed.

End KeymapFacts.

(** X18.  [bindings_clear] undoes [binding_def]: from the module as loaded,
    after any calls of [keymap_def] and [binding_def] (each name defined with
    one space and region type), whether they all returned or one raised, it
    returns without an exception, leaves [addon_keymaps] empty and every
    keymap of the host with the items it had before. *)
Theorem bindings_clear_undoes_binding_def calls st0 st ok :
  fresh st0 → one_keymap_per_name calls →
  run calls st0 = (st, ok) →
  ∃ st', bindings_clear st = (st', true) ∧
         addon_keymaps st' = [] ∧ keymaps st' = keymaps st ∧
         ∀ km, items st' km = items st0 km.
Proof.
  intros Hfresh Hone Hrun.
  pose proof (KeymapFacts.fresh_inv st0 (defs_of calls) Hfresh) as Hinv0.
  pose proof (KeymapFacts.run_inv _ _ _ Hone calls st0 st ok (λ _ H, H) Hinv0 Hrun) as Hinv.
  destruct (KeymapFacts.bindings_clear_ok _ _ _ st Hinv)
    as (st' & Hclear & Haddon & Hks & _ & Hitems & _).
  exists st'. by repeat split.
Qed.

Lemma bindings_clear_undoes_binding_def_witness :
  ∃ st', bindings_clear (run sample_calls loaded_state).1 = (st', true) ∧
         addon_keymaps st' = [] ∧
         keymaps st' = keymaps (run sample_calls loaded_state).1 ∧
         ∀ km, items st' km = items loaded_state km.
Proof.
  apply (bindings_clear_undoes_binding_def sample_calls loaded_state _ true).
  - split; [done|]. split; [done|]. intros km it. unfold items, loaded_state. simpl.
    destruct (decide (km = mesh_keymap)) as [->|Hne].
    + rewrite lookup_singleton_eq. simpl. intros ->%list_elem_of_singleton. simpl. lia.
    + rewrite lookup_singleton_ne by done. simpl. intros Hit. by apply elem_of_nil in Hit.
  - intros km1 km2 Hkm1 Hkm2 Hname. simpl in Hkm1, Hkm2.
    apply elem_of_cons in Hkm1 as [->|Hkm1]; apply elem_of_cons in Hkm2 as [->|Hkm2];
      try done.
    + apply list_elem_of_singleton in Hkm2 as ->. done.
    + apply list_elem_of_singleton in Hkm1 as ->. done.
    + apply list_elem_of_singleton in Hkm1 as ->.
      apply list_elem_of_singleton in Hkm2 as ->. done.
  - vm_compute. reflexivity.
Defined.

Module RebindFacts.

Import Stdlib.Strings.Ascii.

Lemma binding_def_one op key op_action mods modifier repeat properties st name km :
  keymaps st !! name = Some km →
  ∃ kmi st',
    binding_def [name] op key op_action mods modifier repeat properties st = (st', true) ∧
    describe kmi = (op, key, op_action,
                    (has_char "S"%char mods, has_char "C"%char mods, has_char "A"%char mods),
                    match modifier with
                    | Some (String a r) => Some (String a r)
                    | _ => None
                    end, repeat, properties) ∧
    keymaps st' = keymaps st ∧
    ∀ km', items st' km' = if decide (km' = km) then items st km ++ [kmi] else items st km'.
Proof.
  intros Hkm.
  destruct (KeymapFacts.bind_one_spec op key op_action mods modifier repeat properties
              st name km Hkm) as (kmi & st' & Hbind & _ & Hdesc & Hks & _ & _ & Hitems).
  exists kmi, st'. cbn [binding_def]. rewrite Hbind. done.
Qed.

Section Rebind.
Context (n0 : nat) (base : gmap KeyMapRef (list KeyMapItem)).

Local Abbreviation inv := (bindings_inv n0 base [mesh_keymap]).

Lemma one_def : ∀ km1 km2 : KeyMapRef,
  km1 ∈ [mesh_keymap] → km2 ∈ [mesh_keymap] → km1.1.1 = km2.1.1 → km1 = km2.
Proof. intros km1 km2 ->%list_elem_of_singleton ->%list_elem_of_singleton _. done. Qed.

(** One more binding in the Mesh keymap *)
Lemma bind_mesh op key op_action mods repeat properties st (news : list KeyMapItem) its :
  inv st → keymaps st !! "Mesh" = Some mesh_keymap →
  items st mesh_keymap = its ++ news →
  (∀ km, km ≠ mesh_keymap → items st km = default [] (base !! km)) →
  ∃ kmi st',
    binding_def ["Mesh"] op key op_action mods None repeat properties st = (st', true) ∧
    describe kmi = (op, key, op_action,
                    (has_char "S"%char mods, has_char "C"%char mods, has_char "A"%char mods),
                    None, repeat, properties) ∧
    inv st' ∧ keymaps st' !! "Mesh" = Some mesh_keymap ∧
    items st' mesh_keymap = its ++ (news ++ [kmi]) ∧
    (∀ km, km ≠ mesh_keymap → items st' km = default [] (base !! km)).
Proof.
  intros Hinv Hkm Hmesh Hother.
  destruct (binding_def_one op key op_action mods None repeat properties st "Mesh"
              mesh_keymap Hkm) as (kmi & st' & Hrun & Hdesc & Hks & Hitems).
  exists kmi, st'. split; [done|]. split; [done|].
  split; [by eapply KeymapFacts.binding_def_inv|]. split; [by rewrite Hks|]. split.
  - rewrite Hitems, decide_True by done. by rewrite Hmesh, app_assoc.
  - intros km Hne. rewrite Hitems, decide_False by done. by apply Hother.
Qed.

(** [register_bindings] on cleared bindings *)
Lemma register_bindings_ok prefs st :
  inv st → addon_keymaps st = [] →
  (∀ km, items st km = default [] (base !! km)) →
  ∃ st' news,
    register_bindings prefs st = (st', true) ∧ inv st' ∧
    items st' mesh_keymap = default [] (base !! mesh_keymap) ++ news ∧
    describe <$> news = expected prefs ∧
    (∀ km, km ≠ mesh_keymap → items st' km = default [] (base !! km)).
Proof.
  intros Hinv Haddon Hitems.
  set (st1 := keymap_def "Mesh" "EMPTY" "WINDOW" st).
  assert (Hinv1 : inv st1).
  { apply KeymapFacts.keymap_def_inv; [apply one_def|left|done]. }
  assert (Hkm1 : keymaps st1 !! "Mesh" = Some mesh_keymap).
  { unfold st1, keymap_def. cbn [keymaps]. by rewrite lookup_insert_eq. }
  assert (Hmesh1 : items st1 mesh_keymap = default [] (base !! mesh_keymap) ++ []).
  { unfold st1. by rewrite KeymapFacts.items_keymap_def, Hitems, app_nil_r. }
  assert (Hother1 : ∀ km, km ≠ mesh_keymap → items st1 km = default [] (base !! km)).
  { intros km _. unfold st1. by rewrite KeymapFacts.items_keymap_def. }
  unfold register_bindings. fold st1. clearbody st1.
  destruct prefs as [[] []]; cbn [override_resize override_select expected app].
  - destruct (bind_mesh "mesh.edgy_resize_selection" "NUMPAD_PLUS" "PRESS" "C" true
                [("direction", PStr "GROW")] st1 [] _ Hinv1 Hkm1 Hmesh1 Hother1)
      as (k1 & st2 & Hr2 & Hd1 & Hinv2 & Hkm2 & Hmesh2 & Hother2).
    destruct (bind_mesh "mesh.edgy_resize_selection" "NUMPAD_MINUS" "PRESS" "C" true
                [("direction", PStr "SHRINK")] st2 _ _ Hinv2 Hkm2 Hmesh2 Hother2)
      as (k2 & st3 & Hr3 & Hd2 & Hinv3 & Hkm3 & Hmesh3 & Hother3).
    destruct (bind_mesh "mesh.edgy_select_loop" "LEFTMOUSE" "CLICK" "A" false
                [("extend", PBool false)] st3 _ _ Hinv3 Hkm3 Hmesh3 Hother3)
      as (k3 & st4 & Hr4 & Hd3 & Hinv4 & Hkm4 & Hmesh4 & Hother4).
    destruct (bind_mesh "mesh.edgy_select_loop" "LEFTMOUSE" "CLICK" "AS" false
                [("extend", PBool true)] st4 _ _ Hinv4 Hkm4 Hmesh4 Hother4)
      as (k4 & st5 & Hr5 & Hd4 & Hinv5 & Hkm5 & Hmesh5 & Hother5).
    exists st5, [k1; k2; k3; k4]. unfold and_then. rewrite Hr2. cbn [fst snd].
    rewrite Hr3. cbn [fst snd]. rewrite Hr4. cbn [fst snd]. rewrite Hr5.
    split; [done|]. split; [done|]. split; [done|]. split; [|done].
    cbn [fmap list_fmap]. by rewrite Hd1, Hd2, Hd3, Hd4.
  - destruct (bind_mesh "mesh.edgy_resize_selection" "NUMPAD_PLUS" "PRESS" "C" true
                [("direction", PStr "GROW")] st1 [] _ Hinv1 Hkm1 Hmesh1 Hother1)
      as (k1 & st2 & Hr2 & Hd1 & Hinv2 & Hkm2 & Hmesh2 & Hother2).
    destruct (bind_mesh "mesh.edgy_resize_selection" "NUMPAD_MINUS" "PRESS" "C" true
                [("direction", PStr "SHRINK")] st2 _ _ Hinv2 Hkm2 Hmesh2 Hother2)
      as (k2 & st3 & Hr3 & Hd2 & Hinv3 & Hkm3 & Hmesh3 & Hother3).
    exists st3, [k1; k2]. unfold and_then. rewrite Hr2. cbn [fst snd]. rewrite Hr3.
    split; [done|]. split; [done|]. split; [done|]. split; [|done].
    cbn [fmap list_fmap]. by rewrite Hd1, Hd2.
  - destruct (bind_mesh "mesh.edgy_select_loop" "LEFTMOUSE" "CLICK" "A" false
                [("extend", PBool false)] st1 [] _ Hinv1 Hkm1 Hmesh1 Hother1)
      as (k3 & st4 & Hr4 & Hd3 & Hinv4 & Hkm4 & Hmesh4 & Hother4).
    destruct (bind_mesh "mesh.edgy_select_loop" "LEFTMOUSE" "CLICK" "AS" false
                [("extend", PBool true)] st4 _ _ Hinv4 Hkm4 Hmesh4 Hother4)
      as (k4 & st5 & Hr5 & Hd4 & Hinv5 & Hkm5 & Hmesh5 & Hother5).
    exists st5, [k3; k4]. unfold and_then. cbn [fst snd]. rewrite Hr4. cbn [fst snd].
    rewrite Hr5.
    split; [done|]. split; [done|]. split; [done|]. split; [|done].
    cbn [fmap list_fmap]. by rewrite Hd3, Hd4.
  - exists st1, []. unfold and_then. cbn [fst snd].
    split; [done|]. split; [done|]. split; [done|]. split; done.
Qed.

(** [update_bindings] on any bindings the add-on has made *)
Lemma update_bindings_ok prefs st :
  inv st →
  ∃ st' news,
    update_bindings prefs st = (st', true) ∧ inv st' ∧
    items st' mesh_keymap = default [] (base !! mesh_keymap) ++ news ∧
    describe <$> news = expected prefs ∧
    (∀ km, km ≠ mesh_keymap → items st' km = default [] (base !! km)).
Proof.
  intros Hinv.
  destruct (KeymapFacts.bindings_clear_ok _ _ _ st Hinv)
    as (st1 & Hclear & Haddon & _ & _ & Hitems & Hinv1).
  destruct (register_bindings_ok prefs st1 Hinv1 Haddon Hitems)
    as (st' & news & Hreg & Hinv' & Hmesh & Hdesc & Hother).
  exists st', news. unfold update_bindings, and_then. rewrite Hclear. cbn [fst snd].
  by rewrite Hreg.
Qed.

Lemma updates_ok : ∀ changes prefs st news,
  inv st →
  items st mesh_keymap = default [] (base !! mesh_keymap) ++ news →
  describe <$> news = expected prefs →
  (∀ km, km ≠ mesh_keymap → items st km = default [] (base !! km)) →
  ∃ st' news',
    updates changes st = (st', true) ∧
    items st' mesh_keymap = default [] (base !! mesh_keymap) ++ news' ∧
    describe <$> news' = expected (default prefs (last changes)) ∧
    (∀ km, km ≠ mesh_keymap → items st' km = default [] (base !! km)).
Proof.
  induction changes as [|p rest IH]; intros prefs st news Hinv Hmesh Hdesc Hother.
  { exists st, news. by repeat split. }
  destruct (update_bindings_ok p st Hinv) as (st1 & news1 & Hup & Hinv1 & Hmesh1 & Hdesc1 & Hother1).
  destruct (IH p st1 news1 Hinv1 Hmesh1 Hdesc1 Hother1)
    as (st' & news' & Hrun & Hmesh' & Hdesc' & Hother').
  exists st', news'. cbn [updates]. unfold and_then. rewrite Hup. cbn [fst snd].
  split; [done|]. split; [done|]. split; [|done].
  rewrite Hdesc'. f_equal. destruct rest as [|p' rest']; [done|].
  rewrite last_cons_cons.
  destruct (last (p' :: rest')) as [q|] eqn:Hlast; [done|]. by apply last_None in Hlast.
Qed.

End Rebind.

End RebindFacts.

(** X19.  The add-on's bindings do not pile up: from the module as loaded,
    [register_bindings] and then any number of [update_bindings], one per
    change of the preferences, all return, and leave in the Mesh keymap the
    host's own items followed by exactly the bindings of the latest
    preferences; the other keymaps keep their items. *)
Theorem update_bindings_replaces_bindings st0 prefs changes :
  fresh st0 →
  ∃ st news,
    and_then (register_bindings prefs st0) (updates changes) = (st, true) ∧
    items st mesh_keymap = items st0 mesh_keymap ++ news ∧
    describe <$> news = expected (default prefs (last changes)) ∧
    (∀ km, km ≠ mesh_keymap → items st km = items st0 km).
Proof.
  intros Hfresh.
  pose proof (KeymapFacts.fresh_inv st0 [mesh_keymap] Hfresh) as Hinv0.
  destruct Hfresh as (_ & Haddon & _).
  destruct (RebindFacts.register_bindings_ok _ _ prefs st0 Hinv0 Haddon (λ _, eq_refl))
    as (st1 & news1 & Hreg & Hinv1 & Hmesh1 & Hdesc1 & Hother1).
  destruct (RebindFacts.updates_ok _ _ changes prefs st1 news1 Hinv1 Hmesh1 Hdesc1 Hother1)
    as (st & news & Hrun & Hmesh & Hdesc & Hother).
  exists st, news. unfold and_then. rewrite Hreg. cbn [fst snd]. by repeat split.
Qed.

Lemma update_bindings_replaces_bindings_witness :
  ∃ st news,
    and_then (register_bindings (mkPrefs true true) loaded_state)
             (updates [mkPrefs false true; mkPrefs true false]) = (st, true) ∧
    items st mesh_keymap = items loaded_state mesh_keymap ++ news ∧
    describe <$> news =
      expected (default (mkPrefs true true) (last [mkPrefs false true; mkPrefs true false])) ∧
    (∀ km, km ≠ mesh_keymap → items st km = items loaded_state km).
Proof.
  apply (update_bindings_replaces_bindings loaded_state (mkPrefs true true)
           [mkPrefs false true; mkPrefs true false]).
  split; [done|]. split; [done|]. intros km it. unfold items, loaded_state. simpl.
  destruct (decide (km = mesh_keymap)) as [->|Hne].
  - rewrite lookup_singleton_eq. simpl. intros ->%list_elem_of_singleton. simpl. lia.
  - rewrite lookup_singleton_ne by done. simpl. intros Hit. by apply elem_of_nil in Hit.
Defined.

Module BindingFacts.

Lemma bind_one_keymaps op key op_action mods modifier repeat properties st keymap st' :
  bind_one op key op_action mods modifier repeat properties st keymap = Some st' →
  keymaps st' = keymaps st.
Proof.
  unfold bind_one. destruct (keymaps st !! keymap) as [km|]; [simpl|done].
  by intros [= <-].
Qed.

Lemma bind_one_None op key op_action mods modifier repeat properties st keymap :
  bind_one op key op_action mods modifier repeat properties st keymap = None ↔
  keymaps st !! keymap = None.
Proof. unfold bind_one. by destruct (keymaps st !! keymap). Qed.

Lemma binding_def_all op key op_action mods modifier repeat properties : ∀ maps st,
  (∀ name, name ∈ maps → is_Some (keymaps st !! name)) →
  (binding_def maps op key op_action mods modifier repeat properties st).2 = true ∧
  keymaps (binding_def maps op key op_action mods modifier repeat properties st).1
  = keymaps st.
Proof.
  induction maps as [|keymap rest IH]; intros st Hall; [done|]. cbn [binding_def].
  destruct (bind_one _ _ _ _ _ _ _ st keymap) as [st1|] eqn:Hbind.
  - pose proof (bind_one_keymaps _ _ _ _ _ _ _ _ _ _ Hbind) as Hks.
    destruct (IH st1) as [Hok Hks'].
    { intros name Hname. rewrite Hks. apply Hall. by right. }
    split; [done|]. by rewrite Hks'.
  - apply bind_one_None in Hbind. destruct (Hall keymap (ltac:(left))) as [km Hkm]. congruence.
Qed.

Lemma binding_def_app op key op_action mods modifier repeat properties : ∀ good rest st,
  (∀ name, name ∈ good → is_Some (keymaps st !! name)) →
  binding_def (good ++ rest) op key op_action mods modifier repeat properties st =
  binding_def rest op key op_action mods modifier repeat properties
    (binding_def good op key op_action mods modifier repeat properties st).1.
Proof.
  induction good as [|keymap good IH]; intros rest st Hall; [done|].
  cbn [app binding_def].
  destruct (bind_one _ _ _ _ _ _ _ st keymap) as [st1|] eqn:Hbind.
  - apply IH. intros name Hname.
    rewrite (bind_one_keymaps _ _ _ _ _ _ _ _ _ _ Hbind). apply Hall. by right.
  - apply bind_one_None in Hbind. destruct (Hall keymap (ltac:(left))) as [km Hkm]. congruence.
Qed.

End BindingFacts.

(** X20.  [binding_def] raises (KeyError) exactly when one of the names in
    [maps] has not been defined with [keymap_def]; the names before the first
    such name are bound all the same, and stay bound. *)
Theorem binding_def_raises_on_undefined_keymap
    maps op key op_action mods modifier repeat properties st :
  ((binding_def maps op key op_action mods modifier repeat properties st).2 = false ↔
   ∃ name, name ∈ maps ∧ keymaps st !! name = None) ∧
  (∀ good bad rest,
     maps = good ++ bad :: rest →
     (∀ name, name ∈ good → is_Some (keymaps st !! name)) →
     keymaps st !! bad = None →
     binding_def maps op key op_action mods modifier repeat properties st =
     ((binding_def good op key op_action mods modifier repeat properties st).1, false)).
Proof.
  assert (Hpartial : ∀ good bad rest,
     maps = good ++ bad :: rest →
     (∀ name, name ∈ good → is_Some (keymaps st !! name)) →
     keymaps st !! bad = None →
     binding_def maps op key op_action mods modifier repeat properties st =
     ((binding_def good op key op_action mods modifier repeat properties st).1, false)).
  { intros good bad rest -> Hgood Hbad.
    rewrite BindingFacts.binding_def_app by done. cbn [binding_def].
    destruct (BindingFacts.binding_def_all op key op_action mods modifier repeat properties
                good st Hgood) as [_ Hks].
    rewrite <- Hks in Hbad.
    apply (BindingFacts.bind_one_None op key op_action mods modifier repeat properties)
      in Hbad.
    by rewrite Hbad. }
  split; [|done]. split.
  - intros Hfail.
    destruct (decide (Forall (λ name, is_Some (keymaps st !! name)) maps)) as [Hall|Hsome].
    + rewrite Forall_forall in Hall.
      destruct (BindingFacts.binding_def_all op key op_action mods modifier repeat properties
                  maps st Hall) as [Hok _]. congruence.
    + apply not_Forall_Exists in Hsome; [|apply _].
      apply Exists_exists in Hsome as (name & Hname & Hnone). exists name. split; [done|].
      by apply eq_None_not_Some.
  - intros (name & Hname & Hnone).
    assert (Hex : Exists (λ name, keymaps st !! name = None) maps).
    { apply Exists_exists. by exists name. }
    clear name Hname Hnone.
    assert (Hsplit : ∃ good bad rest, maps = good ++ bad :: rest ∧
              (∀ name, name ∈ good → is_Some (keymaps st !! name)) ∧
              keymaps st !! bad = None).
    { clear Hpartial. induction maps as [|name maps IH]; [by apply Exists_nil in Hex|].
      destruct (keymaps st !! name) as [km|] eqn:Hkm.
      - apply Exists_cons in Hex as [Hex|Hex]; [congruence|].
        destruct (IH Hex) as (good & bad & rest & -> & Hgood & Hbad).
        exists (name :: good), bad, rest. split; [done|]. split; [|done].
        intros n [->|Hn]%elem_of_cons; [by rewrite Hkm|by apply Hgood].
      - exists [], name, maps. split; [done|]. split; [|done].
        intros n Hn. by apply elem_of_nil in Hn. }
    destruct Hsplit as (good & bad & rest & Hmaps & Hgood & Hbad).
    by rewrite (Hpartial good bad rest Hmaps Hgood Hbad).
Qed.

(** ** When two loops of pure_edge_loops share an edge *)

Module TwoWalks.

Section Walks.
Context (bm : BMesh) (Hwf : wf_mesh bm = true) (Hrev : reversibleb bm = true).

(** With a reversible scan a state of a walk has one possible state before
    it. *)
Lemma pred_unique e v ep vp ep' vp' :
  is_pole bm v = false →
  next_edge bm ep v = Some e → v = other_vert bm ep vp → ep ∈ link_edges (vert bm vp) →
  next_edge bm ep' v = Some e → v = other_vert bm ep' vp' → ep' ∈ link_edges (vert bm vp') →
  (ep, vp) = (ep', vp').
Proof.
  intros Hpole Hnext Hv Hin Hnext' Hv' Hin'.
  destruct (WalkTermination.incident_ends bm ep vp Hwf Hin) as (_ & _ & Hep & Hback & _).
  destruct (WalkTermination.incident_ends bm ep' vp' Hwf Hin') as (_ & _ & Hep' & Hback' & _).
  rewrite <- Hv in Hep, Hback. rewrite <- Hv' in Hep', Hback'.
  pose proof (ChainFacts.reversible_step bm v ep e Hrev Hpole Hep Hnext) as H1.
  pose proof (ChainFacts.reversible_step bm v ep' e Hrev Hpole Hep' Hnext') as H2.
  assert (ep = ep') as -> by congruence. by rewrite <- Hback, <- Hback'.
Qed.

Lemma hist_pred e0 start hist j a b :
  history_ok bm e0 start hist → hist !! j = Some a → hist !! S j = Some b →
  is_pole bm a.2 = false ∧ next_edge bm b.1 a.2 = Some a.1 ∧
  a.2 = other_vert bm b.1 b.2 ∧ b.1 ∈ link_edges (vert bm b.2).
Proof.
  destruct hist as [|[e h] before]; [done|]. intros (Hchain & _) Ha Hb.
  destruct a as [e_j v_j], b as [e_p v_p].
  by apply (WalkTermination.back_chain_lookup bm before e h j).
Qed.

Lemma hist_incident e0 start hist s :
  history_ok bm e0 start hist → s ∈ hist → s.1 ∈ link_edges (vert bm s.2).
Proof.
  destruct hist as [|[e h] before]; [done|]. intros (Hchain & Hin & _) Hs.
  by apply (WalkTermination.back_chain_incident bm before e h).
Qed.

Lemma hist_nodup e0 start hist : history_ok bm e0 start hist → NoDup hist.*1.
Proof. destruct hist as [|[e h] before]; [done|]. by intros (_ & _ & ? & _). Qed.

Lemma hist_last e0 start hist : history_ok bm e0 start hist → last hist = Some (e0, start).
Proof. destruct hist as [|[e h] before]; [done|]. by intros (_ & _ & _ & ?). Qed.

(** Two walks that are in the same state came there the same way. *)
Lemma same_past e1 P1 H1 e2 P2 H2 :
  history_ok bm e1 P1 H1 → history_ok bm e2 P2 H2 →
  ∀ k i j s a b,
    H1 !! i = Some s → H2 !! j = Some s →
    H1 !! (i + k) = Some a → H2 !! (j + k) = Some b → a = b.
Proof.
  intros Hok1 Hok2. induction k as [|k IH]; intros i j s a b Hi Hj Ha Hb.
  { rewrite Nat.add_0_r in Ha, Hb. congruence. }
  replace (i + S k) with (S (i + k)) in Ha by lia.
  replace (j + S k) with (S (j + k)) in Hb by lia.
  destruct (H1 !! (i + k)) as [a0|] eqn:Ha0.
  2:{ apply lookup_ge_None in Ha0. apply lookup_lt_Some in Ha. lia. }
  destruct (H2 !! (j + k)) as [b0|] eqn:Hb0.
  2:{ apply lookup_ge_None in Hb0. apply lookup_lt_Some in Hb. lia. }
  assert (a0 = b0) as <- by (by apply (IH i j s)).
  destruct (hist_pred _ _ _ _ _ _ Hok1 Ha0 Ha) as (Hpole & Hn1 & Hv1 & Hin1).
  destruct (hist_pred _ _ _ _ _ _ Hok2 Hb0 Hb) as (_ & Hn2 & Hv2 & Hin2).
  destruct a as [ea va], b as [eb vb]. simpl in *.
  by apply (pred_unique a0.1 a0.2).
Qed.

(** A walk that stands where the scan selects its starting edge is back at
    its start vertex. *)
Lemma closing_head e0 start ek vk before :
  history_ok bm e0 start ((ek, vk) :: before) →
  is_pole bm (other_vert bm ek vk) = false →
  next_edge bm ek (other_vert bm ek vk) = Some e0 →
  other_vert bm ek vk = start.
Proof.
  intros Hok Hpole Hsome. set (z := other_vert bm ek vk) in *.
  set (hist := (ek, vk) :: before) in *.
  pose proof (hist_last _ _ _ Hok) as Hlast.
  pose proof (hist_nodup _ _ _ Hok) as Hnd.
  assert (Hin_k : ek ∈ link_edges (vert bm vk)).
  { apply (hist_incident e0 start hist (ek, vk) Hok). left. }
  assert (Hin : e0 ∈ link_edges (vert bm start)).
  { apply (hist_incident e0 start hist (e0, start) Hok). by apply last_Some_elem_of. }
  destruct (WalkTermination.incident_ends bm ek vk Hwf Hin_k)
    as (_ & _ & Hk_z & _ & Hdiff). fold z in Hk_z, Hdiff.
  destruct (WalkTermination.incident_ends bm e0 start Hwf Hin) as (_ & Hhas_start & _).
  pose proof (ChainFacts.next_edge_incident _ _ _ _ Hsome) as H0_z.
  destruct (WalkTermination.incident_ends bm e0 z Hwf H0_z) as (_ & Hhas_z & _).
  destruct (WalkTermination.two_ends bm e0 start z Hhas_start Hhas_z) as [Heq|Hh1]; [done|].
  exfalso.
  pose proof (ChainFacts.reversible_step bm z ek e0 Hrev Hpole Hk_z Hsome) as Hturn.
  destruct (hist !! 1) as [[e_p v_p]|] eqn:Hone.
  - assert (Hlt : 1 < length hist) by (by eapply lookup_lt_Some).
    assert (Hbottom : hist !! (length hist - 1) = Some (e0, start)).
    { rewrite last_lookup in Hlast.
      by replace (length hist - 1) with (Nat.pred (length hist)) by lia. }
    destruct (hist !! (length hist - 2)) as [[e_1 v_1]|] eqn:Hsecond.
    2:{ apply lookup_ge_None in Hsecond. lia. }
    replace (length hist - 1) with (S (length hist - 2)) in Hbottom by lia.
    destruct (hist_pred _ _ _ _ _ _ Hok Hsecond Hbottom) as (_ & Hnext1 & Hv1 & _).
    simpl in Hnext1, Hv1. rewrite <- Hh1 in Hv1. subst v_1.
    assert (e_1 = ek) as -> by congruence.
    assert (Hs1 : hist.*1 !! (length hist - 2) = Some ek)
      by (by rewrite list_lookup_fmap, Hsecond).
    assert (Hz1 : hist.*1 !! 0 = Some ek) by done.
    pose proof (NoDup_lookup _ _ _ _ Hnd Hs1 Hz1) as Hzero.
    rewrite Hzero in Hsecond. simpl in Hsecond. congruence.
  - destruct before as [|s before']; [|done].
    simpl in Hlast. injection Hlast as -> ->.
    by apply (WalkTermination.no_u_turn bm e0 z Hwf Hrev Hpole Hk_z).
Qed.

Section Pair.
Context (e1 P1 ek1 vk1 : nat) (before1 : list (nat * nat)).
Context (e2 P2 ek2 vk2 : nat) (before2 : list (nat * nat)).
Let H1 := (ek1, vk1) :: before1.
Let H2 := (ek2, vk2) :: before2.
Context (Hok1 : history_ok bm e1 P1 H1) (Hok2 : history_ok bm e2 P2 H2).
Context (Hstop1 : stops_at bm e1 ∅ ek1 (other_vert bm ek1 vk1)).
Context (Hstop2 : stops_at bm e2 ∅ ek2 (other_vert bm ek2 vk2)).
Context (Hfresh : e2 ∉ H1.*1).

Lemma in_edges (H : list (nat * nat)) i s : H !! i = Some s → s.1 ∈ H.*1.
Proof.
  intros Hi. apply list_elem_of_fmap. exists s. split; [done|].
  by eapply list_elem_of_lookup_2.
Qed.

(** The later walk does not run against the earlier one. *)
Lemma no_opposite : ∀ n i j e v,
  j + n = length H2 →
  H1 !! i = Some (e, v) → H2 !! j = Some (e, other_vert bm e v) → False.
Proof.
  induction n as [|n IH]; intros i j e v Hn Hi Hj.
  { apply lookup_lt_Some in Hj. lia. }
  set (h := other_vert bm e v) in *.
  pose proof (hist_last _ _ _ Hok2) as Hlast2.
  destruct (H2 !! S j) as [[w u]|] eqn:Hp.
  2:{ apply lookup_ge_None in Hp. apply lookup_lt_Some in Hj as Hlt.
      rewrite last_lookup in Hlast2.
      replace (Nat.pred (length H2)) with j in Hlast2 by lia.
      rewrite Hj in Hlast2. injection Hlast2 as <- _.
      apply Hfresh. by apply (in_edges H1 i (e, v)). }
  destruct (hist_pred _ _ _ _ _ _ Hok2 Hj Hp) as (Hpole & Hnext & Hh & Hw).
  simpl in Hpole, Hnext, Hh, Hw.
  destruct (WalkTermination.incident_ends bm w u Hwf Hw) as (_ & _ & Hw_h & Hback & _).
  rewrite <- Hh in Hw_h, Hback.
  pose proof (ChainFacts.reversible_step bm h w e Hrev Hpole Hw_h Hnext) as Hturn.
  destruct i as [|i'].
  - (* the earlier walk stopped at [h] *)
    assert (e = ek1 ∧ v = vk1) as [-> ->] by (by simpl in Hi; simplify_eq).
    fold h in Hstop1.
    destruct Hstop1 as [Hp1|[Hs1|[Hn1|Hc1]]]; [congruence| |congruence|].
    { by apply not_elem_of_empty in Hs1. }
    assert (w = e1) as -> by congruence.
    pose proof (closing_head e1 P1 ek1 vk1 before1 Hok1 Hpole Hc1) as HP1. fold h in HP1.
    pose proof (hist_last _ _ _ Hok1) as Hlast1. rewrite last_lookup in Hlast1.
    apply (IH (Nat.pred (length H1)) (S j) e1 P1); [lia|done|].
    rewrite Hp. f_equal. f_equal. by rewrite <- HP1, Hback.
  - destruct (H1 !! i') as [[e' h']|] eqn:Hi'.
    2:{ apply lookup_ge_None in Hi'. apply lookup_lt_Some in Hi. lia. }
    destruct (hist_pred _ _ _ _ _ _ Hok1 Hi' Hi) as (_ & Hnext' & Hh' & _).
    simpl in Hnext', Hh'. fold h in Hh'. subst h'.
    assert (e' = w) as -> by congruence.
    apply (IH i' (S j) w h); [lia|done|]. by rewrite Hp, Hback.
Qed.

(** From a common state on, the later walk goes on as the earlier one. *)
Lemma same_future : ∀ i j s,
  H1 !! i = Some s → H2 !! j = Some s →
  i ≤ j ∧ H1 !! 0 = H2 !! (j - i).
Proof.
  induction i as [|i IH]; intros j s Hi Hj.
  { split; [lia|]. rewrite Nat.sub_0_r. congruence. }
  destruct (H1 !! i) as [[e' h]|] eqn:Hi'.
  2:{ apply lookup_ge_None in Hi'. apply lookup_lt_Some in Hi. lia. }
  destruct (hist_pred _ _ _ _ _ _ Hok1 Hi' Hi) as (Hpole & Hnext & Hh & _).
  simpl in Hpole, Hnext, Hh.
  destruct j as [|j].
  - (* the later walk would have stopped here *)
    exfalso. assert (s = (ek2, vk2)) as -> by (by simpl in Hj; simplify_eq).
    simpl in Hnext, Hh. rewrite <- Hh in Hstop2.
    destruct Hstop2 as [Hp2|[Hs2|[Hn2|Hc2]]]; [congruence| |congruence|].
    { by apply not_elem_of_empty in Hs2. }
    apply Hfresh. assert (e' = e2) as <- by congruence. by apply (in_edges H1 i (e', h)).
  - destruct (H2 !! j) as [[e'' h'']|] eqn:Hj'.
    2:{ apply lookup_ge_None in Hj'. apply lookup_lt_Some in Hj. lia. }
    destruct (hist_pred _ _ _ _ _ _ Hok2 Hj' Hj) as (_ & Hnext2 & Hh2 & _).
    simpl in Hnext2, Hh2.
    assert (h'' = h) as -> by congruence. assert (e'' = e') as -> by congruence.
    destruct (IH j (e', h) eq_refl Hj') as [Hle Htop]. split; [lia|].
    by replace (S j - S i) with (j - i) by lia.
Qed.

(** Two walks with a common edge, the later one started at an edge the
    earlier one did not pass: the earlier walk started at a vertex that is
    not a pole, inside the later walk, which goes on as the earlier one to
    its end. *)
Lemma overlap x :
  x ∈ H1.*1 → x ∈ H2.*1 →
  is_pole bm P1 = false ∧ ∃ older, older ≠ [] ∧ H2 = H1 ++ older.
Proof.
  intros Hx1 Hx2.
  apply list_elem_of_fmap in Hx1 as ([x1 v] & Hxe1 & Hs1). simpl in Hxe1. subst x1.
  apply list_elem_of_fmap in Hx2 as ([x2 v'] & Hxe2 & Hs2). simpl in Hxe2. subst x2.
  apply list_elem_of_lookup in Hs1 as [i Hi]. apply list_elem_of_lookup in Hs2 as [j Hj].
  (* the two walks pass [x] the same way *)
  assert (Hsame : v' = v).
  { pose proof (hist_incident _ _ _ (x, v) Hok1 (list_elem_of_lookup_2 _ _ _ Hi)) as Hv.
    pose proof (hist_incident _ _ _ (x, v') Hok2 (list_elem_of_lookup_2 _ _ _ Hj)) as Hv'.
    simpl in Hv, Hv'.
    destruct (WalkTermination.incident_ends bm x v Hwf Hv) as (_ & Hhas & _).
    destruct (WalkTermination.incident_ends bm x v' Hwf Hv') as (_ & Hhas' & _).
    destruct (WalkTermination.two_ends bm x v v' Hhas Hhas') as [|Hopp]; [done|].
    exfalso. subst v'. by apply (no_opposite (length H2 - j) i j x v);
      [apply lookup_lt_Some in Hj; lia|..]. }
  subst v'.
  destruct (same_future i j (x, v) Hi Hj) as [Hij Htop].
  pose proof (hist_last _ _ _ Hok1) as Hlast1. pose proof (hist_last _ _ _ Hok2) as Hlast2.
  rewrite last_lookup in Hlast1, Hlast2.
  pose proof (lookup_lt_Some _ _ _ Hi) as Hlt1. pose proof (lookup_lt_Some _ _ _ Hj) as Hlt2.
  (* the earlier walk's start is in the later walk *)
  assert (Hlen : length H1 - i ≤ length H2 - j).
  { destruct (decide (length H1 - i ≤ length H2 - j)) as [|Hlonger]; [done|].
    exfalso.
    destruct (H1 !! (i + (Nat.pred (length H2) - j))) as [a|] eqn:Ha.
    2:{ apply lookup_ge_None in Ha. lia. }
    assert (a = (e2, P2)).
    { apply (same_past _ _ _ _ _ _ Hok1 Hok2 (Nat.pred (length H2) - j) i j (x, v));
        try done. by replace (j + (Nat.pred (length H2) - j)) with (Nat.pred (length H2)) by lia. }
    subst a. apply Hfresh.
    exact (in_edges H1 (i + (Nat.pred (length H2) - j)) (e2, P2) Ha). }
  assert (Hstart : H2 !! (j + (Nat.pred (length H1) - i)) = Some (e1, P1)).
  { destruct (H2 !! (j + (Nat.pred (length H1) - i))) as [b|] eqn:Hb.
    2:{ apply lookup_ge_None in Hb. lia. }
    f_equal. symmetry.
    apply (same_past _ _ _ _ _ _ Hok1 Hok2 (Nat.pred (length H1) - i) i j (x, v)); try done.
    by replace (i + (Nat.pred (length H1) - i)) with (Nat.pred (length H1)) by lia. }
  (* the later walk ends where the earlier one does *)
  assert (Hji : j = i).
  { destruct (decide (j = i)) as [|Hne]; [done|]. exfalso.
    destruct (H2 !! (j - i - 1)) as [[e' h']|] eqn:Hnext.
    2:{ apply lookup_ge_None in Hnext. lia. }
    assert (Htop2 : H2 !! S (j - i - 1) = Some (ek1, vk1)).
    { replace (S (j - i - 1)) with (j - i) by lia. by rewrite <- Htop. }
    destruct (hist_pred _ _ _ _ _ _ Hok2 Hnext Htop2) as (Hpole & Hn & Hh & _).
    simpl in Hpole, Hn, Hh. rewrite <- Hh in Hstop1.
    destruct Hstop1 as [Hp1|[Hs1|[Hn1|Hc1]]]; [congruence| |congruence|].
    { by apply not_elem_of_empty in Hs1. }
    assert (e' = e1) as -> by congruence.
    pose proof (hist_nodup _ _ _ Hok2) as Hnd2.
    assert (Ha : H2.*1 !! (j - i - 1) = Some e1) by (by rewrite list_lookup_fmap, Hnext).
    assert (Hb : H2.*1 !! (j + (Nat.pred (length H1) - i)) = Some e1)
      by (by rewrite list_lookup_fmap, Hstart).
    pose proof (NoDup_lookup _ _ _ _ Hnd2 Ha Hb). lia. }
  subst j.
  (* so the earlier history is the later part of the later one *)
  assert (Hprefix : ∀ k, k < length H1 → H1 !! k = H2 !! k).
  { intros k Hk. destruct (decide (k ≤ i)) as [Hki|Hki].
    - destruct (H1 !! k) as [a|] eqn:Ha; [|apply lookup_ge_None in Ha; lia].
      destruct (H2 !! k) as [b|] eqn:Hb; [|apply lookup_ge_None in Hb; lia].
      (* forward from the common state *)
      assert (Hgen : ∀ d, d ≤ i → H1 !! (i - d) = H2 !! (i - d)).
      { induction d as [|d IHd]; intros Hd.
        - rewrite Nat.sub_0_r. congruence.
        - specialize (IHd (ltac:(lia))).
          destruct (H1 !! (i - d)) as [s|] eqn:Hs; [|apply lookup_ge_None in Hs; lia].
          symmetry in IHd.
          destruct (H1 !! (i - S d)) as [[ea ha]|] eqn:Hsa;
            [|apply lookup_ge_None in Hsa; lia].
          destruct (H2 !! (i - S d)) as [[eb hb]|] eqn:Hsb;
            [|apply lookup_ge_None in Hsb; lia].
          replace (i - d) with (S (i - S d)) in Hs, IHd by lia.
          destruct (hist_pred _ _ _ _ _ _ Hok1 Hsa Hs) as (_ & Hna & Hva & _).
          destruct (hist_pred _ _ _ _ _ _ Hok2 Hsb IHd) as (_ & Hnb & Hvb & _).
          simpl in *. assert (ha = hb) as -> by congruence. congruence. }
      specialize (Hgen (i - k) (ltac:(lia))).
      replace (i - (i - k)) with k in Hgen by lia. congruence.
    - destruct (H1 !! k) as [a|] eqn:Ha; [|apply lookup_ge_None in Ha; lia].
      destruct (H2 !! k) as [b|] eqn:Hb; [|apply lookup_ge_None in Hb; lia].
      f_equal.
      apply (same_past _ _ _ _ _ _ Hok1 Hok2 (k - i) i i (x, v)); try done;
        by replace (i + (k - i)) with k by lia. }
  assert (Htake : H1 = take (length H1) H2).
  { apply list_eq. intros k. destruct (decide (k < length H1)) as [Hk|Hk].
    - rewrite lookup_take_lt by done. by apply Hprefix.
    - rewrite lookup_take_ge by lia. apply lookup_ge_None. lia. }
  assert (He12 : e1 ≠ e2).
  { intros <-. apply Hfresh. apply (in_edges H1 (Nat.pred (length H1)) (e1, P1)). done. }
  assert (Hshorter : length H1 < length H2).
  { destruct (decide (length H1 < length H2)) as [|Hge]; [done|]. exfalso.
    assert (length H1 = length H2) as Heq by lia.
    rewrite (Hprefix (Nat.pred (length H1))) in Hlast1 by lia.
    rewrite Heq in Hlast1. congruence. }
  split.
  - replace (i + (Nat.pred (length H1) - i)) with (Nat.pred (length H1)) in Hstart by lia.
    destruct (H2 !! S (Nat.pred (length H1))) as [b|] eqn:Hb.
    2:{ apply lookup_ge_None in Hb. lia. }
    by destruct (hist_pred _ _ _ _ _ _ Hok2 Hstart Hb) as (Hpole & _).
  - exists (drop (length H1) H2). split.
    + intros Hnil. apply (f_equal length) in Hnil. rewrite length_drop in Hnil.
      change (length (@nil (nat * nat))) with 0 in Hnil. lia.
    + rewrite Htake at 1. by rewrite take_drop.
Qed.

End Pair.

End Walks.

End TwoWalks.

Module OverlapFacts.

(** Two results of [find_loop] with a common edge, the second started at an
    edge that is not in the first *)
Lemma two_loops bm fuel1 fuel2 e1 P1 l1 e2 P2 l2 x :
  wf_mesh bm = true → reversibleb bm = true →
  e1 ∈ link_edges (vert bm P1) → e2 ∈ link_edges (vert bm P2) →
  find_loop fuel1 bm e1 P1 ∅ = Some l1 →
  find_loop fuel2 bm e2 P2 ∅ = Some l2 →
  e2 ∉ edge_set l1 → x ∈ edge_set l1 → x ∈ edge_set l2 →
  is_pole bm P1 = false ∧ ∃ pre, pre ≠ [] ∧ edges l2 = pre ++ edges l1.
Proof.
  intros Hwf Hrev Hin1 Hin2 Hl1 Hl2 Hfresh Hx1 Hx2.
  apply WalkTermination.find_loop_at_budget in Hl1; try done.
  apply WalkTermination.find_loop_at_budget in Hl2; try done.
  destruct (WalkTermination.find_loop_trace bm e1 P1 ∅ (fuel1 `max` walk_budget bm)
              Hwf Hrev Hin1) as (ek1 & vk1 & before1 & Hok1 & Hstop1 & Ht1); [lia|].
  destruct (WalkTermination.find_loop_trace bm e2 P2 ∅ (fuel2 `max` walk_budget bm)
              Hwf Hrev Hin2) as (ek2 & vk2 & before2 & Hok2 & Hstop2 & Ht2); [lia|].
  rewrite Ht1 in Hl1. rewrite Ht2 in Hl2.
  apply (inj Some) in Hl1, Hl2. subst l1 l2. cbn [edge_set edges close_off] in *.
  assert (Hmem : ∀ (H : list (nat * nat)) y,
            y ∈ (list_to_set (list.reverse (H.*1)) : gset nat) ↔ y ∈ H.*1).
  { intros H y. by rewrite elem_of_list_to_set, elem_of_reverse. }
  rewrite Hmem in Hfresh, Hx1, Hx2.
  destruct (TwoWalks.overlap bm Hwf Hrev e1 P1 ek1 vk1 before1 e2 P2 ek2 vk2 before2
              Hok1 Hok2 Hstop1 Hstop2 Hfresh x Hx1 Hx2) as (Hpole & older & Hne & Heq).
  split; [done|]. exists (list.reverse (older.*1)). split.
  - intros Hnil. apply (f_equal length) in Hnil.
    rewrite length_reverse, length_fmap in Hnil. by destruct older.
  - by rewrite Heq, fmap_app, reverse_app.
Qed.

Lemma for_each_inv {A S} (body : S → A → option S) (I : S → Prop) : ∀ xs s s',
  (∀ s x s', x ∈ xs → I s → body s x = Some s' → I s') →
  I s → for_each body xs s = Some s' → I s'.
Proof.
  induction xs as [|x xs IH]; intros s s' Hbody Hs Hrun; simpl in Hrun.
  { by injection Hrun as <-. }
  destruct (body s x) as [s1|] eqn:Hstep; [simpl in Hrun|done].
  apply (IH s1 s'); [|by eapply Hbody; [left|..]|done].
  intros s2 y s3 Hy. apply Hbody. by right.
Qed.

Section Order.
Context (fuel : nat) (bm : BMesh).

(** The loops found so far: each started at an edge, from one of its ends,
    that was in none of the loops found before it. *)
Let in_order (st : list PureEdgeLoop * gset nat) : Prop :=
  st.2 = loops_union st.1 ∧
  ∀ j l2, st.1 !! j = Some l2 →
    ∃ e2 start2, e2 ∈ link_edges (vert bm start2) ∧
      find_loop fuel bm e2 start2 ∅ = Some l2 ∧
      first_of (vertices l2) = start2 ∧
      ∀ i l1, i < j → st.1 !! i = Some l1 → e2 ∉ edge_set l1.

Lemma visit_in_order start st e st' :
  e ∈ link_edges (vert bm start) → in_order st →
  visit fuel bm start st e = Some st' → in_order st'.
Proof.
  intros Hin [Hunion Hall]. unfold visit. case_bool_decide as Hseen.
  { by intros [= <-]. }
  destruct (find_loop fuel bm e start ∅) as [loop|] eqn:Hloop; [simpl|done].
  intros [= <-]. split; simpl.
  - by rewrite SearchFacts.loops_union_app, <- Hunion.
  - intros j l2 Hj. destruct (decide (j < length st.1)) as [Hlt|Hge].
    + rewrite lookup_app_l in Hj by done.
      destruct (Hall j l2 Hj) as (e2 & start2 & ? & ? & ? & Hbefore).
      exists e2, start2. split; [done|]. split; [done|]. split; [done|].
      intros i l1 Hi Hl1. rewrite lookup_app_l in Hl1 by lia. by apply (Hbefore i).
    + rewrite lookup_app_r in Hj by lia.
      destruct (j - length st.1) as [|n] eqn:Hn; [|by destruct n].
      simpl in Hj. injection Hj as <-.
      exists e, start. split; [done|]. split; [done|].
      split; [by eapply LoopFacts.find_loop_first_vertex|].
      intros i l1 Hi Hl1. rewrite lookup_app_l in Hl1 by lia.
      intros He. apply Hseen. rewrite Hunion. unfold loops_union.
      apply elem_of_union_list. exists (edge_set l1). split; [|done].
      apply list_elem_of_fmap. exists l1. split; [done|]. by eapply list_elem_of_lookup_2.
Qed.

Lemma pure_edge_loops_in_order pole_order ls :
  wf_mesh bm = true →
  pure_edge_loops fuel bm pole_order = Some ls →
  ∀ j l2, ls !! j = Some l2 →
    ∃ e2 start2, e2 ∈ link_edges (vert bm start2) ∧
      find_loop fuel bm e2 start2 ∅ = Some l2 ∧
      first_of (vertices l2) = start2 ∧
      ∀ i l1, i < j → ls !! i = Some l1 → e2 ∉ edge_set l1.
Proof.
  intros Hwf. unfold pure_edge_loops. intros Hrun.
  destruct (for_each _ pole_order _) as [st1|] eqn:Hfirst; [simpl in Hrun|done].
  destruct (for_each _ (indices (bm_edges bm)) st1) as [st2|] eqn:Hsecond;
    [simpl in Hrun|done].
  injection Hrun as <-.
  assert (H0 : in_order ([], ∅)).
  { split; [done|]. intros j l2 Hj. simpl in Hj. by destruct j. }
  assert (H1 : in_order st1).
  { apply (for_each_inv _ in_order pole_order ([], ∅) st1) in Hfirst; [done| |done].
    intros s pole s' _ Hs Hpole.
    apply (for_each_inv _ in_order _ s s') in Hpole; [done| |done].
    intros s2 e s3 He Hs2 Hvisit. by apply (visit_in_order pole s2 e). }
  assert (H2 : in_order st2).
  { apply (for_each_inv _ in_order _ st1 st2) in Hsecond; [done| |done].
    intros s e s' He Hs Hvisit.
    apply (visit_in_order (verts (edge bm e)).1 s e); [|done|done].
    apply ChainFacts.elem_of_indices in He.
    destruct (ChainFacts.wf_edge_ends bm e Hwf He) as [Ha _].
    apply ChainFacts.wf_link_edges; [done|done|]. split; [done|].
    unfold edge_has. by rewrite bool_decide_eq_true_2. }
  by destruct H2 as [_ Hall].
Qed.

End Order.

End OverlapFacts.

(** X21.  On a well-formed mesh whose scan is reversible, two loops that
    [pure_edge_loops] returns share an edge only in one way: the earlier one
    started at a vertex that is not a pole, in the middle of the later one's
    chain, and the later one ends with the whole of the earlier one.  A loop
    that starts at a pole shares no edge with a later loop. *)
Theorem pure_edge_loops_overlap_only_inside fuel bm pole_order ls :
  wf_mesh bm = true → reversibleb bm = true →
  pure_edge_loops fuel bm pole_order = Some ls →
  ∀ i j l1 l2, i < j → ls !! i = Some l1 → ls !! j = Some l2 →
    (∃ x, x ∈ edge_set l1 ∧ x ∈ edge_set l2) →
    is_pole bm (first_of (vertices l1)) = false ∧
    ∃ pre, pre ≠ [] ∧ edges l2 = pre ++ edges l1.
Proof.
  intros Hwf Hrev Hrun i j l1 l2 Hij Hi Hj (x & Hx1 & Hx2).
  destruct (OverlapFacts.pure_edge_loops_in_order fuel bm pole_order ls Hwf Hrun i l1 Hi)
    as (e1 & P1 & Hin1 & Hl1 & Hfirst1 & _).
  destruct (OverlapFacts.pure_edge_loops_in_order fuel bm pole_order ls Hwf Hrun j l2 Hj)
    as (e2 & P2 & Hin2 & Hl2 & _ & Hfresh).
  rewrite Hfirst1.
  apply (OverlapFacts.two_loops bm fuel fuel e1 P1 l1 e2 P2 l2 x); try done.
  by apply (Hfresh i l1).
Qed.

Lemma pure_edge_loops_overlap_only_inside_witness :
  is_pole grid3x3 (first_of (vertices (close_off [4; 1] [8]))) = false ∧
  ∃ pre, pre ≠ [] ∧ edges (close_off [7; 4; 1] [9; 8]) = pre ++ edges (close_off [4; 1] [8]).
Proof.
  assert (Hrun : ∃ ls, pure_edge_loops 12 grid3x3 [0; 2; 6; 8] = Some ls ∧
                       ls !! 5 = Some (close_off [4; 1] [8]) ∧
                       ls !! 6 = Some (close_off [7; 4; 1] [9; 8])).
  { eexists. split; [vm_compute; reflexivity|]. split; reflexivity. }
  destruct Hrun as (ls & Hrun & H5 & H6).
  apply (pure_edge_loops_overlap_only_inside 12 grid3x3 [0; 2; 6; 8] ls
           ltac:(vm_compute; reflexivity) ltac:(vm_compute; reflexivity) Hrun 5 6 _ _
           ltac:(lia) H5 H6).
  exists 8. split; apply elem_of_list_to_set; [left|right; left].
Defined.

(** ** get_edge_loops: the later entries are closed circuits *)

Module CircuitFacts.

Lemma chained_snoc : ∀ ls l,
  ls ≠ [] → chained ls → chain_end_vertex ls = first_of (vertices l) →
  chained (ls ++ [l]).
Proof.
  intros ls l Hne Hch Hend.
  induction ls as [|l1 ls IH]; [done|].
  destruct ls as [|l2 ls].
  - simpl. split; [|done]. unfold chain_end_vertex in Hend. by simpl in Hend.
  - destruct Hch as [Hlink Hch]. split; [done|]. apply IH; [done|done|].
    unfold chain_end_vertex in *. by rewrite last_cons_cons in Hend.
Qed.

(** In a chain of the search each loop starts where the one before it
    ends. *)
Lemma search_chain_chained fuel bm pure c :
  search_chain fuel bm pure c → c ≠ [] ∧ chained c.
Proof.
  induction 1 as [|c le l _ [Hne Hch] _ _ _ Hloop]; [done|].
  split; [by destruct c|]. apply chained_snoc; [done..|].
  symmetry. by eapply LoopFacts.find_loop_first_vertex.
Qed.

End CircuitFacts.

(** X22.  Every entry after the first in the list [get_edge_loops] returns
    is the edge set of a closed circuit through the pure loop: a chain that
    the search built (the pure loop, followed by loops that [find_loop]
    returned), in which each loop starts at the vertex where the one before
    it ends, and which ends at the pure loop's first vertex. *)
Theorem get_edge_loops_later_entries_are_circuits pq fuel bm e ls :
  HeapqLaws pq →
  get_edge_loops pq fuel bm e = Some ls →
  ∃ pure circuits,
    pure_edge_loop fuel bm e = Some pure ∧
    ls = edge_set pure :: (loops_union <$> circuits) ∧
    Forall (λ c, search_chain fuel bm pure c ∧ head c = Some pure ∧ chained c ∧
                 chain_end_vertex c = first_of (vertices pure)) circuits.
Proof.
  intros laws H.
  apply GetEdgeLoopsFacts.get_edge_loops_chains in H
    as (pure & nodes & Hpure & Hok & -> & Hnodes & Hsorted); [|done].
  exists pure, (loops <$> nodes). split; [done|]. split.
  { by rewrite <- list_fmap_compose. }
  apply Forall_fmap. eapply Forall_impl; [exact Hnodes|].
  intros nd (_ & _ & Hend & Hchain & Hv). simpl. split; [done|].
  split; [by eapply GetEdgeLoopsFacts.search_chain_head|].
  split; [by eapply CircuitFacts.search_chain_chained|]. by rewrite <- Hv.
Qed.

Lemma get_edge_loops_later_entries_are_circuits_witness :
  ∃ pure circuits,
    pure_edge_loop 12 quad_diag 0 = Some pure ∧
    [({[0]} : gset nat); {[0; 1; 2; 5]}; {[0; 1; 2; 5]}]
      = edge_set pure :: (loops_union <$> circuits) ∧
    Forall (λ c, search_chain 12 quad_diag pure c ∧ head c = Some pure ∧ chained c ∧
                 chain_end_vertex c = first_of (vertices pure)) circuits.
Proof.
  apply (get_edge_loops_later_entries_are_circuits list_pq 12 quad_diag 0).
  - apply QueueFacts.list_pq_laws.
  - vm_compute. reflexivity.
Defined.

(** ** Capture and restore when the index table is up to date *)

Import Selection.

(** X23.  When the state has no active element, or the index table of the
    active element's kind is up to date, capture followed by restore on the
    same, unchanged state returns normally and leaves the mode flags, the
    select flags of the kind that the mode designates, the active element and
    the state of the index tables as they were.  This holds for every mode,
    in particular for the three single modes. *)
Theorem capture_restore_round_trip_when_table_current ops st :
  SelectLaws ops →
  TableLaws ops →
  NoDup (select_history st) →
  (∀ k i, history_active st = Some (k, i) →
          i < length (flags k st) ∧ k ∉ elem_table_dirty st) →
  ∃ st', restore ops (from_context st) st = Ok st' ∧
         mesh_select_mode st' = mesh_select_mode st ∧
         flags (mode_kind (mesh_select_mode st)) st'
           = flags (mode_kind (mesh_select_mode st)) st ∧
         history_active st' = history_active st ∧
         elem_table_dirty st' = elem_table_dirty st.
Proof.
  intros laws tables Hnd Hvalid.
  rewrite (SelectionFacts.restore_unfold ops).
  set (s := from_context st).
  set (k0 := mode_kind (mesh_select_mode st)).
  pose proof (SelectionFacts.prepared_tables ops s st tables) as Htab.
  assert (Hprep : mesh_select_mode (prepared ops s st) = mesh_select_mode st ∧
                  flags k0 (prepared ops s st) = flags k0 st ∧
                  select_history (prepared ops s st)
                    `sublist_of` select_history st).
  { unfold prepared. subst s. cbn [mode from_context].
    rewrite SelectionFacts.set_mode_flags_same. fold k0.
    match goal with |- context [write_flags ops k0 ?c st] =>
      destruct (SelectionFacts.write_flags_spec ops laws k0 c st)
        as (Hmode & Hhist & _ & Hflags) end.
    split; [by rewrite (flush_mode ops laws)|]. split.
    - unfold k0 at 1. rewrite <- Hmode. rewrite (flush_flags ops laws), Hmode. fold k0.
      apply Hflags. intros i b Hi.
      destruct k0; simpl; by apply SelectionFacts.selected_flag.
    - etrans; [apply (flush_history ops laws)|done]. }
  destruct Hprep as (Hmode & Hflags & Hhist).
  unfold history_active in *.
  destruct (last (select_history st)) as [[k i]|] eqn:Hactive.
  - assert (Hs : active s = Z.of_nat i ∧ active_type s = type_of k).
    { subst s. unfold from_context, history_active. by rewrite Hactive. }
    destruct Hs as [Hs Ht]. rewrite Hs, Ht.
    destruct (decide (Z.of_nat i ≠ (-1)%Z)) as [_|Hne]; [|lia].
    assert (Hitems : type_to_items (prepared ops s st) (type_of k)
                     = (Some k, length (flags k st))).
    { rewrite <- (SelectionFacts.prepared_length ops laws s st k). by destruct k. }
    rewrite Hitems.
    destruct (Hvalid k i eq_refl) as [Hlt Hclean].
    assert (Hidx : elem_index (prepared ops s st) k (length (flags k st)) (Z.of_nat i)
                   = Some i).
    { unfold elem_index, py_index. rewrite Htab, bool_decide_eq_false_2 by done.
      destruct (decide (0 ≤ Z.of_nat i < Z.of_nat (length (flags k st)))%Z); [|lia].
      by rewrite Nat2Z.id. }
    rewrite Hidx. eexists. split; [done|]. simpl.
    split; [done|]. split; [by destruct k0|]. split; [|done].
    case_bool_decide as Hin.
    + by apply (SelectionFacts.last_of_sublist _ (select_history st)).
    + apply last_snoc.
  - assert (Hs : active s = (-1)%Z).
    { subst s. unfold from_context, history_active. by rewrite Hactive. }
    rewrite Hs. destruct (decide ((-1)%Z ≠ (-1)%Z)); [done|].
    eexists. split; [done|]. split; [done|]. split; [done|]. split; [|done].
    apply last_None in Hactive. rewrite Hactive in Hhist.
    apply sublist_nil_r in Hhist. by rewrite Hhist.
Qed.

Lemma capture_restore_round_trip_when_table_current_witness :
  (∃ st', restore plain_ops (from_context vertex_mode_state) vertex_mode_state = Ok st' ∧
          mesh_select_mode st' = (true, false, false) ∧
          flags VERT st' = [true; false; true] ∧
          history_active st' = Some (VERT, 2) ∧
          elem_table_dirty st' = []) ∧
  (∃ st', restore plain_ops (from_context edge_mode_state) edge_mode_state = Ok st' ∧
          mesh_select_mode st' = (false, true, false) ∧
          flags EDGE st' = [true; false] ∧
          history_active st' = Some (EDGE, 0) ∧
          elem_table_dirty st' = []) ∧
  (∃ st', restore plain_ops (from_context face_mode_state) face_mode_state = Ok st' ∧
          mesh_select_mode st' = (false, false, true) ∧
          flags FACE st' = [true] ∧
          history_active st' = Some (FACE, 0) ∧
          elem_table_dirty st' = []) ∧
  (∃ st', restore plain_ops (from_context outdated_no_active_state) outdated_no_active_state
            = Ok st' ∧
          mesh_select_mode st' = (true, false, false) ∧
          flags VERT st' = [false; true; false] ∧
          history_active st' = None ∧
          elem_table_dirty st' = [VERT; EDGE; FACE]).
Proof.
  repeat split.
  - apply (capture_restore_round_trip_when_table_current plain_ops vertex_mode_state).
    + apply SelectionFacts.plain_ops_laws.
    + apply SelectionFacts.plain_tables.
    + apply (bool_decide_unpack _). vm_compute. reflexivity.
    + intros k i [= <- <-]. split; [simpl; lia|]. apply not_elem_of_nil.
  - apply (capture_restore_round_trip_when_table_current plain_ops edge_mode_state).
    + apply SelectionFacts.plain_ops_laws.
    + apply SelectionFacts.plain_tables.
    + apply (bool_decide_unpack _). vm_compute. reflexivity.
    + intros k i [= <- <-]. split; [simpl; lia|]. apply not_elem_of_nil.
  - apply (capture_restore_round_trip_when_table_current plain_ops face_mode_state).
    + apply SelectionFacts.plain_ops_laws.
    + apply SelectionFacts.plain_tables.
    + apply (bool_decide_unpack _). vm_compute. reflexivity.
    + intros k i [= <- <-]. split; [simpl; lia|]. apply not_elem_of_nil.
  - apply (capture_restore_round_trip_when_table_current plain_ops outdated_no_active_state).
    + apply SelectionFacts.plain_ops_laws.
    + apply SelectionFacts.plain_tables.
    + apply (bool_decide_unpack _). vm_compute. reflexivity.
    + intros k i [=].
Defined.
